(** * Da Vinci Code board game: the turn engine of [App.tsx] and the
      tile factory and hand ordering of [constants.ts], embedded in Rocq.

    Conventions of the embedding.
    - JavaScript numbers that hold tile values, indices and counters are
      integers ([Z] or [nat]); the sort key [sortValue] is a double in the
      source and a rational ([Q]) here.  The comparator of [sortHand]
      compares the difference of two keys with the double [0.001], as the
      subtraction of doubles rounds that difference ([aboveTolerance]).
      Every sort key and random number used in a concrete evaluation
      below is a dyadic rational that a double holds exactly.
    - [Math.random()] is an explicit argument [u : Q] with [0 <= u < 1].
    - React state: a handler reads the [gameState] captured by its render
      and queues updates with [setGameState]; the queue is applied in
      order once the handler is done.  Handlers return their queue
      ([Run]); [exec] applies it.
    - A [TypeError] and a loop that never exits are outcomes of their
      own.
    - The host hands the engine one command at a time.  In [Command] a
      guess is the click on a tile and, when the dialog opens, the choice
      of a value in it, made in one piece ([guess]); [reachable] closes
      the states that [startGame] makes under these commands.
    - The dialog is state of the component, beside the game: [App] holds
      both, an [Event] is a click, a choice in the dialog, a button or a
      timer, and [played] closes the states of the component under
      events and new games.  There the choice is made in the dialog as
      it was left, on the game of the moment, however many events lie
      between the click and the choice.  Every reachable state is the
      game of a state in play ([reachable_played]). *)

From Stdlib Require Import List ZArith QArith Qabs Qround String Ascii Bool Lia
  Permutation DecimalString Arith Sorted Lqa.
Import ListNotations.

Local Open Scope string_scope.
Local Open Scope Z_scope.

(** ** types.ts *)

Inductive TileColor := BLACK | WHITE.

Record Tile := mkTile {
  tileId : string;
  color : TileColor;
  value : Z;
  sortValue : Q;
  isRevealed : bool;
  ownerId : option string;
  isJoker : bool;
  isPlaced : bool
}.

Record Player := mkPlayer {
  playerId : string;
  name : string;
  isBot : bool;
  hand : list Tile;
  isEliminated : bool;
  avatar : string
}.

Inductive GamePhase := SETUP | DRAW | GUESS | RESOLVE | TURN_END | GAME_OVER.

Record GameState := mkGameState {
  players : list Player;
  currentTurnPlayerId : string;
  drawnTile : option Tile;
  pool : list Tile;
  phase : GamePhase;
  winnerId : option string;
  turnLog : list string;
  moveNumber : Z
}.

Record PlayerSetupConfig := mkPlayerSetupConfig {
  cfgName : string;
  cfgAvatar : string;
  cfgIsBot : bool
}.

Record GameConfig := mkGameConfig {
  playerCount : nat;
  timerSeconds : Z;
  botCount : nat;
  playerDetails : list PlayerSetupConfig;
  includeJokers : bool
}.

Definition TileColor_eqb (a b : TileColor) : bool :=
  match a, b with
  | BLACK, BLACK | WHITE, WHITE => true
  | _, _ => false
  end.

Definition GamePhase_eqb (a b : GamePhase) : bool :=
  match a, b with
  | SETUP, SETUP | DRAW, DRAW | GUESS, GUESS | RESOLVE, RESOLVE
  | TURN_END, TURN_END | GAME_OVER, GAME_OVER => true
  | _, _ => false
  end.

(** Template literals: [`${n}`] for an integer and for a colour. *)
Definition showZ (z : Z) : string := NilZero.string_of_int (Z.to_int z).
Definition showNat (n : nat) : string := showZ (Z.of_nat n).
Definition showColor (c : TileColor) : string :=
  match c with BLACK => "BLACK" | WHITE => "WHITE" end.

(** Spread updates [{ ...t, field: v }]. *)
Definition setRevealed (b : bool) (t : Tile) : Tile :=
  mkTile (tileId t) (color t) (value t) (sortValue t) b (ownerId t)
         (isJoker t) (isPlaced t).
Definition setOwner (o : option string) (t : Tile) : Tile :=
  mkTile (tileId t) (color t) (value t) (sortValue t) (isRevealed t) o
         (isJoker t) (isPlaced t).
Definition setSortValue (q : Q) (t : Tile) : Tile :=
  mkTile (tileId t) (color t) (value t) q (isRevealed t) (ownerId t)
         (isJoker t) (isPlaced t).
Definition placeAt (q : Q) (t : Tile) : Tile :=
  mkTile (tileId t) (color t) (value t) q (isRevealed t) (ownerId t)
         (isJoker t) true.

Definition setHand (h : list Tile) (p : Player) : Player :=
  mkPlayer (playerId p) (name p) (isBot p) h (isEliminated p) (avatar p).
Definition setEliminated (b : bool) (p : Player) : Player :=
  mkPlayer (playerId p) (name p) (isBot p) (hand p) b (avatar p).

Definition setPlayers (ps : list Player) (s : GameState) : GameState :=
  mkGameState ps (currentTurnPlayerId s) (drawnTile s) (pool s) (phase s)
              (winnerId s) (turnLog s) (moveNumber s).
Definition setCurrent (c : string) (s : GameState) : GameState :=
  mkGameState (players s) c (drawnTile s) (pool s) (phase s)
              (winnerId s) (turnLog s) (moveNumber s).
Definition setDrawnTile (d : option Tile) (s : GameState) : GameState :=
  mkGameState (players s) (currentTurnPlayerId s) d (pool s) (phase s)
              (winnerId s) (turnLog s) (moveNumber s).
Definition setPool (p : list Tile) (s : GameState) : GameState :=
  mkGameState (players s) (currentTurnPlayerId s) (drawnTile s) p (phase s)
              (winnerId s) (turnLog s) (moveNumber s).
Definition setPhase (ph : GamePhase) (s : GameState) : GameState :=
  mkGameState (players s) (currentTurnPlayerId s) (drawnTile s) (pool s) ph
              (winnerId s) (turnLog s) (moveNumber s).
Definition setWinner (w : option string) (s : GameState) : GameState :=
  mkGameState (players s) (currentTurnPlayerId s) (drawnTile s) (pool s)
              (phase s) w (turnLog s) (moveNumber s).
Definition setTurnLog (l : list string) (s : GameState) : GameState :=
  mkGameState (players s) (currentTurnPlayerId s) (drawnTile s) (pool s)
              (phase s) (winnerId s) l (moveNumber s).

(** ** constants.ts *)

Definition TOTAL_NUMBERS : nat := 12.
Definition JOKER_VALUE : Z := -1.

Definition numberTile (c : TileColor) (prefix : string) (i : nat) : Tile :=
  mkTile (prefix ++ showNat i) c (Z.of_nat i) (inject_Z (Z.of_nat i))
         false None false false.

Definition jokerTile (c : TileColor) (ident : string) : Tile :=
  mkTile ident c JOKER_VALUE (inject_Z 100) false None true false.

Definition createInitialTiles (includeJokers : bool) : list Tile :=
  (flat_map (fun i => [numberTile BLACK "b-" i; numberTile WHITE "w-" i])
            (seq 0 TOTAL_NUMBERS)
   ++ (if includeJokers
       then [jokerTile BLACK "b-joker"; jokerTile WHITE "w-joker"]
       else []))%list.

(** The tolerance of the comparator: the literal [0.001] is the double
    1152921504606847 / 2^60. *)
Definition EPSILON : Q := 1152921504606847 # 1152921504606846976.

(** Half the distance, 2^-62, between [EPSILON] and the doubles next to
    it. *)
Definition HALF_ULP : Q := 1 # 9223372036854775808.

Definition Qgtb (x y : Q) : bool := negb (Qle_bool x y).

(** [Math.abs(x) > 0.001] for the double that a subtraction of doubles
    with the exact difference [x] returns.  The subtraction rounds [x] to
    the nearest double, ties to the even one.  The last bit of [0.001]
    is 0, so every [x] up to [EPSILON + HALF_ULP] in absolute value is
    rounded to a double that is at most [0.001], and every [x] beyond it
    to one above [0.001]. *)
Definition aboveTolerance (x : Q) : bool :=
  Qgtb (Qabs x) (EPSILON + HALF_ULP).

(** The comparator passed to [Array.prototype.sort] by [sortHand].  Only
    the sign of its result is used. *)
Definition compareTiles (a b : Tile) : Q :=
  if aboveTolerance (sortValue a - sortValue b)
  then sortValue a - sortValue b
  else if negb (TileColor_eqb (color a) (color b))
       then match color a with BLACK => (-1)%Q | WHITE => 1%Q end
       else 0%Q.

(** [Array.prototype.sort] is a stable sort (ECMAScript 2019); on a
    comparator that is consistent over the array its result is the one
    stable sorted arrangement, which insertion computes.  The model is
    stable insertion: an element goes before the first element that the
    comparator does not put strictly before it.  Where keys lie within
    the tolerance of each other without being equal the comparator is
    not consistent, and ECMAScript leaves the arrangement to the engine;
    what the properties below ask of a sorted hand is a rearrangement
    in which the comparator accepts every pair of neighbours
    ([notAfter]), not the arrangement of insertion itself. *)
Fixpoint insertTile (x : Tile) (l : list Tile) : list Tile :=
  match l with
  | [] => [x]
  | y :: ys =>
      if Qgtb (compareTiles x y) 0 then y :: insertTile x ys
      else x :: y :: ys
  end.

Fixpoint sortHand (tiles : list Tile) : list Tile :=
  match tiles with
  | [] => []
  | x :: rest => insertTile x (sortHand rest)
  end.

(** ** React state updates *)

(** An argument of [setGameState]: [setGameState(prev => ...)] is the
    function itself, [setGameState(obj)] is [fun _ => obj]. *)
Definition Updater := GameState -> GameState.

(** What a handler does: it returns or throws with a queue of updates, or
    it never leaves a loop. *)
Inductive Run :=
| Returns (queue : list Updater)
| Throws (queue : list Updater)
| Loops.

Inductive Outcome :=
| Ok (s : GameState)
| TypeError (s : GameState)
| Diverges.

Definition commit (queue : list Updater) (s : GameState) : GameState :=
  fold_left (fun acc u => u acc) queue s.

Definition exec (r : Run) (s : GameState) : Outcome :=
  match r with
  | Returns q => Ok (commit q s)
  | Throws q => TypeError (commit q s)
  | Loops => Diverges
  end.

(** Updates queued before a nested call come first. *)
Definition andThen (q : list Updater) (r : Run) : Run :=
  match r with
  | Returns q' => Returns (q ++ q')%list
  | Throws q' => Throws (q ++ q')%list
  | Loops => Loops
  end.

Definition outcomeState (o : Outcome) : option GameState :=
  match o with
  | Ok s | TypeError s => Some s
  | Diverges => None
  end.

(** ** Array helpers *)

Definition hasId (ident : string) (p : Player) : bool :=
  String.eqb (playerId p) ident.

Definition tileHasId (ident : string) (t : Tile) : bool :=
  String.eqb (tileId t) ident.

(** [players.find(p => p.id === id)] *)
Definition findPlayer (ident : string) (ps : list Player) : option Player :=
  find (hasId ident) ps.

(** [arr.findIndex(f)]; [None] stands for [-1]. *)
Fixpoint findIndex {A : Type} (f : A -> bool) (l : list A) : option nat :=
  match l with
  | [] => None
  | x :: xs => if f x then Some O else option_map S (findIndex f xs)
  end.

(** [arr[i]] for an integer [i]; [None] stands for [undefined]. *)
Definition at_ {A : Type} (l : list A) (i : Z) : option A :=
  if i <? 0 then None else nth_error l (Z.to_nat i).

(** [arr[i] = x] for [i] inside the array. *)
Fixpoint replaceNth {A : Type} (n : nat) (x : A) (l : list A) : list A :=
  match l, n with
  | [], _ => []
  | _ :: ys, O => x :: ys
  | y :: ys, S m => y :: replaceNth m x ys
  end.

(** [arr.pop()] on a copy: the last element and the rest. *)
Definition pop {A : Type} (l : list A) : option (A * list A) :=
  match rev l with
  | [] => None
  | x :: r => Some (x, rev r)
  end.

(** [Math.floor(Math.random() * n)] for the random number [u].  The
    engine rounds the product to a double before the floor; for
    [0 <= u < 1] the rounded product is below [n] as well, so the index
    of the engine is the index that this function gives for [u] or for a
    number next to it, and what is proved for every [u] holds of the
    index of the engine. *)
Definition randomIndex (u : Q) (n : nat) : Z :=
  Qfloor (u * inject_Z (Z.of_nat n)).

(** ** Game actions of App.tsx *)

(** [addLog]: newest first, at most 50 entries. *)
Definition addLog (msg : string) : Updater :=
  fun prev => setTurnLog (firstn 50 (msg :: turnLog prev)) prev.

(** The tile taken from the pool gets its owner, and a random sort key
    when it is a joker drawn by an automated player. *)
Definition claimTile (current : string) (ps : list Player) (u : Q)
    (tile : Tile) : Tile :=
  let tile1 := setOwner (Some current) tile in
  match findPlayer current ps with
  | Some cp =>
      if isBot cp && isJoker tile1
      then setSortValue (u * 12) tile1 else tile1
  | None => tile1
  end.

Definition drawTile (u : Q) (gameState : GameState) : Run :=
  if negb (GamePhase_eqb (phase gameState) DRAW) then Returns []
  else
    match pop (pool gameState) with
    | None =>
        Returns [setPhase GUESS; addLog "Pool empty. Proceed to guess."]
    | Some (tile, newPool) =>
        let tile2 :=
          claimTile (currentTurnPlayerId gameState) (players gameState) u
                    tile in
        Returns
          [ (fun prev =>
               setPhase GUESS (setDrawnTile (Some tile2) (setPool newPool prev)));
            addLog ("Player drawn a " ++ showColor (color tile2) ++ " tile.") ]
    end.

(** The guess dialog's state, [guessModal]. *)
Record GuessModal := mkGuessModal {
  targetPlayerId : string;
  targetTileIndex : Z
}.

(** What a click on a tile does: nothing, open the guess dialog, or
    throw on reading [isRevealed] of [undefined]. *)
Inductive Click :=
| Ignored
| Opened (m : GuessModal)
| ClickThrows.

Definition handleTileClick (gameState : GameState)
    (targetPlayerId : string) (tileIndex : Z) : Click :=
  if negb (GamePhase_eqb (phase gameState) GUESS) then Ignored
  else
    match findPlayer targetPlayerId (players gameState) with
    | None => Ignored
    | Some targetPlayer =>
        if isEliminated targetPlayer then Ignored
        else if String.eqb (playerId targetPlayer)
                           (currentTurnPlayerId gameState) then Ignored
        else
          match at_ (hand targetPlayer) tileIndex with
          | None => ClickThrows
          | Some targetTile =>
              if isRevealed targetTile then Ignored
              else Opened (mkGuessModal targetPlayerId tileIndex)
          end
    end.

(** [newHand[i] = { ...newHand[i], isRevealed: true }].  For the player
    that [find] returned the index is inside the hand when this runs. *)
Definition revealAt (i : Z) (h : list Tile) : list Tile :=
  match at_ h i with
  | Some t => replaceNth (Z.to_nat i) (setRevealed true t) h
  | None => h
  end.

Definition revealIn (target : string) (i : Z) (ps : list Player)
  : list Player :=
  map (fun p => if hasId target p then setHand (revealAt i (hand p)) p else p)
      ps.

(** [newPlayers.find(p => p.id === id)!.isEliminated = true]: the first
    player with that id is changed in place. *)
Fixpoint eliminateFirst (target : string) (ps : list Player) : list Player :=
  match ps with
  | [] => []
  | p :: rest =>
      if hasId target p then setEliminated true p :: rest
      else p :: eliminateFirst target rest
  end.

Definition allRevealed (p : Player) : bool := forallb isRevealed (hand p).

(** [updatedTargetPlayer.hand.every(t => t.isRevealed)] on the players
    with the tile revealed. *)
Definition targetAllRevealed (target : string) (revealed : list Player)
  : bool :=
  match findPlayer target revealed with
  | Some updated => allRevealed updated
  | None => false
  end.

(** [newPlayers] after a correct guess at tile [i] of [target]: the tile
    is revealed, and the player is marked eliminated when the whole hand
    is. *)
Definition afterCorrectGuess (target : string) (i : Z) (ps : list Player)
  : list Player :=
  let revealed := revealIn target i ps in
  if targetAllRevealed target revealed
  then eliminateFirst target revealed else revealed.

Definition activePlayers (ps : list Player) : list Player :=
  filter (fun p => negb (isEliminated p)) ps.

Definition checkWinner (ps : list Player) : list Updater :=
  match activePlayers ps with
  | [w] =>
      [ (fun prev => setPhase GAME_OVER (setWinner (Some (playerId w)) prev));
        addLog (name w ++ " WINS!") ]
  | _ => []
  end.

(** The [while (players[idx].isEliminated) idx = (idx + 1) % length] loop
    of [endTurn] and [getNextPlayerId], run for at most [fuel] tests of
    its condition. *)
Inductive LoopResult :=
| Exit (idx : nat)
| Fault
| Spinning.

Fixpoint skipEliminated (fuel : nat) (ps : list Player) (idx : nat)
  : LoopResult :=
  match fuel with
  | O => Spinning
  | S fuel' =>
      match nth_error ps idx with
      | None => Fault
      | Some p =>
          if isEliminated p
          then skipEliminated fuel' ps ((idx + 1) mod List.length ps)%nat
          else Exit idx
      end
  end.

(** [(idx + 1) % length] where [idx] comes from [findIndex]. *)
Definition nextStart (idx : option nat) (len : nat) : nat :=
  match idx with
  | Some i => ((i + 1) mod len)%nat
  | None => O
  end.

(** The loop from its start; one test per player is enough fuel (see
    [skipEliminated_spins]). *)
Definition nextPlayerIdx (ps : list Player) (currentIdx : option nat)
  : LoopResult :=
  match ps with
  | [] => Fault
  | _ => skipEliminated (List.length ps) ps
           (nextStart currentIdx (List.length ps))
  end.

Definition describeTile (t : Tile) : string :=
  if isJoker t then "Joker" else showZ (value t).

(** The drawn tile goes into the hand of the player [current], which is
    sorted again: [players[idx] = { ...player, hand: sortHand([...hand,
    tile]) }].  [None]: the player was not found and the read of its hand
    throws. *)
Definition mergeDrawn (current : string) (tileToInsert : option Tile)
    (ps : list Player) : option (list Player) :=
  match tileToInsert with
  | None => Some ps
  | Some tile =>
      match findIndex (hasId current) ps with
      | Some i =>
          match nth_error ps i with
          | Some cp =>
              Some (replaceNth i
                      (setHand (sortHand (hand cp ++ [tile])%list) cp) ps)
          | None => None
          end
      | None => None
      end
  end.

(** [tileToInsert]: the drawn tile, revealed when the guess failed. *)
Definition tileToInsert (wasSuccess : bool) (gameState : GameState)
  : option Tile :=
  option_map (fun drawn => if wasSuccess then drawn
                           else setRevealed true drawn)
             (drawnTile gameState).

Definition endTurn (wasSuccess : bool) (gameState : GameState) : Run :=
  let currentPlayerIdx :=
    findIndex (hasId (currentTurnPlayerId gameState)) (players gameState) in
  let revealLog :=
    match drawnTile gameState with
    | Some drawn =>
        if wasSuccess then []
        else [addLog ("Revealed drawn tile: " ++ showColor (color drawn)
                      ++ " " ++ describeTile drawn)]
    | None => []
    end in
  match mergeDrawn (currentTurnPlayerId gameState)
                   (tileToInsert wasSuccess gameState)
                   (players gameState) with
  | None => Throws revealLog
  | Some newPlayers =>
      match nextPlayerIdx newPlayers currentPlayerIdx with
      | Fault => Throws revealLog
      | Spinning => Loops
      | Exit nextIdx =>
          match nth_error newPlayers nextIdx with
          | None => Throws revealLog
          | Some next =>
              Returns
                (revealLog ++
                 [fun _ =>
                    mkGameState newPlayers (playerId next) None
                                (pool gameState) DRAW
                                (winnerId gameState)
                                (turnLog gameState)
                                (moveNumber gameState + 1)])%list
          end
      end
  end.

Definition continueTurn (gameState : GameState) : Run :=
  if GamePhase_eqb (phase gameState) RESOLVE
  then Returns [setPhase GUESS] else Returns [].

Definition submitGuess (guessModal : GuessModal) (guessed : Z)
    (gameState : GameState) : Run :=
  let target := targetPlayerId guessModal in
  let idx := targetTileIndex guessModal in
  match findPlayer target (players gameState) with
  | None => Returns []
  | Some targetPlayer =>
      match at_ (hand targetPlayer) idx with
      | None => Throws []
      | Some targetTile =>
          if value targetTile =? guessed then
            let newPlayers :=
              afterCorrectGuess target idx (players gameState) in
            let eliminated :=
              targetAllRevealed target
                (revealIn target idx (players gameState)) in
            Returns
              ((if eliminated
                then [addLog (name targetPlayer ++ " is eliminated!")]
                else [])
               ++ [ (fun prev => setPhase RESOLVE (setPlayers newPlayers prev));
                    addLog ("Correct! It was "
                            ++ (if isJoker targetTile then "a Joker"
                                else showZ (value targetTile))
                            ++ ".") ]
               ++ checkWinner newPlayers)%list
          else andThen [addLog "Wrong guess!"] (endTurn false gameState)
      end
  end.

(** [getNextPlayerId]: the id found by the same loop. *)
Inductive NextId :=
| NextIs (ident : string)
| NextFault
| NextSpinning.

Definition getNextPlayerId (ps : list Player) (currentId : string) : NextId :=
  match nextPlayerIdx ps (findIndex (hasId currentId) ps) with
  | Exit idx =>
      match nth_error ps idx with
      | Some p => NextIs (playerId p)
      | None => NextFault
      end
  | Fault => NextFault
  | Spinning => NextSpinning
  end.

(** [hand.map((t, i) => ({t, i}))] *)
Definition indexed {A : Type} (l : list A) : list (A * Z) :=
  combine l (map Z.of_nat (seq 0 (List.length l))).

Definition possibleValues (includeJokers : bool) : list Z :=
  (map Z.of_nat (seq 0 TOTAL_NUMBERS)
   ++ (if includeJokers then [JOKER_VALUE] else []))%list.

(** [handleDrop]: the new sort key of a joker dropped on the tile
    [targetTileId] of the hand.  The indices read here come from
    [findIndex] and lie inside the hand. *)
Definition sortValueAt (h : list Tile) (i : nat) : Q :=
  match nth_error h i with
  | Some t => sortValue t
  | None => 0%Q
  end.

Definition idAt (h : list Tile) (i : nat) : option string :=
  option_map tileId (nth_error h i).

Definition dropSortValue (h : list Tile) (draggedId targetTileId : string)
  : Q :=
  match findIndex (tileHasId targetTileId) h with
  | Some targetIndex =>
      match targetIndex with
      | O => (sortValueAt h targetIndex - 1)%Q
      | S prev =>
          let prevIsDragged :=
            match idAt h prev with
            | Some i => String.eqb i draggedId
            | None => false
            end in
          if prevIsDragged && (1 <? targetIndex)%nat
          then ((sortValueAt h (targetIndex - 2) + sortValueAt h targetIndex)
                / 2)%Q
          else if prevIsDragged
          then (sortValueAt h targetIndex - (1 # 2))%Q
          else ((sortValueAt h prev + sortValueAt h targetIndex) / 2)%Q
      end
  | None =>
      match pop h with
      | Some (lastTile, _) => (sortValue lastTile + 1)%Q
      | None => 0%Q
      end
  end.

(** [hand.map(t => t.id === draggedId ? { ...t, sortValue, isPlaced:
    true } : t)] *)
Definition placeInHand (draggedId : string) (q : Q) (h : list Tile)
  : list Tile :=
  map (fun t => if tileHasId draggedId t then placeAt q t else t) h.

(** [players.map(p => p.id === id ? { ...p, hand } : p)] *)
Definition setHandOf (ident : string) (h : list Tile) (ps : list Player)
  : list Player :=
  map (fun p => if hasId ident p then setHand h p else p) ps.

Definition handleDrop (draggedId targetTileId : string)
    (gameState : GameState) : Run :=
  if String.eqb draggedId targetTileId then Returns []
  else
    match findPlayer (currentTurnPlayerId gameState) (players gameState) with
    | None => Returns []
    | Some currentPlayer =>
        let h := hand currentPlayer in
        let draggedTile := find (tileHasId draggedId) h in
        let isDrawnTile :=
          match drawnTile gameState with
          | Some d => tileHasId draggedId d
          | None => false
          end in
        let draggedObj :=
          if isDrawnTile then drawnTile gameState else draggedTile in
        match draggedObj with
        | None => Returns []
        | Some obj =>
            if negb (isJoker obj) || isPlaced obj then Returns []
            else
              let newSortValue := dropSortValue h draggedId targetTileId in
              if isDrawnTile then
                Returns
                  [fun prev =>
                     setDrawnTile
                       (option_map (placeAt newSortValue) (drawnTile prev))
                       prev]
              else
                let newHand := placeInHand draggedId newSortValue h in
                Returns
                  [fun prev =>
                     setPlayers
                       (setHandOf (playerId currentPlayer) (sortHand newHand)
                                  (players prev))
                       prev]
        end
    end.

(** [executeBotMove].  [u1] is the random number of [drawTile], [u2],
    [u3] and [u4] pick the target, the tile and the value.  The update
    that passes the turn is queued before the bot's hand is written, and
    applied after: it sees the merged hand. *)
Definition executeBotMove (includeJokers : bool) (u1 u2 u3 u4 : Q)
    (gameState : GameState) : Run :=
  let current := currentTurnPlayerId gameState in
  match phase gameState with
  | DRAW => drawTile u1 gameState
  | GUESS =>
      let opponents :=
        filter (fun p => negb (hasId current p) && negb (isEliminated p))
               (players gameState) in
      match opponents with
      | [] => Returns []
      | _ =>
          match at_ opponents (randomIndex u2 (List.length opponents)) with
          | None => Throws []
          | Some target =>
              let hiddenTiles :=
                filter (fun it => negb (isRevealed (fst it)))
                       (indexed (hand target)) in
              match hiddenTiles with
              | [] => Returns []
              | _ =>
                  match at_ hiddenTiles
                            (randomIndex u3 (List.length hiddenTiles)) with
                  | None => Throws []
                  | Some (targetTile, i) =>
                      let values := possibleValues includeJokers in
                      let isCorrect :=
                        match at_ values
                                  (randomIndex u4 (List.length values)) with
                        | Some guessVal => value targetTile =? guessVal
                        | None => false
                        end in
                      if isCorrect then
                        let newPlayers :=
                          afterCorrectGuess (playerId target) i
                                            (players gameState) in
                        let merged :=
                          mergeDrawn current (drawnTile gameState)
                                     newPlayers in
                        let finalPlayers :=
                          match merged with
                          | Some m => m
                          | None => newPlayers
                          end in
                        match getNextPlayerId finalPlayers current with
                        | NextSpinning => Loops
                        | NextFault => Throws [addLog "Bot guessed correctly!"]
                        | NextIs nextId =>
                            let passTurn : Updater := fun prev =>
                              setDrawnTile None
                                (setCurrent nextId
                                   (setPhase DRAW
                                      (setPlayers finalPlayers prev))) in
                            match merged with
                            | None =>
                                Throws [addLog "Bot guessed correctly!";
                                        passTurn]
                            | Some _ =>
                                Returns
                                  ([addLog "Bot guessed correctly!"; passTurn]
                                   ++ checkWinner finalPlayers)%list
                            end
                        end
                      else
                        andThen [addLog "Bot guessed wrong."]
                                (endTurn false gameState)
                  end
              end
          end
      end
  | RESOLVE => endTurn true gameState
  | _ => Returns []
  end.

Definition handleTimeOut (u : Q) (gameState : GameState) : Run :=
  match drawnTile gameState with
  | Some _ =>
      andThen [addLog "Time ran out! Drawn tile revealed."]
              (endTurn false gameState)
  | None => drawTile u gameState
  end.

(** ** startGame *)

Definition playerIdOf (i : nat) : string := "p-" ++ showNat i.

(** The loop of [startGame] from player [i], [n] players to go.  [rnd]
    gives the random number drawn for a joker of an automated player.
    [None]: [playerDetails[i]] is [undefined]. *)
Fixpoint dealPlayers (n i : nat) (details : list PlayerSetupConfig)
    (tilesPerPlayer : nat) (pool : list Tile) (rnd : string -> Q)
  : option (list Player * list Tile) :=
  match n with
  | O => Some ([], pool)
  | S n' =>
      match nth_error details i with
      | None => None
      | Some d =>
          let dealt :=
            map (setOwner (Some (playerIdOf i))) (firstn tilesPerPlayer pool) in
          let h :=
            if cfgIsBot d
            then map (fun t => if isJoker t
                               then setSortValue (rnd (tileId t) * 12) t
                               else t) dealt
            else dealt in
          let p := mkPlayer (playerIdOf i) (cfgName d) (cfgIsBot d)
                            (sortHand h) false (cfgAvatar d) in
          match dealPlayers n' (S i) details tilesPerPlayer
                            (skipn tilesPerPlayer pool) rnd with
          | Some (ps, rest) => Some (p :: ps, rest)
          | None => None
          end
      end
  end.

(** [startGame] on the deck as [shuffle] returned it. *)
Definition startGame (newConfig : GameConfig) (shuffledTiles : list Tile)
    (rnd : string -> Q) : option GameState :=
  let tilesPerPlayer := if (playerCount newConfig =? 4)%nat then 3%nat else 4%nat in
  match dealPlayers (playerCount newConfig) 0 (playerDetails newConfig)
                    tilesPerPlayer shuffledTiles rnd with
  | Some (first :: others, rest) =>
      Some (mkGameState (first :: others) (playerId first) None rest DRAW
                        None ["Game Started!"] 1)
  | _ => None
  end.

(** ** Commands of the host *)

(** A guess is a click on a tile of an opponent and, when the dialog
    opens, the choice of a value in it. *)
Definition guess (target : string) (tileIndex : Z) (guessed : Z)
    (gameState : GameState) : Run :=
  match handleTileClick gameState target tileIndex with
  | Ignored => Returns []
  | ClickThrows => Throws []
  | Opened m => submitGuess m guessed gameState
  end.

Inductive Command :=
| CmdDraw (u : Q)
| CmdGuess (target : string) (tileIndex : Z) (guessed : Z)
| CmdContinue
| CmdEndTurn (wasSuccess : bool)
| CmdReposition (draggedId targetTileId : string)
| CmdBot (includeJokers : bool) (u1 u2 u3 u4 : Q)
| CmdTimeOut (u : Q).

Definition dispatch (c : Command) (gameState : GameState) : Run :=
  match c with
  | CmdDraw u => drawTile u gameState
  | CmdGuess target i v => guess target i v gameState
  | CmdContinue => continueTurn gameState
  | CmdEndTurn b => endTurn b gameState
  | CmdReposition d t => handleDrop d t gameState
  | CmdBot j u1 u2 u3 u4 => executeBotMove j u1 u2 u3 u4 gameState
  | CmdTimeOut u => handleTimeOut u gameState
  end.

Definition step (c : Command) (s : GameState) : Outcome :=
  exec (dispatch c s) s.

(** A run of commands; it stops where a command never returns. *)
Fixpoint run (cs : list Command) (s : GameState) : option GameState :=
  match cs with
  | [] => Some s
  | c :: rest =>
      match outcomeState (step c s) with
      | Some s' => run rest s'
      | None => None
      end
  end.

(** The setup form offers two to four players and fills one detail per
    player. *)
Definition validConfig (cfg : GameConfig) : Prop :=
  (2 <= playerCount cfg <= 4)%nat /\
  List.length (playerDetails cfg) = playerCount cfg.

Inductive reachable : GameState -> Prop :=
| reach_start cfg shuffled rnd s :
    validConfig cfg ->
    Permutation shuffled (createInitialTiles (includeJokers cfg)) ->
    startGame cfg shuffled rnd = Some s ->
    reachable s
| reach_step c s s' :
    reachable s ->
    outcomeState (step c s) = Some s' ->
    reachable s'.

(** ** The guess dialog *)

(** [guessModal] is state of [App] beside [gameState].  A click on a
    tile opens the dialog ([handleTileClick]), the choice of a value
    ([submitGuess]) or Cancel closes it, and nothing else writes it:
    not [endTurn], not [drawTile], not [executeBotMove], not
    [startGame].  So the dialog can stay open while the timer runs out,
    while an automated player moves, when the game is over and when a
    new game starts, and [submitGuess] reads the [gameState] of the
    moment of the choice. *)
Record App := mkApp {
  appGame : GameState;
  appModal : option GuessModal
}.

(** What happens to the component: the buttons and tiles the player can
    press, the two timers, and [endTurn] with either argument. *)
Inductive Event :=
| DrawButton (u : Q)
| TileClick (targetPlayerId : string) (tileIndex : Z)
| ValueButton (value : Z)
| CancelButton
| AgainButton
| EndTurn (wasSuccess : bool)
| Drop (draggedId targetTileId : string)
| BotTimer (includeJokers : bool) (u1 u2 u3 u4 : Q)
| TimeOut (u : Q).

(** The handler that the event runs, on the state of the moment. *)
Definition appRun (e : Event) (a : App) : Run :=
  let gameState := appGame a in
  match e with
  | DrawButton u => drawTile u gameState
  | TileClick targetPlayerId tileIndex =>
      match handleTileClick gameState targetPlayerId tileIndex with
      | ClickThrows => Throws []
      | _ => Returns []
      end
  | ValueButton guessed =>
      match appModal a with
      | None => Returns []
      | Some guessModal => submitGuess guessModal guessed gameState
      end
  | CancelButton => Returns []
  | AgainButton => continueTurn gameState
  | EndTurn wasSuccess => endTurn wasSuccess gameState
  | Drop draggedId targetTileId => handleDrop draggedId targetTileId gameState
  | BotTimer j u1 u2 u3 u4 => executeBotMove j u1 u2 u3 u4 gameState
  | TimeOut u => handleTimeOut u gameState
  end.

(** The dialog after the event: [setGuessModal] is called by
    [handleTileClick] when it accepts the click, by [submitGuess] before
    it looks at the game, and by Cancel. *)
Definition modalAfter (e : Event) (a : App) : option GuessModal :=
  match e with
  | TileClick targetPlayerId tileIndex =>
      match handleTileClick (appGame a) targetPlayerId tileIndex with
      | Opened m => Some m
      | _ => appModal a
      end
  | ValueButton _ => None
  | CancelButton => None
  | _ => appModal a
  end.

Definition appOutcome (e : Event) (a : App) : Outcome :=
  exec (appRun e a) (appGame a).

(** The component after the event; [None] when the handler never
    returns. *)
Definition appStep (e : Event) (a : App) : option App :=
  match outcomeState (appOutcome e a) with
  | Some s' => Some (mkApp s' (modalAfter e a))
  | None => None
  end.

Fixpoint appRunAll (es : list Event) (a : App) : option App :=
  match es with
  | [] => Some a
  | e :: rest =>
      match appStep e a with
      | Some a' => appRunAll rest a'
      | None => None
      end
  end.

(** The states of the component in play: a first game starts with the
    dialog closed; an event takes a state to the next; and a new game
    can be started at any time, with the dialog as it is. *)
Inductive played : App -> Prop :=
| played_first cfg shuffled rnd s :
    validConfig cfg ->
    Permutation shuffled (createInitialTiles (includeJokers cfg)) ->
    startGame cfg shuffled rnd = Some s ->
    played (mkApp s None)
| played_event e a a' :
    played a ->
    appStep e a = Some a' ->
    played a'
| played_again cfg shuffled rnd a s :
    played a ->
    validConfig cfg ->
    Permutation shuffled (createInitialTiles (includeJokers cfg)) ->
    startGame cfg shuffled rnd = Some s ->
    played (mkApp s (appModal a)).

(** * Notions used by the properties *)

(** ** Hand ordering *)

(** The comparator does not put [b] strictly before [a]. *)
Definition notAfter (a b : Tile) : Prop := Qgtb (compareTiles a b) 0 = false.

(** [a] directly precedes [b] in [l]. *)
Definition adjacent (a b : Tile) (l : list Tile) : Prop :=
  exists l1 l2, l = (l1 ++ a :: b :: l2)%list.

(** The comparator takes the keys of [a] and [b] as tied: their
    difference, as the subtraction of doubles returns it, is at most
    [0.001]. *)
Definition withinEpsilon (a b : Tile) : Prop :=
  (Qabs (sortValue a - sortValue b) <= EPSILON + HALF_ULP)%Q.

(** A white tile at 0 and a black tile at 1/2048. *)
Definition whiteAtZero : Tile :=
  mkTile "w-0" WHITE 0 0 false None false false.
Definition blackJokerNearZero : Tile :=
  mkTile "b-joker" BLACK JOKER_VALUE (1 # 2048) false None true false.

(** Two black tiles at 25/16384 and 15/16384: the first is more than the
    tolerance above 0, the second is not, and they are tied with each
    other. *)
Definition blackAbove : Tile :=
  mkTile "b-0" BLACK 0 (25 # 16384) false None false false.
Definition blackJokerWithin : Tile :=
  mkTile "b-joker" BLACK JOKER_VALUE (15 # 16384) false None true false.

(** ** The next-player loop *)

(** [players[i].isEliminated], [true] outside the list. *)
Definition eliminatedAt (ps : list Player) (i : nat) : bool :=
  match nth_error ps i with
  | Some p => isEliminated p
  | None => true
  end.

(** [k] is the number of seats skipped from [start]: the seat reached is
    the first one whose player is not eliminated. *)
Definition firstActiveFrom (ps : list Player) (start k : nat) : Prop :=
  eliminatedAt ps ((start + k) mod List.length ps)%nat = false /\
  forall j, (j < k)%nat ->
    eliminatedAt ps ((start + j) mod List.length ps)%nat = true.

Definition threeSeats : list Player :=
  [ mkPlayer "p-0" "A" false [] false "a";
    mkPlayer "p-1" "B" false [] true "b";
    mkPlayer "p-2" "C" true [] false "c" ].

(** ** Example games *)

(** Two human players, no jokers, the deck in the order of the factory:
    [p-0] holds b-0 w-0 b-1 w-1, [p-1] holds b-2 w-2 b-3 w-3 and the pool
    ends with w-11. *)
Definition twoHumans : GameConfig :=
  mkGameConfig 2 60 0
    [mkPlayerSetupConfig "A" "a" false; mkPlayerSetupConfig "B" "b" false]
    false.

(** A human and a bot. *)
Definition humanAndBot : GameConfig :=
  mkGameConfig 2 60 1
    [mkPlayerSetupConfig "A" "a" false; mkPlayerSetupConfig "Bot 1" "b" true]
    false.

Definition noRandom : string -> Q := fun _ => 0%Q.

Definition emptyGame : GameState :=
  mkGameState [] EmptyString None [] SETUP None [] 0.

(** Defaults for reading a list at an index. *)
Definition nobody : Player :=
  mkPlayer EmptyString EmptyString false [] false EmptyString.

Definition blankTile : Tile :=
  mkTile EmptyString BLACK 0 0 false None false false.

(** The state after the commands [cs] of a game started with [cfg] on the
    unshuffled deck. *)
Definition playedWith (cfg : GameConfig) (cs : list Command) : GameState :=
  match startGame cfg (createInitialTiles (includeJokers cfg)) noRandom with
  | Some s0 =>
      match run cs s0 with
      | Some s => s
      | None => emptyGame
      end
  | None => emptyGame
  end.

(** [p-0] has drawn w-11 and is to guess. *)
Definition firstGuess : GameState :=
  Eval vm_compute in playedWith twoHumans [CmdDraw 0].

(** [p-0] has guessed three tiles of [p-1] and goes on guessing. *)
Definition lastTileHidden : GameState :=
  Eval vm_compute in
    playedWith twoHumans
      [CmdDraw 0; CmdGuess "p-1" 0 2; CmdContinue; CmdGuess "p-1" 1 2;
       CmdContinue; CmdGuess "p-1" 2 3; CmdContinue].

(** [p-0] has guessed all four tiles of [p-1] and has won. *)
Definition wonGame : GameState :=
  Eval vm_compute in
    playedWith twoHumans
      [CmdDraw 0; CmdGuess "p-1" 0 2; CmdContinue; CmdGuess "p-1" 1 2;
       CmdContinue; CmdGuess "p-1" 2 3; CmdContinue; CmdGuess "p-1" 3 3].

(** The human has guessed wrong; the bot has drawn and is to guess. *)
Definition botToGuess : GameState :=
  Eval vm_compute in
    playedWith humanAndBot
      [CmdDraw 0; CmdGuess "p-1" 0 5; CmdBot false 0 0 0 0].

(** A draw and a wrong guess at the first tile of [target]. *)
Definition wrongTurn (target : string) : list Command :=
  [CmdDraw 0; CmdGuess target 0 11].

(** Sixteen such turns: the pool is empty and [p-0] is to draw. *)
Definition poolEmptied : GameState :=
  Eval vm_compute in
    playedWith twoHumans
      (List.concat (repeat (wrongTurn "p-1" ++ wrongTurn "p-0")%list 8)).

(** ** Queues of log entries *)

(** Every field but the log is the same. *)
Definition sameButLog (s s' : GameState) : Prop :=
  players s' = players s /\
  currentTurnPlayerId s' = currentTurnPlayerId s /\
  drawnTile s' = drawnTile s /\
  pool s' = pool s /\
  phase s' = phase s /\
  winnerId s' = winnerId s /\
  moveNumber s' = moveNumber s.

Definition logsOnly (q : list Updater) : Prop :=
  Forall (fun u => exists msg, u = addLog msg) q.

(** ** Players with distinct ids *)

(** The target of a correct guess after the guess: the tile at the index
    is revealed and the player is eliminated when no tile of the hand is
    hidden any more. *)
Definition guessedTarget (tp : Player) (i : Z) (t : Tile) : Player :=
  let h := replaceNth (Z.to_nat i) (setRevealed true t) (hand tp) in
  mkPlayer (playerId tp) (name tp) (isBot tp) h (forallb isRevealed h)
           (avatar tp).

(** ** What a command does to the state *)

(** The verdict of [checkWinner] on the players [ps]: the game is over
    when one player is left, otherwise the phase is [quiet] and the
    winner is as before. *)
Definition winnerCheck (ps : list Player) (quiet : GamePhase)
    (s s' : GameState) : Prop :=
  match activePlayers ps with
  | [w] => phase s' = GAME_OVER /\ winnerId s' = Some (playerId w)
  | _ => phase s' = quiet /\ winnerId s' = winnerId s
  end.

(** Tile [i] of the player [target] may be guessed: the player [tp] is
    in the game, is not the acting player, and the tile [t] is hidden. *)
Definition validTarget (s : GameState) (target : string) (i : Z)
    (tp : Player) (t : Tile) : Prop :=
  findPlayer target (players s) = Some tp /\
  isEliminated tp = false /\
  target <> currentTurnPlayerId s /\
  at_ (hand tp) i = Some t /\
  isRevealed t = false.

Inductive Transition (c : Command) (s s' : GameState) : Prop :=
| T_none :
    sameButLog s s' -> Transition c s s'
| T_lost :
    findPlayer (currentTurnPlayerId s) (players s) = None ->
    Transition c s s'
| T_toGuess :
    (phase s = DRAW /\ pool s = [] \/ phase s = RESOLVE) ->
    phase s' = GUESS ->
    players s' = players s ->
    currentTurnPlayerId s' = currentTurnPlayerId s ->
    drawnTile s' = drawnTile s ->
    pool s' = pool s ->
    winnerId s' = winnerId s ->
    moveNumber s' = moveNumber s ->
    Transition c s s'
| T_draw u tile :
    phase s = DRAW ->
    pool s = (pool s' ++ [tile])%list ->
    drawnTile s'
      = Some (claimTile (currentTurnPlayerId s) (players s) u tile) ->
    phase s' = GUESS ->
    players s' = players s ->
    currentTurnPlayerId s' = currentTurnPlayerId s ->
    winnerId s' = winnerId s ->
    moveNumber s' = moveNumber s ->
    Transition c s s'
| T_guess target i tp t :
    c = CmdGuess target i (value t) ->
    phase s = GUESS ->
    validTarget s target i tp t ->
    players s' = afterCorrectGuess target i (players s) ->
    winnerCheck (players s') RESOLVE s s' ->
    currentTurnPlayerId s' = currentTurnPlayerId s ->
    drawnTile s' = drawnTile s ->
    pool s' = pool s ->
    moveNumber s' = moveNumber s ->
    Transition c s s'
| T_botGuess target i tp t next :
    phase s = GUESS ->
    validTarget s target i tp t ->
    mergeDrawn (currentTurnPlayerId s) (drawnTile s)
               (afterCorrectGuess target i (players s))
      = Some (players s') ->
    winnerCheck (players s') DRAW s s' ->
    In next (players s') ->
    isEliminated next = false ->
    currentTurnPlayerId s' = playerId next ->
    drawnTile s' = None ->
    pool s' = pool s ->
    moveNumber s' = moveNumber s ->
    Transition c s s'
| T_endTurn wasSuccess next :
    mergeDrawn (currentTurnPlayerId s) (tileToInsert wasSuccess s)
               (players s)
      = Some (players s') ->
    In next (players s') ->
    isEliminated next = false ->
    currentTurnPlayerId s' = playerId next ->
    drawnTile s' = None ->
    phase s' = DRAW ->
    pool s' = pool s ->
    winnerId s' = winnerId s ->
    moveNumber s' = moveNumber s + 1 ->
    Transition c s s'
| T_placeDrawn dragged targetTileId d cp :
    c = CmdReposition dragged targetTileId ->
    drawnTile s = Some d ->
    tileHasId dragged d = true ->
    isJoker d = true ->
    isPlaced d = false ->
    findPlayer (currentTurnPlayerId s) (players s) = Some cp ->
    drawnTile s'
      = Some (placeAt (dropSortValue (hand cp) dragged targetTileId) d) ->
    players s' = players s ->
    currentTurnPlayerId s' = currentTurnPlayerId s ->
    pool s' = pool s ->
    phase s' = phase s ->
    winnerId s' = winnerId s ->
    moveNumber s' = moveNumber s ->
    Transition c s s'
| T_placeInHand dragged targetTileId obj cp :
    c = CmdReposition dragged targetTileId ->
    findPlayer (currentTurnPlayerId s) (players s) = Some cp ->
    find (tileHasId dragged) (hand cp) = Some obj ->
    isJoker obj = true ->
    isPlaced obj = false ->
    players s'
      = setHandOf (playerId cp)
          (sortHand (placeInHand dragged
                       (dropSortValue (hand cp) dragged targetTileId)
                       (hand cp)))
          (players s) ->
    drawnTile s' = drawnTile s ->
    currentTurnPlayerId s' = currentTurnPlayerId s ->
    pool s' = pool s ->
    phase s' = phase s ->
    winnerId s' = winnerId s ->
    moveNumber s' = moveNumber s ->
    Transition c s s'.

(** ** Seats: who sits where and who is out *)

Definition seats (ps : list Player) : list (string * bool) :=
  map (fun p => (playerId p, isEliminated p)) ps.

Definition activeIds (ps : list Player) : list string :=
  map playerId (activePlayers ps).

(** ** Invariants of the players *)

(** The winner is set exactly when one player is left, and is that
    player; before that at least two players are left. *)
Definition winnerAgrees (s : GameState) : Prop :=
  match winnerId s with
  | Some w => activeIds (players s) = [w]
  | None => (2 <= List.length (activeIds (players s)))%nat
  end.

Definition playersInv (s : GameState) : Prop :=
  NoDup (map playerId (players s)) /\
  In (currentTurnPlayerId s, false) (seats (players s)) /\
  (forall p, In p (players s) ->
     allRevealed p = true -> isEliminated p = true) /\
  winnerAgrees s /\
  (phase s = DRAW -> drawnTile s = None).

(** ** The start of a game *)

(** Every tile of the game: the hands, the drawn tile, the pool. *)
Definition allTiles (s : GameState) : list Tile :=
  (List.concat (map hand (players s))
   ++ match drawnTile s with Some d => [d] | None => [] end
   ++ pool s)%list.

(** A tile as the factory makes it, up to the owner and the sort key of
    a joker. *)
Definition freshTile (t : Tile) : Prop :=
  isRevealed t = false /\
  isPlaced t = false /\
  (isJoker t = false -> sortValue t = inject_Z (value t)).

(** ** Reachable states *)

(** The player that lost [wonGame]. *)
Definition loser : Player :=
  Eval vm_compute in
    nth 1 (players wonGame) nobody.

(** ** Correct guesses *)

(** The tile that [p-0] holds drawn in [firstGuess], and [p-0]. *)
Definition drawnW11 : Tile :=
  Eval vm_compute in
    match drawnTile firstGuess with Some d => d | None => blankTile end.

Definition firstPlayer : Player :=
  Eval vm_compute in nth 0 (players firstGuess) nobody.

(** ** Tiles *)

Definition slot (d : option Tile) : list Tile :=
  match d with Some t => [t] | None => [] end.

Definition handIds (ps : list Player) : list string :=
  map tileId (List.concat (map hand ps)).

Definition tileIds (s : GameState) : list string := map tileId (allTiles s).

(** *** How a command changes a tile *)

(** The same tile: id, colour, value and kind. *)
Definition sameTile (t t' : Tile) : Prop :=
  tileId t' = tileId t /\ color t' = color t /\
  value t' = value t /\ isJoker t' = isJoker t.

Definition keyKept (t t' : Tile) : Prop :=
  sortValue t' = sortValue t /\ isPlaced t' = isPlaced t.

(** A joker taken from the pool by an automated player: the engine
    gives it a sort key, the flag stays as it is. *)
Definition autoPlaced (s : GameState) (t t' : Tile) : Prop :=
  In t (pool s) /\ isJoker t = true /\ isPlaced t' = isPlaced t /\
  exists cp, findPlayer (currentTurnPlayerId s) (players s) = Some cp /\
             isBot cp = true.

(** An accepted reposition command on the joker [t]. *)
Definition explicitlyPlaced (c : Command) (t t' : Tile) : Prop :=
  (exists target, c = CmdReposition (tileId t) target) /\
  isJoker t = true /\ isPlaced t = false /\ isPlaced t' = true.

Definition tileStep (c : Command) (s : GameState) (t t' : Tile) : Prop :=
  sameTile t t' /\
  (keyKept t t' \/ autoPlaced s t t' \/ explicitlyPlaced c t t').

(** ** Invariants of the tiles *)

Definition tilesInv (s : GameState) : Prop :=
  (forall t, In t (allTiles s) ->
     isJoker t = false -> sortValue t = inject_Z (value t)) /\
  (forall t, In t (pool s) -> isPlaced t = false) /\
  NoDup (tileIds s).

(** A human and a bot with jokers in the deck: the human has drawn the
    white joker and guessed wrong, the bot is to draw and the black
    joker is the next tile of the pool. *)
Definition humanAndBotJokers : GameConfig :=
  mkGameConfig 2 60 1
    [mkPlayerSetupConfig "A" "a" false; mkPlayerSetupConfig "Bot 1" "b" true]
    true.

Definition botToDraw : GameState :=
  Eval vm_compute in
    playedWith humanAndBotJokers [CmdDraw 0; CmdGuess "p-1" 0 5].

(** The human holds the white joker drawn. *)
Definition jokerDrawn : GameState :=
  Eval vm_compute in playedWith humanAndBotJokers [CmdDraw 0].

(** ** More on the deck and the hand ordering *)

(** The number of tiles of a list that pass a test. *)
Definition countTiles (f : Tile -> bool) (l : list Tile) : nat :=
  List.length (filter f l).

Definition isNumberTile (c : TileColor) (v : Z) (t : Tile) : bool :=
  TileColor_eqb (color t) c && (value t =? v) && negb (isJoker t).

Definition isJokerOf (c : TileColor) (t : Tile) : bool :=
  TileColor_eqb (color t) c && isJoker t.

(** Two sort keys that the comparator cannot confuse: equal, or further
    apart than the tolerance. *)
Definition separatedKeys (a b : Tile) : Prop :=
  (sortValue a == sortValue b)%Q \/
  (EPSILON + HALF_ULP < Qabs (sortValue a - sortValue b))%Q.

Definition separated (l : list Tile) : Prop :=
  forall a b, In a l -> In b l -> separatedKeys a b.

(** A small hand out of order: w-1, b-1, b-0. *)
Definition smallHand : list Tile :=
  [numberTile WHITE "w-" 1; numberTile BLACK "b-" 1; numberTile BLACK "b-" 0].

(** ** shuffle *)

(** [[a[i], a[j]] = [a[j], a[i]]] for indices inside the array. *)
Definition swap {A : Type} (i : nat) (j : Z) (l : list A) : option (list A) :=
  match nth_error l i, at_ l j with
  | Some x, Some y => Some (replaceNth (Z.to_nat j) x (replaceNth i y l))
  | _, _ => None
  end.

(** The loop of [shuffle] from index [i] down to 1; [rnd i] is the random
    number drawn at index [i].  [None]: a swap index outside the array,
    which a random number in [0, 1) never gives. *)
Fixpoint shuffleFrom {A : Type} (i : nat) (rnd : nat -> Q) (l : list A)
  : option (list A) :=
  match i with
  | O => Some l
  | S i' =>
      match swap i (randomIndex (rnd i) (i + 1)) l with
      | Some l' => shuffleFrom i' rnd l'
      | None => None
      end
  end.

Definition shuffle {A : Type} (rnd : nat -> Q) (array : list A)
  : option (list A) :=
  shuffleFrom (List.length array - 1) rnd array.

(** [tilesPerPlayer] of [startGame]. *)
Definition tilesPerPlayer (cfg : GameConfig) : nat :=
  if (playerCount cfg =? 4)%nat then 3%nat else 4%nat.

(** A source of random numbers that always gives 0. *)
Definition alwaysZero : nat -> Q := fun _ => 0%Q.

(** What [startGame] makes of seat [i]: the player [p] of the details
    [d], dealt the tiles [i * n .. (i + 1) * n - 1] of the deck. *)
Definition dealtSeat (details : list PlayerSetupConfig) (n : nat)
    (deck : list Tile) (i : nat) (p : Player) : Prop :=
  playerId p = playerIdOf i /\
  isEliminated p = false /\
  (exists d, nth_error details i = Some d /\ name p = cfgName d /\
             isBot p = cfgIsBot d /\ avatar p = cfgAvatar d) /\
  Permutation (map tileId (hand p))
              (map tileId (firstn n (skipn (i * n) deck))) /\
  Forall (fun t => ownerId t = Some (playerIdOf i)) (hand p) /\
  Sorted notAfter (hand p).

(** The two-player game as [startGame] leaves it. *)
Definition freshGame : GameState :=
  Eval vm_compute in playedWith twoHumans [].

(** ** How a command changes a player *)

(** The same person in the same seat. *)
Definition samePerson (p p' : Player) : Prop :=
  playerId p' = playerId p /\ name p' = name p /\
  isBot p' = isBot p /\ avatar p' = avatar p.

(** What a command can make of the hand of [p]: nothing; one hidden tile
    of an opponent revealed; the drawn tile, as it is or revealed, merged
    into the acting player's sorted hand; a joker of the acting player
    placed and the hand sorted. *)
Inductive handStep (s : GameState) (p : Player) (h' : list Tile) : Prop :=
| hs_same :
    h' = hand p -> handStep s p h'
| hs_reveal i t :
    at_ (hand p) i = Some t ->
    isRevealed t = false ->
    isEliminated p = false ->
    playerId p <> currentTurnPlayerId s ->
    h' = replaceNth (Z.to_nat i) (setRevealed true t) (hand p) ->
    handStep s p h'
| hs_merge d t :
    drawnTile s = Some d ->
    t = d \/ t = setRevealed true d ->
    playerId p = currentTurnPlayerId s ->
    h' = sortHand (hand p ++ [t])%list ->
    handStep s p h'
| hs_place dragged q obj :
    playerId p = currentTurnPlayerId s ->
    find (tileHasId dragged) (hand p) = Some obj ->
    isJoker obj = true ->
    isPlaced obj = false ->
    h' = sortHand (placeInHand dragged q (hand p)) ->
    handStep s p h'.

(** The flag of [p'] is that of [p], or newly set on a hand that is
    revealed entirely. *)
Definition flagStep (p p' : Player) : Prop :=
  isEliminated p' = isEliminated p \/
  (isEliminated p = false /\ isEliminated p' = true /\
   allRevealed p' = true).

Definition playerStep (s : GameState) (p p' : Player) : Prop :=
  samePerson p p' /\ handStep s p (hand p') /\ flagStep p p'.

(** What the comparator looks at. *)
Definition sortKey (t : Tile) : Q * TileColor := (sortValue t, color t).

(** A tile of a hand as a later hand has it: the same tile of the same
    owner, still revealed if it was, still placed if it was. *)
Definition tileKept (t t' : Tile) : Prop :=
  sameTile t t' /\ ownerId t' = ownerId t /\
  (isRevealed t = true -> isRevealed t' = true) /\
  (isPlaced t = true -> isPlaced t' = true).

(** Every tile has its holder as owner, and the tiles of the pool have
    none. *)
Definition tilesOwned (s : GameState) : Prop :=
  (forall p t, In p (players s) -> In t (hand p) ->
     ownerId t = Some (playerId p)) /\
  (forall d, drawnTile s = Some d ->
     ownerId d = Some (currentTurnPlayerId s)) /\
  (forall t, In t (pool s) -> ownerId t = None).

(** [p-0] has drawn w-11 and guessed wrong at the first tile of [p-1]:
    the turn has passed to [p-1]. *)
Definition turnPassed : GameState :=
  Eval vm_compute in
    playedWith twoHumans [CmdDraw 0; CmdGuess "p-1" 0 7].

(** ** The log *)

(** The log of [prev] is that of [s] with entries added in front, cut
    to 50 entries. *)
Definition extendsLog (s prev : GameState) : Prop :=
  exists msgs, turnLog prev = firstn 50 (msgs ++ turnLog s)%list.

Definition keepsHistory (s : GameState) (u : Updater) : Prop :=
  forall prev, extendsLog s prev -> extendsLog s (u prev).

Definition runKeepsHistory (s : GameState) (r : Run) : Prop :=
  match r with
  | Returns q | Throws q => Forall (keepsHistory s) q
  | Loops => True
  end.

(** [p-0] has won and the host ends the turn once more. *)
Definition playedOn : GameState :=
  Eval vm_compute in
    playedWith twoHumans
      [CmdDraw 0; CmdGuess "p-1" 0 2; CmdContinue; CmdGuess "p-1" 1 2;
       CmdContinue; CmdGuess "p-1" 2 3; CmdContinue; CmdGuess "p-1" 3 3;
       CmdEndTurn true].

(** ** Commands the interface can send *)


(** The sort keys of a hand do not decrease from left to right. *)
Definition keysAscend (h : list Tile) : Prop :=
  forall i j a b, (i <= j)%nat ->
    nth_error h i = Some a -> nth_error h j = Some b ->
    (sortValue a <= sortValue b)%Q.

(** A hand with a joker at its end, as the factory keys it. *)
Definition jokerLast : list Tile :=
  [ mkTile "b-2" BLACK 2 2 false (Some "p-0") false false;
    mkTile "w-5" WHITE 5 5 false (Some "p-0") false false;
    mkTile "b-joker" BLACK JOKER_VALUE 100 false (Some "p-0") true false ].

(** ** The setup form (GameSetup.tsx) *)

Definition AVATARS : list string :=
  ["🐶"; "🐱"; "🦊"; "🐻"; "🐼"; "🐨"; "🐯"; "🦁"].

(** [isBot ? `Bot ${i + 1 - humanCount}` : `Player ${i + 1}`] *)
Definition defaultName (isBot : bool) (i humanCount : Z) : string :=
  if isBot then "Bot " ++ showZ (i + 1 - humanCount)
  else "Player " ++ showZ (i + 1).

(** The detail of player [i] that the effect on [playerCount] and
    [botCount] pushes: the previous detail with its name, if it has
    one, and its avatar, or a new one.  [AVATARS[i % AVATARS.length]] is
    always an element of the list. *)
Definition detailFor (prev : list PlayerSetupConfig) (humanCount : Z)
    (i : nat) : PlayerSetupConfig :=
  let isBot := humanCount <=? Z.of_nat i in
  match nth_error prev i with
  | Some d =>
      mkPlayerSetupConfig
        (if String.eqb (cfgName d) EmptyString
         then defaultName isBot (Z.of_nat i) humanCount
         else cfgName d)
        (cfgAvatar d) isBot
  | None =>
      mkPlayerSetupConfig
        (defaultName isBot (Z.of_nat i) humanCount)
        (nth (i mod List.length AVATARS) AVATARS EmptyString)
        isBot
  end.

(** The update of [playerDetails]: one detail for each [i] below
    [playerCount]. *)
Definition fillDetails (playerCount botCount : Z)
    (prev : list PlayerSetupConfig) : list PlayerSetupConfig :=
  let humanCount := Z.max 1 (playerCount - botCount) in
  map (detailFor prev humanCount) (seq 0 (Z.to_nat playerCount)).

(** [if (botCount >= playerCount) setBotCount(playerCount - 1)] *)
Definition clampBotCount (playerCount botCount : Z) : Z :=
  if playerCount <=? botCount then playerCount - 1 else botCount.

(** [onStart({ playerCount, timerSeconds, botCount, playerDetails,
    includeJokers })] *)
Definition formConfig (playerCount timerSeconds botCount : Z)
    (playerDetails : list PlayerSetupConfig) (includeJokers : bool)
  : GameConfig :=
  mkGameConfig (Z.to_nat playerCount) timerSeconds (Z.to_nat botCount)
               playerDetails includeJokers.

(** The bot of [botToGuess] has made its guess. *)
Definition botMoved : GameState :=
  Eval vm_compute in
    playedWith humanAndBot
      [CmdDraw 0; CmdGuess "p-1" 0 5; CmdBot false 0 0 0 0;
       CmdBot false 0 0 0 0].

(** ** What an event does to the game *)

(** The target of a correct guess in the dialog, whatever the state of
    the target: the tile at the index is revealed; the flag is set when
    no tile of the hand is hidden any more, and is never reset. *)
Definition answeredTarget (tp : Player) (i : Z) (t : Tile) : Player :=
  let h := replaceNth (Z.to_nat i) (setRevealed true t) (hand tp) in
  mkPlayer (playerId tp) (name tp) (isBot tp) h
           (isEliminated tp || forallb isRevealed h) (avatar tp).

(** An event is a command of the host, or a right answer in a dialog
    that may have been opened in an earlier state. *)
Inductive Move (s s' : GameState) : Prop :=
| M_command c :
    Transition c s s' -> Move s s'
| M_answer target i tp t :
    findPlayer target (players s) = Some tp ->
    at_ (hand tp) i = Some t ->
    players s' = afterCorrectGuess target i (players s) ->
    winnerCheck (players s') RESOLVE s s' ->
    currentTurnPlayerId s' = currentTurnPlayerId s ->
    drawnTile s' = drawnTile s ->
    pool s' = pool s ->
    moveNumber s' = moveNumber s ->
    Move s s'.

(** What holds of the game in every state of the component. *)
Definition winnerInv (s : GameState) : Prop :=
  match winnerId s with
  | Some w => forall c, In c (activeIds (players s)) -> c = w
  | None => (2 <= List.length (activeIds (players s)))%nat
  end.

Definition gameInv (s : GameState) : Prop :=
  NoDup (map playerId (players s)) /\
  In (currentTurnPlayerId s) (map playerId (players s)) /\
  (forall p, In p (players s) ->
     allRevealed p = true -> isEliminated p = true) /\
  winnerInv s /\
  (phase s = DRAW \/ phase s = GUESS \/ phase s = RESOLVE \/
   phase s = GAME_OVER) /\
  (phase s = GAME_OVER -> winnerId s <> None) /\
  (phase s = DRAW -> drawnTile s = None).

(** ** Example games with the dialog *)

(** The component after the events [es] of a first game started with
    [cfg] on the unshuffled deck. *)
Definition shownWith (cfg : GameConfig) (es : list Event) : App :=
  match startGame cfg (createInitialTiles (includeJokers cfg)) noRandom with
  | Some s0 =>
      match appRunAll es (mkApp s0 None) with
      | Some a => a
      | None => mkApp emptyGame None
      end
  | None => mkApp emptyGame None
  end.

(** A click on a tile and the choice of a value. *)
Definition guessAt (target : string) (i v : Z) : list Event :=
  [TileClick target i; ValueButton v].

(** A turn of the automated player: its timer fires in the Draw phase
    and again in the Guess phase, where [u3] and [u4] pick the tile and
    the value. *)
Definition botTurn (u3 u4 : Q) : list Event :=
  [BotTimer false 0 0 0 0; BotTimer false 0 0 u3 u4].

(** [p-0] has guessed three tiles of [p-1] and has clicked on the
    fourth: the dialog is open. *)
Definition lastTileAsked : App :=
  Eval vm_compute in
    shownWith twoHumans
      ([DrawButton 0] ++ guessAt "p-1" 0 2 ++ [AgainButton] ++
       guessAt "p-1" 1 2 ++ [AgainButton] ++ guessAt "p-1" 2 3 ++
       [AgainButton; TileClick "p-1" 3])%list.

(** [p-0] draws and clicks on the first tile of [p-1], b-2; the dialog
    opens and [p-0] lets the time run out.  The turn passes to [p-1],
    whose time runs out as well, which draws a tile for [p-1].  The
    dialog is still open: it asks for the first tile of [p-1], and
    [p-1] is to guess. *)
Definition ownDialog : App :=
  Eval vm_compute in
    shownWith twoHumans
      [DrawButton 0; TileClick "p-1" 0; TimeOut 0; TimeOut 0].

(** Two humans and a bot, no jokers, the deck in the order of the
    factory: [p-0] holds b-0 w-0 b-1 w-1, [p-1] holds b-2 w-2 b-3 w-3
    and the bot [p-2] holds b-4 w-4 b-5 w-5. *)
Definition twoHumansAndBot : GameConfig :=
  mkGameConfig 3 60 1
    [mkPlayerSetupConfig "Player 1" "a" false;
     mkPlayerSetupConfig "Player 2" "b" false;
     mkPlayerSetupConfig "Bot 1" "c" true]
    false.

(** A game that the bot wins while a dialog is open.  [p-0] guesses
    three tiles of the bot and then guesses wrong; [p-1] lets the time
    run out; [p-0] puts [p-1] out; in its turns the bot guesses the tiles
    of [p-0] one by one, while [p-0] guesses the tile that the bot has
    merged and then guesses wrong.  In the last turn [p-0] clicks on the
    last hidden tile of the bot, w-5 at index 3, and lets the time run
    out with the dialog open; the bot then guesses the last hidden tile
    of [p-0]. *)
Definition botWinsWhileAsked : list Event :=
  ([DrawButton 0] ++ guessAt "p-2" 0 4 ++ [AgainButton] ++
   guessAt "p-2" 1 4 ++ [AgainButton] ++ guessAt "p-2" 2 5 ++
   [AgainButton] ++ guessAt "p-2" 3 0 ++
   [DrawButton 0; TimeOut 0] ++
   botTurn 0 (1 # 2) ++
   [DrawButton 0] ++ guessAt "p-1" 0 2 ++ [AgainButton] ++
   guessAt "p-1" 1 2 ++ [AgainButton] ++ guessAt "p-1" 2 3 ++
   [AgainButton] ++ guessAt "p-1" 3 3 ++ [AgainButton] ++
   guessAt "p-2" 3 0 ++
   botTurn 0 0 ++
   [DrawButton 0] ++ guessAt "p-2" 4 9 ++ [AgainButton] ++
   guessAt "p-2" 3 0 ++
   botTurn 0 0 ++
   [DrawButton 0] ++ guessAt "p-2" 4 8 ++ [AgainButton] ++
   guessAt "p-2" 3 0 ++
   botTurn 0 (1 # 8) ++
   [DrawButton 0] ++ guessAt "p-2" 4 7 ++ [AgainButton] ++
   guessAt "p-2" 3 0 ++
   botTurn 0 (1 # 2) ++
   [DrawButton 0; TileClick "p-2" 3; TimeOut 0] ++
   botTurn 0 (1 # 8))%list.

Definition botHasWon : App :=
  Eval vm_compute in shownWith twoHumansAndBot botWinsWhileAsked.

(** Who is out and which tiles are shown. *)
Definition table (s : GameState) : list (string * bool * list bool) :=
  map (fun p => (playerId p, isEliminated p, map isRevealed (hand p)))
      (players s).

(** ** What a move shows and takes into a hand *)

(** [t'] is the tile [t] face up: it is revealed, and it is [t] in
    every other field. *)
Definition faceUp (t t' : Tile) : Prop :=
  isRevealed t' = true /\
  tileId t' = tileId t /\ color t' = color t /\ value t' = value t /\
  sortValue t' = sortValue t /\ ownerId t' = ownerId t /\
  isJoker t' = isJoker t /\ isPlaced t' = isPlaced t.

(** The hand [h'] is the hand [h] with the hidden tile at index [i]
    turned face up; the other tiles are the same, in the same places. *)
Definition revealedAt (i : Z) (h h' : list Tile) : Prop :=
  exists h1 t t' h2,
    h = (h1 ++ t :: h2)%list /\ h' = (h1 ++ t' :: h2)%list /\
    Z.of_nat (List.length h1) = i /\
    isRevealed t = false /\ faceUp t t'.

(** The hand [h'] holds the tiles of [h] and the tile [t], in an order
    that the comparator of [sortHand] accepts between neighbours. *)
Definition mergedHand (t : Tile) (h h' : list Tile) : Prop :=
  Permutation h' (h ++ [t])%list /\ Sorted notAfter h'.

(** The player [tp'] is [tp] after a correct guess at the tile [i]: the
    same person, that tile face up, and eliminated if it was or if no
    tile of the hand is hidden any more. *)
Definition guessedPlayer (i : Z) (tp tp' : Player) : Prop :=
  samePerson tp tp' /\
  revealedAt i (hand tp) (hand tp') /\
  isEliminated tp' = (isEliminated tp || allRevealed tp').

(** The player [cp'] is [cp] with the tile [d], if there is one, taken
    into the hand: the same person, eliminated or not as before. *)
Definition tookDrawn (d : option Tile) (cp cp' : Player) : Prop :=
  samePerson cp cp' /\
  isEliminated cp' = isEliminated cp /\
  match d with
  | Some t => mergedHand t (hand cp) (hand cp')
  | None => hand cp' = hand cp
  end.

(** A seat after a correct guess of the automated player [current] at
    the tile [i] of [target]: the target has that tile face up, the bot
    has taken the tile [d] it had drawn, every other player is as
    before. *)
Definition afterBotGuess (current : string) (d : option Tile)
    (target : string) (i : Z) (p p' : Player) : Prop :=
  (playerId p = target /\ guessedPlayer i p p') \/
  (playerId p <> target /\ playerId p = current /\ tookDrawn d p p') \/
  (playerId p <> target /\ playerId p <> current /\ p' = p).

(** What [executeBotMove] picks in the Guess phase: the opponent, the
    index and the tile among the opponent's hidden tiles, and the value
    among the possible values; [None] when there is no opponent or no
    hidden tile to pick. *)
Definition botChoice (includeJokers : bool) (u2 u3 u4 : Q)
    (gameState : GameState) : option (Player * Z * Tile * option Z) :=
  let current := currentTurnPlayerId gameState in
  let opponents :=
    filter (fun p => negb (hasId current p) && negb (isEliminated p))
           (players gameState) in
  match at_ opponents (randomIndex u2 (List.length opponents)) with
  | None => None
  | Some target =>
      let hiddenTiles :=
        filter (fun it => negb (isRevealed (fst it)))
               (indexed (hand target)) in
      match at_ hiddenTiles (randomIndex u3 (List.length hiddenTiles)) with
      | None => None
      | Some (targetTile, i) =>
          let values := possibleValues includeJokers in
          Some (target, i, targetTile,
                at_ values (randomIndex u4 (List.length values)))
      end
  end.

(** The human has guessed wrong and the bot has drawn, as in
    [botToGuess], with the dialog closed. *)
Definition botAsked : App :=
  Eval vm_compute in
    shownWith humanAndBot
      [DrawButton 0; TileClick "p-1" 0; ValueButton 5; BotTimer false 0 0 0 0].

(** ** Draws *)

(** The random number with which the command calls [drawTile], when it
    can: the Draw button, the timer of the automated player, in the Draw
    phase, and the turn timer, when no tile is drawn. *)
Definition drawsWith (c : Command) : option Q :=
  match c with
  | CmdDraw u => Some u
  | CmdBot _ u1 _ _ _ => Some u1
  | CmdTimeOut u => Some u
  | _ => None
  end.

(** The command [c] draws the joker [t] for an automated player: [c]
    is a command that calls [drawTile], the phase is Draw, [t] is the
    last tile of the pool and leaves it, and [t'] is the drawn tile
    after the command; the flag was unset and stays unset. *)
Definition drawnByBot (c : Command) (s s' : GameState) (t t' : Tile)
  : Prop :=
  (exists u, drawsWith c = Some u) /\
  phase s = DRAW /\
  pool s = (pool s' ++ [t])%list /\
  drawnTile s' = Some t' /\
  isJoker t = true /\ isPlaced t = false /\ isPlaced t' = false /\
  exists cp, findPlayer (currentTurnPlayerId s) (players s) = Some cp /\
             isBot cp = true.

(** The deal gives the joker [t] of the deck to an automated player. *)
Definition dealtToBot (s0 : GameState) (t t' : Tile) : Prop :=
  isJoker t = true /\
  exists p, In p (players s0) /\ isBot p = true /\ In t' (hand p).

(** An update that leaves the pool of [s] in place. *)
Definition keepsPool (s : GameState) (u : Updater) : Prop :=
  forall prev, pool prev = pool s -> pool (u prev) = pool s.

Definition runKeepsPool (s : GameState) (r : Run) : Prop :=
  match r with
  | Returns q | Throws q => Forall (keepsPool s) q
  | Loops => True
  end.

(** * Properties *)

(** ** Hand ordering *)

Section HandOrdering.

Lemma Qgtb_true (x y : Q) : Qgtb x y = true <-> (y < x)%Q.
Proof.
  unfold Qgtb. rewrite negb_true_iff, <- not_true_iff_false, Qle_bool_iff.
  split; intro H.
  - apply Qnot_le_lt; exact H.
  - apply Qlt_not_le; exact H.
Qed.

Lemma Qgtb_false (x y : Q) : Qgtb x y = false <-> (x <= y)%Q.
Proof.
  unfold Qgtb. rewrite negb_false_iff, Qle_bool_iff. reflexivity.
Qed.

Lemma Qabs_sub_swap (x y : Q) : (Qabs (x - y) == Qabs (y - x))%Q.
Proof.
  rewrite <- (Qabs_opp (x - y)).
  apply Qabs_wd. ring.
Qed.

(** A strict verdict of the comparator is reversed on swapped
    arguments. *)
Lemma compareTiles_swap (x y : Tile) :
  Qgtb (compareTiles x y) 0 = true -> notAfter y x.
Proof.
  unfold notAfter, compareTiles, aboveTolerance. intro H.
  destruct (Qgtb (Qabs (sortValue x - sortValue y)) (EPSILON + HALF_ULP))
    eqn:Habs.
  - assert (Hs : Qgtb (Qabs (sortValue y - sortValue x))
                      (EPSILON + HALF_ULP) = true).
    { apply Qgtb_true. rewrite Qabs_sub_swap. apply Qgtb_true. exact Habs. }
    rewrite Hs. apply Qgtb_false. apply Qgtb_true in H. lra.
  - assert (Hs : Qgtb (Qabs (sortValue y - sortValue x))
                      (EPSILON + HALF_ULP) = false).
    { apply Qgtb_false. rewrite Qabs_sub_swap. apply Qgtb_false. exact Habs. }
    rewrite Hs.
    destruct (color x), (color y); simpl in *; try reflexivity;
      discriminate.
Qed.

Lemma insertTile_perm (x : Tile) (l : list Tile) :
  Permutation (x :: l) (insertTile x l).
Proof.
  induction l as [|y ys IH]; simpl.
  - apply Permutation_refl.
  - destruct (Qgtb (compareTiles x y) 0).
    + eapply perm_trans; [apply perm_swap|].
      apply perm_skip. exact IH.
    + apply Permutation_refl.
Qed.

Lemma sortHand_perm (tiles : list Tile) :
  Permutation tiles (sortHand tiles).
Proof.
  induction tiles as [|x rest IH]; simpl.
  - constructor.
  - eapply perm_trans; [apply perm_skip; exact IH|].
    apply insertTile_perm.
Qed.

Lemma insertTile_HdRel (x z : Tile) (l : list Tile) :
  notAfter z x -> HdRel notAfter z l -> HdRel notAfter z (insertTile x l).
Proof.
  intros Hzx Hl. destruct l as [|y ys]; simpl.
  - constructor. exact Hzx.
  - inversion Hl; subst.
    destruct (Qgtb (compareTiles x y) 0); constructor; assumption.
Qed.

Lemma insertTile_sorted (x : Tile) (l : list Tile) :
  Sorted notAfter l -> Sorted notAfter (insertTile x l).
Proof.
  induction l as [|y ys IH]; simpl; intro Hs.
  - repeat constructor.
  - inversion Hs as [|? ? Hys Hhd]; subst.
    destruct (Qgtb (compareTiles x y) 0) eqn:Hc.
    + constructor.
      * apply IH. exact Hys.
      * apply insertTile_HdRel; [apply compareTiles_swap; exact Hc|exact Hhd].
    + constructor; [exact Hs|]. constructor. exact Hc.
Qed.

Lemma sortHand_sorted (tiles : list Tile) : Sorted notAfter (sortHand tiles).
Proof.
  induction tiles as [|x rest IH]; simpl.
  - constructor.
  - apply insertTile_sorted. exact IH.
Qed.

Lemma Sorted_adjacent (l : list Tile) (a b : Tile) :
  Sorted notAfter l -> adjacent a b l -> notAfter a b.
Proof.
  intros Hs (l1 & l2 & ->).
  induction l1 as [|z l1 IH]; simpl in Hs.
  - inversion Hs as [|? ? _ Hhd]; subst.
    inversion Hhd; subst. assumption.
  - inversion Hs; subst. apply IH. assumption.
Qed.

(** What the comparator's verdict says about keys and colours. *)
Lemma notAfter_keys (a b : Tile) :
  notAfter a b ->
  (sortValue a <= sortValue b + (EPSILON + HALF_ULP))%Q /\
  (withinEpsilon a b -> ~ (color a = WHITE /\ color b = BLACK)).
Proof.
  unfold notAfter, compareTiles, withinEpsilon, aboveTolerance. intro H.
  destruct (Qgtb (Qabs (sortValue a - sortValue b)) (EPSILON + HALF_ULP))
    eqn:Habs.
  - apply Qgtb_false in H. apply Qgtb_true in Habs.
    split.
    + unfold EPSILON, HALF_ULP. lra.
    + intro Hw. exfalso. apply (Qlt_not_le _ _ Habs). exact Hw.
  - apply Qgtb_false in Habs. split.
    + pose proof (Qle_Qabs (sortValue a - sortValue b)) as Hle. lra.
    + intros _ [Ha Hb]. rewrite Ha, Hb in H. simpl in H. discriminate.
Qed.

End HandOrdering.

(** C8, as stated, fails: the two keys lie within the tolerance, so the
    colour decides and the black tile with the larger key comes first.
    And the comparator's ties do not chain: a white tile can stay before
    a black tile within the tolerance when a tile tied with the black
    one stands between them. *)
Lemma sortHand_keys_decrease :
  (sortHand [whiteAtZero; blackJokerNearZero]
     = [blackJokerNearZero; whiteAtZero] /\
   adjacent blackJokerNearZero whiteAtZero
            (sortHand [whiteAtZero; blackJokerNearZero]) /\
   ~ (sortValue blackJokerNearZero <= sortValue whiteAtZero)%Q) /\
  (sortHand [whiteAtZero; blackAbove; blackJokerWithin]
     = [whiteAtZero; blackAbove; blackJokerWithin] /\
   withinEpsilon whiteAtZero blackJokerWithin /\
   color whiteAtZero = WHITE /\ color blackJokerWithin = BLACK).
Proof.
  split.
  - split; [reflexivity|]. split.
    + exists [], []. reflexivity.
    + intro H. vm_compute in H. apply H. reflexivity.
  - split; [reflexivity|]. split; [|split; reflexivity].
    unfold withinEpsilon. vm_compute. discriminate.
Qed.

(** C8, amended: the sorted hand is a rearrangement of the tiles in which
    every tile's key is at most its right neighbour's key plus the
    tolerance, the largest difference that the subtraction of doubles
    rounds to at most [0.001], and in which no white tile stands
    directly before a black tile whose key the comparator takes as tied
    with its own. *)
Theorem sortHand_ordered (tiles : list Tile) :
  Permutation tiles (sortHand tiles) /\
  forall a b, adjacent a b (sortHand tiles) ->
    (sortValue a <= sortValue b + (EPSILON + HALF_ULP))%Q /\
    (withinEpsilon a b -> ~ (color a = WHITE /\ color b = BLACK)).
Proof.
  split.
  - apply sortHand_perm.
  - intros a b Hadj. apply notAfter_keys.
    apply (Sorted_adjacent (sortHand tiles)); [apply sortHand_sorted|exact Hadj].
Qed.

(** ** The next-player loop *)

Section NextPlayer.

Local Open Scope nat_scope.

Variable ps : list Player.

Let n := List.length ps.

Lemma first_false (f : nat -> bool) (d : nat) :
  f d = false ->
  exists k, k <= d /\ f k = false /\ forall j, j < k -> f j = true.
Proof.
  induction d as [d IH] using lt_wf_ind. intro Hd.
  destruct (forallb f (seq 0 d)) eqn:Hall.
  - exists d. repeat split; auto.
    intros j Hj. rewrite forallb_forall in Hall.
    apply Hall. apply in_seq. lia.
  - assert (Hex : exists j, j < d /\ f j = false).
    { clear -Hall. induction d as [|d IHd].
      - discriminate.
      - rewrite seq_S, forallb_app in Hall. simpl in Hall.
        destruct (forallb f (seq 0 d)) eqn:E.
        + exists d. split; [lia|].
          destruct (f d); [discriminate|reflexivity].
        + destruct (IHd eq_refl) as (j & Hj & Hf). exists j. split; [lia|auto]. }
    destruct Hex as (j & Hj & Hf).
    destruct (IH j Hj Hf) as (k & Hk & Hfk & Hmin).
    exists k. repeat split; auto. lia.
Qed.

Lemma eliminatedAt_false (i : nat) :
  eliminatedAt ps i = false <->
  exists p, nth_error ps i = Some p /\ isEliminated p = false.
Proof.
  unfold eliminatedAt. destruct (nth_error ps i) as [p|].
  - split; [intro H; exists p; auto|intros (q & [= <-] & H); exact H].
  - split; [discriminate|intros (q & [=] & _)].
Qed.

(** The loop leaves at the first seat that is not eliminated, after one
    test per seat it passes. *)
Lemma skipEliminated_exit (k start fuel : nat) :
  start < n -> firstActiveFrom ps start k -> k < fuel ->
  skipEliminated fuel ps start = Exit ((start + k) mod n).
Proof.
  revert start fuel.
  induction k as [|k IH]; intros start fuel Hs [Hk Hbefore] Hf;
    (destruct fuel as [|fuel]; [lia|]); simpl.
  - unfold n in *.
    rewrite Nat.add_0_r, (Nat.mod_small _ _ Hs) in Hk.
    rewrite Nat.add_0_r, (Nat.mod_small _ _ Hs).
    apply eliminatedAt_false in Hk. destruct Hk as (p & -> & ->).
    reflexivity.
  - pose proof (Hbefore 0 ltac:(lia)) as H0.
    unfold n in Hs. rewrite Nat.add_0_r, (Nat.mod_small _ _ Hs) in H0.
    fold n in Hs.
    unfold eliminatedAt in H0.
    destruct (nth_error ps start) as [p|] eqn:Hp.
    2:{ apply nth_error_None in Hp. fold n in Hp. lia. }
    rewrite H0. fold n.
    assert (Hn : n <> 0) by lia.
    assert (Hshift : forall j,
               (((start + 1) mod n) + j) mod n = (start + S j) mod n).
    { intro j. rewrite Nat.Div0.add_mod_idemp_l. f_equal. lia. }
    rewrite IH.
    + rewrite Hshift. reflexivity.
    + apply Nat.mod_upper_bound. exact Hn.
    + split.
      * fold n. rewrite Hshift. exact Hk.
      * intros j Hj. fold n. rewrite Hshift. apply Hbefore. lia.
    + lia.
Qed.

(** With every player eliminated the loop is still running after any
    number of tests. *)
Lemma skipEliminated_all_eliminated (fuel start : nat) :
  start < n ->
  (forall p, In p ps -> isEliminated p = true) ->
  skipEliminated fuel ps start = Spinning.
Proof.
  intros Hs Hall. revert start Hs.
  induction fuel as [|fuel IH]; intros start Hs; simpl; [reflexivity|].
  destruct (nth_error ps start) as [p|] eqn:Hp.
  - rewrite (Hall p (nth_error_In _ _ Hp)).
    apply IH. apply Nat.mod_upper_bound. fold n. lia.
  - apply nth_error_None in Hp. fold n in Hp. lia.
Qed.

(** Some seat from [start] on is not eliminated when some player is
    not. *)
Lemma firstActiveFrom_exists (start : nat) :
  start < n ->
  (exists p, In p ps /\ isEliminated p = false) ->
  exists k, k < n /\ firstActiveFrom ps start k.
Proof.
  intros Hs (p & Hin & Hp).
  destruct (In_nth_error _ _ Hin) as (i & Hi).
  assert (Hi_lt : i < n).
  { unfold n. apply nth_error_Some. rewrite Hi. discriminate. }
  set (d := if start <=? i then i - start else i + n - start).
  assert (Hd : d < n /\ (start + d) mod n = i).
  { unfold d. destruct (start <=? i) eqn:E.
    - apply Nat.leb_le in E. split; [lia|].
      replace (start + (i - start)) with i by lia.
      apply Nat.mod_small. exact Hi_lt.
    - apply Nat.leb_gt in E. split; [lia|].
      replace (start + (i + n - start)) with (i + 1 * n) by lia.
      rewrite Nat.Div0.mod_add. apply Nat.mod_small. exact Hi_lt. }
  destruct Hd as [Hd_lt Hd].
  destruct (first_false (fun k => eliminatedAt ps ((start + k) mod n)) d)
    as (k & Hk & Hfk & Hmin).
  { rewrite Hd. apply eliminatedAt_false. exists p. auto. }
  exists k. split; [lia|]. split; assumption.
Qed.

(** One test per seat is all the fuel the loop can use: if it is still
    running then, it runs for ever. *)
Lemma skipEliminated_spins (start : nat) :
  start < n ->
  skipEliminated n ps start = Spinning ->
  forall fuel, skipEliminated fuel ps start = Spinning.
Proof.
  intros Hs Hspin fuel.
  destruct (forallb isEliminated ps) eqn:Hall.
  - apply skipEliminated_all_eliminated; [exact Hs|].
    apply forallb_forall. exact Hall.
  - assert (Hex : exists p, In p ps /\ isEliminated p = false).
    { clear -Hall. induction ps as [|q qs IH]; simpl in Hall; [discriminate|].
      destruct (isEliminated q) eqn:E.
      - destruct (IH Hall) as (p & Hin & Hp). exists p. split; [right|]; auto.
      - exists q. split; [left|]; auto. }
    destruct (firstActiveFrom_exists start Hs Hex) as (k & Hk & Hfirst).
    rewrite (skipEliminated_exit k start n Hs Hfirst Hk) in Hspin.
    discriminate.
Qed.

End NextPlayer.

Lemma nextPlayerIdx_unfold (ps : list Player) (idx : option nat) :
  ps <> [] ->
  nextPlayerIdx ps idx
    = skipEliminated (List.length ps) ps (nextStart idx (List.length ps)).
Proof.
  destruct ps; [congruence|reflexivity].
Qed.

(** C10: with the current seat [cur] inside the list, if some player is
    not eliminated the loop of [endTurn] and [getNextPlayerId] exits
    (whatever fuel beyond the seats it passes it is given) at the seat
    [cur + 1 + k] taken cyclically, where that seat's player is not
    eliminated and the players of the [k < length] seats passed are; if
    every player is eliminated the loop is still running after any number
    of steps. *)
Theorem next_player_selection (ps : list Player) (cur : nat) :
  (cur < List.length ps)%nat ->
  let start := ((cur + 1) mod List.length ps)%nat in
  ((exists p, In p ps /\ isEliminated p = false) ->
   exists k, (k < List.length ps)%nat /\
     firstActiveFrom ps start k /\
     (forall fuel, (k < fuel)%nat ->
        skipEliminated fuel ps start
          = Exit ((start + k) mod List.length ps)%nat) /\
     nextPlayerIdx ps (Some cur)
       = Exit ((start + k) mod List.length ps)%nat) /\
  ((forall p, In p ps -> isEliminated p = true) ->
   forall fuel, skipEliminated fuel ps start = Spinning).
Proof.
  intros Hcur start.
  assert (Hstart : (start < List.length ps)%nat).
  { apply Nat.mod_upper_bound. lia. }
  split.
  - intro Hex.
    destruct (firstActiveFrom_exists ps start Hstart Hex) as (k & Hk & Hfirst).
    exists k. repeat split; try exact Hk; try apply Hfirst.
    + intros fuel Hf. apply skipEliminated_exit; assumption.
    + rewrite nextPlayerIdx_unfold.
      * apply skipEliminated_exit; assumption.
      * intros ->. simpl in Hcur. lia.
  - intros Hall fuel. apply skipEliminated_all_eliminated; assumption.
Qed.

Lemma next_player_selection_witness :
  let start := ((0 + 1) mod List.length threeSeats)%nat in
  ((exists p, In p threeSeats /\ isEliminated p = false) ->
   exists k, (k < List.length threeSeats)%nat /\
     firstActiveFrom threeSeats start k /\
     (forall fuel, (k < fuel)%nat ->
        skipEliminated fuel threeSeats start
          = Exit ((start + k) mod List.length threeSeats)%nat) /\
     nextPlayerIdx threeSeats (Some 0%nat)
       = Exit ((start + k) mod List.length threeSeats)%nat) /\
  ((forall p, In p threeSeats -> isEliminated p = true) ->
   forall fuel, skipEliminated fuel threeSeats start = Spinning).
Proof.
  apply (next_player_selection threeSeats 0). simpl. lia.
Defined.

(** ** Arrays *)

Section Arrays.

Context {A : Type}.

Lemma findIndex_Some (f : A -> bool) (l : list A) (i : nat) :
  findIndex f l = Some i ->
  exists x, nth_error l i = Some x /\ f x = true.
Proof.
  revert i. induction l as [|y ys IH]; simpl; intros i H; [discriminate|].
  destruct (f y) eqn:Hy.
  - injection H as <-. exists y. auto.
  - destruct (findIndex f ys) as [j|]; simpl in H; [|discriminate].
    injection H as <-. simpl. apply IH. reflexivity.
Qed.

Lemma find_findIndex (f : A -> bool) (l : list A) (x : A) :
  find f l = Some x ->
  exists i, findIndex f l = Some i /\ nth_error l i = Some x.
Proof.
  induction l as [|y ys IH]; simpl; intro H; [discriminate|].
  destruct (f y).
  - injection H as ->. exists O. auto.
  - destruct (IH H) as (i & Hi & Hn). exists (S i). rewrite Hi. auto.
Qed.

Lemma findIndex_find (f : A -> bool) (l : list A) (i : nat) :
  findIndex f l = Some i -> find f l = nth_error l i.
Proof.
  revert i. induction l as [|y ys IH]; simpl; intros i H; [discriminate|].
  destruct (f y).
  - injection H as <-. reflexivity.
  - destruct (findIndex f ys) as [j|]; simpl in H; [|discriminate].
    injection H as <-. simpl. apply IH. reflexivity.
Qed.

Lemma findIndex_None (f : A -> bool) (l : list A) :
  findIndex f l = None -> find f l = None.
Proof.
  induction l as [|y ys IH]; simpl; intro H; [reflexivity|].
  destruct (f y); [discriminate|].
  destruct (findIndex f ys); [discriminate|]. apply IH. reflexivity.
Qed.

Lemma replaceNth_length (i : nat) (x : A) (l : list A) :
  List.length (replaceNth i x l) = List.length l.
Proof.
  revert i. induction l as [|y ys IH]; intros [|i]; simpl; auto.
Qed.

Lemma replaceNth_same (i : nat) (x : A) (l : list A) :
  (i < List.length l)%nat -> nth_error (replaceNth i x l) i = Some x.
Proof.
  revert i. induction l as [|y ys IH]; intros [|i]; simpl; intro H;
    try lia; auto.
  apply IH. lia.
Qed.

Lemma replaceNth_other (i j : nat) (x : A) (l : list A) :
  i <> j -> nth_error (replaceNth i x l) j = nth_error l j.
Proof.
  revert i j. induction l as [|y ys IH]; intros [|i] [|j]; simpl; intro H;
    auto; try congruence.
Qed.

Lemma replaceNth_In (i : nat) (x y : A) (l : list A) :
  In y (replaceNth i x l) -> y = x \/ In y l.
Proof.
  revert i. induction l as [|z zs IH]; intros [|i]; simpl; intro H; auto.
  - destruct H as [<-|H]; auto.
  - destruct H as [<-|H]; auto. destruct (IH _ H); auto.
Qed.

Lemma replaceNth_map {B : Type} (g : A -> B) (i : nat) (x y : A)
    (l : list A) :
  nth_error l i = Some y -> g x = g y ->
  map g (replaceNth i x l) = map g l.
Proof.
  revert i. induction l as [|z zs IH]; intros [|i]; simpl; intros H Hg;
    try discriminate.
  - injection H as ->. rewrite Hg. reflexivity.
  - rewrite (IH _ H Hg). reflexivity.
Qed.

Lemma replaceNth_split (i : nat) (x y : A) (l : list A) :
  nth_error l i = Some y ->
  exists l1 l2, l = (l1 ++ y :: l2)%list /\
                replaceNth i x l = (l1 ++ x :: l2)%list /\
                List.length l1 = i.
Proof.
  revert i. induction l as [|z zs IH]; intros [|i]; simpl; intro H;
    try discriminate.
  - injection H as ->. exists [], zs. auto.
  - destruct (IH _ H) as (l1 & l2 & -> & -> & Hl).
    exists (z :: l1), l2. simpl. auto.
Qed.

Lemma pop_None (l : list A) : pop l = None <-> l = [].
Proof.
  unfold pop. split.
  - destruct (rev l) eqn:E; [|discriminate]. intros _.
    rewrite <- (rev_involutive l), E. reflexivity.
  - intros ->. reflexivity.
Qed.

Lemma pop_Some (l r : list A) (x : A) :
  pop l = Some (x, r) <-> l = (r ++ [x])%list.
Proof.
  unfold pop. split.
  - destruct (rev l) as [|y ys] eqn:E; [discriminate|].
    intros [= -> <-]. rewrite <- (rev_involutive l), E. reflexivity.
  - intros ->. rewrite rev_app_distr. simpl. rewrite rev_involutive.
    reflexivity.
Qed.

End Arrays.

(** ** End of turn *)

Lemma eliminatedAt_replaceNth (ps : list Player) (i j : nat) (h : list Tile)
    (cp : Player) :
  nth_error ps i = Some cp ->
  eliminatedAt (replaceNth i (setHand h cp) ps) j = eliminatedAt ps j.
Proof.
  intro Hi. unfold eliminatedAt.
  destruct (Nat.eq_dec i j) as [<-|Hne].
  - rewrite replaceNth_same, Hi; [reflexivity|].
    apply nth_error_Some. rewrite Hi. discriminate.
  - rewrite replaceNth_other by exact Hne. reflexivity.
Qed.

(** The loop, when it exits, exits at a seat whose player is not
    eliminated. *)
Lemma skipEliminated_Exit (fuel : nat) (ps : list Player) (start i : nat) :
  skipEliminated fuel ps start = Exit i ->
  exists p, nth_error ps i = Some p /\ isEliminated p = false.
Proof.
  revert start. induction fuel as [|fuel IH]; simpl; intros start H;
    [discriminate|].
  destruct (nth_error ps start) as [p|] eqn:Hp; [|discriminate].
  destruct (isEliminated p) eqn:He.
  - apply (IH _ H).
  - injection H as <-. exists p. auto.
Qed.

Lemma nextPlayerIdx_Exit (ps : list Player) (cur : option nat) (i : nat) :
  nextPlayerIdx ps cur = Exit i ->
  exists p, nth_error ps i = Some p /\ isEliminated p = false.
Proof.
  unfold nextPlayerIdx. destruct ps as [|p0 ps0]; [discriminate|].
  apply skipEliminated_Exit.
Qed.

(** ** Runs *)

Lemma reachable_run (cs : list Command) (s s' : GameState) :
  reachable s -> run cs s = Some s' -> reachable s'.
Proof.
  revert s. induction cs as [|c rest IH]; simpl; intros s Hs Hrun.
  - injection Hrun as <-. exact Hs.
  - destruct (outcomeState (step c s)) as [s1|] eqn:Hstep; [|discriminate].
    apply (IH s1); [|exact Hrun].
    apply (reach_step c s); assumption.
Qed.

Lemma validConfig_twoHumans : validConfig twoHumans.
Proof. unfold validConfig. simpl. lia. Qed.

Lemma validConfig_humanAndBot : validConfig humanAndBot.
Proof. unfold validConfig. simpl. lia. Qed.

(** A game played from the unshuffled deck reaches the state that
    [playedWith] computes. *)
Lemma reachable_playedWith (cfg : GameConfig) (cs : list Command)
    (s0 s : GameState) :
  validConfig cfg ->
  startGame cfg (createInitialTiles (includeJokers cfg)) noRandom = Some s0 ->
  run cs s0 = Some s ->
  reachable s.
Proof.
  intros Hcfg Hstart Hrun.
  apply (reachable_run cs s0); [|exact Hrun].
  apply (reach_start cfg (createInitialTiles (includeJokers cfg)) noRandom);
    [exact Hcfg|apply Permutation_refl|exact Hstart].
Qed.

Ltac reach_by cfg_ok cs :=
  eapply (reachable_playedWith _ cs);
  [exact cfg_ok|vm_compute; reflexivity|vm_compute; reflexivity].

Lemma reachable_firstGuess : reachable firstGuess.
Proof. reach_by validConfig_twoHumans [CmdDraw 0]. Qed.

Lemma reachable_lastTileHidden : reachable lastTileHidden.
Proof.
  reach_by validConfig_twoHumans
    [CmdDraw 0; CmdGuess "p-1" 0 2; CmdContinue; CmdGuess "p-1" 1 2;
     CmdContinue; CmdGuess "p-1" 2 3; CmdContinue].
Qed.

Lemma reachable_wonGame : reachable wonGame.
Proof.
  reach_by validConfig_twoHumans
    [CmdDraw 0; CmdGuess "p-1" 0 2; CmdContinue; CmdGuess "p-1" 1 2;
     CmdContinue; CmdGuess "p-1" 2 3; CmdContinue; CmdGuess "p-1" 3 3].
Qed.

Lemma reachable_botToGuess : reachable botToGuess.
Proof.
  reach_by validConfig_humanAndBot
    [CmdDraw 0; CmdGuess "p-1" 0 5; CmdBot false 0 0 0 0].
Qed.

Lemma reachable_poolEmptied : reachable poolEmptied.
Proof.
  reach_by validConfig_twoHumans
    (List.concat (repeat (wrongTurn "p-1" ++ wrongTurn "p-0")%list 8)).
Qed.

(** ** Rejected commands *)

(** Once the phase is GameOver, a draw, a guess and a request to go on
    guessing change nothing. *)
Lemma gameOver_rejects (s : GameState) :
  phase s = GAME_OVER ->
  (forall u, step (CmdDraw u) s = Ok s) /\
  (forall target i v, step (CmdGuess target i v) s = Ok s) /\
  step CmdContinue s = Ok s.
Proof.
  intro Hp. unfold step, dispatch, drawTile, guess, handleTileClick,
    continueTurn.
  rewrite Hp. simpl. auto.
Qed.

(** C3 fails on [endTurn], which has no test of the phase or of the
    winner: in the won game it merges the drawn tile, sets the phase back
    to Draw and counts a move, the winner staying set. *)
Theorem endTurn_after_game_over :
  reachable wonGame /\
  phase wonGame = GAME_OVER /\
  winnerId wonGame = Some "p-0" /\
  forall wasSuccess, exists s',
    step (CmdEndTurn wasSuccess) wonGame = Ok s' /\
    phase s' = DRAW /\
    winnerId s' = Some "p-0" /\
    drawnTile wonGame <> None /\ drawnTile s' = None /\
    moveNumber s' = moveNumber wonGame + 1 /\
    s' <> wonGame.
Proof.
  split; [exact reachable_wonGame|].
  split; [reflexivity|]. split; [reflexivity|].
  intros [|]; (eexists; split; [vm_compute; reflexivity|]);
    repeat split; try reflexivity; discriminate.
Qed.

(** A guess in the Guess phase that names an eliminated player, the
    acting player, a player that does not exist or a tile that is
    revealed changes nothing. *)
Lemma guess_rejected (s : GameState) (target : string) (i v : Z) :
  (findPlayer target (players s) = None \/
   target = currentTurnPlayerId s \/
   (exists tp, findPlayer target (players s) = Some tp /\
               (isEliminated tp = true \/
                exists t, at_ (hand tp) i = Some t /\ isRevealed t = true))) ->
  step (CmdGuess target i v) s = Ok s.
Proof.
  intro H. unfold step, dispatch, guess, handleTileClick.
  destruct (negb (GamePhase_eqb (phase s) GUESS)); [reflexivity|].
  destruct (findPlayer target (players s)) as [tp|] eqn:Hf; [|reflexivity].
  destruct (isEliminated tp) eqn:He; [reflexivity|].
  assert (Hid : playerId tp = target).
  { unfold findPlayer in Hf. apply find_some in Hf. destruct Hf as [_ Hf].
    unfold hasId in Hf. apply String.eqb_eq. exact Hf. }
  destruct H as [H|[H|(tp' & [= <-] & [H|(t & Ht & Hr)])]].
  - discriminate.
  - rewrite Hid, H, String.eqb_refl. reflexivity.
  - congruence.
  - destruct (String.eqb _ _); [reflexivity|]. rewrite Ht, Hr. reflexivity.
Qed.

(** ** Queues of log entries *)

Lemma sameButLog_refl (s : GameState) : sameButLog s s.
Proof. unfold sameButLog. tauto. Qed.

Lemma commit_logsOnly (q : list Updater) (s : GameState) :
  logsOnly q -> sameButLog s (commit q s).
Proof.
  unfold commit. intro H. revert s.
  induction H as [|u q (msg & ->) _ IH]; intro s; simpl.
  - apply sameButLog_refl.
  - destruct (IH (addLog msg s)) as (H1 & H2 & H3 & H4 & H5 & H6 & H7).
    unfold sameButLog. rewrite H1, H2, H3, H4, H5, H6, H7. simpl. tauto.
Qed.

Lemma commit_app (q1 q2 : list Updater) (s : GameState) :
  commit (q1 ++ q2) s = commit q2 (commit q1 s).
Proof. unfold commit. apply fold_left_app. Qed.

(** ** Players with distinct ids *)

Lemma findPlayer_id (target : string) (ps : list Player) (tp : Player) :
  findPlayer target ps = Some tp -> playerId tp = target /\ In tp ps.
Proof.
  unfold findPlayer. intro H. apply find_some in H. destruct H as [Hin H].
  split; [|exact Hin]. apply String.eqb_eq. exact H.
Qed.

Lemma findPlayer_split (target : string) (ps : list Player) (tp : Player) :
  findPlayer target ps = Some tp ->
  NoDup (map playerId ps) ->
  exists l1 l2, ps = (l1 ++ tp :: l2)%list /\
    (forall p, In p (l1 ++ l2)%list -> hasId target p = false).
Proof.
  unfold findPlayer.
  induction ps as [|p ps IH]; simpl; intros Hf Hnd; [discriminate|].
  inversion Hnd as [|? ? Hnotin Hnd']; subst.
  destruct (hasId target p) eqn:Hp.
  - injection Hf as ->. exists [], ps. split; [reflexivity|].
    simpl. intros q Hq.
    destruct (hasId target q) eqn:Hq'; [|reflexivity].
    exfalso. apply Hnotin. unfold hasId in *.
    apply String.eqb_eq in Hp, Hq'. rewrite Hp, <- Hq'.
    apply in_map. exact Hq.
  - destruct (IH Hf Hnd') as (l1 & l2 & -> & Hrest).
    exists (p :: l1), l2. split; [reflexivity|].
    simpl. intros q [<-|Hq]; auto.
Qed.

Lemma map_if_hasId (target : string) (g : Player -> Player)
    (l : list Player) :
  (forall p, In p l -> hasId target p = false) ->
  map (fun p => if hasId target p then g p else p) l = l.
Proof.
  intro H. induction l as [|p l IH]; simpl; [reflexivity|].
  rewrite (H p (or_introl eq_refl)), IH; [reflexivity|].
  intros q Hq. apply H. right. exact Hq.
Qed.

Lemma revealIn_split (target : string) (i : Z) (l1 l2 : list Player)
    (tp : Player) :
  (forall p, In p (l1 ++ l2)%list -> hasId target p = false) ->
  hasId target tp = true ->
  revealIn target i (l1 ++ tp :: l2)
    = (l1 ++ setHand (revealAt i (hand tp)) tp :: l2)%list.
Proof.
  intros Hrest Htp. unfold revealIn. rewrite map_app. simpl.
  rewrite Htp, !map_if_hasId; [reflexivity| |];
    intros p Hp; apply Hrest; apply in_or_app; auto.
Qed.

Lemma findPlayer_middle (target : string) (l1 l2 : list Player)
    (x : Player) :
  (forall p, In p l1 -> hasId target p = false) ->
  hasId target x = true ->
  findPlayer target (l1 ++ x :: l2) = Some x.
Proof.
  intros H Hx. unfold findPlayer.
  induction l1 as [|p l1 IH]; simpl.
  - rewrite Hx. reflexivity.
  - rewrite (H p (or_introl eq_refl)). apply IH.
    intros q Hq. apply H. right. exact Hq.
Qed.

Lemma eliminateFirst_middle (target : string) (l1 l2 : list Player)
    (x : Player) :
  (forall p, In p l1 -> hasId target p = false) ->
  hasId target x = true ->
  eliminateFirst target (l1 ++ x :: l2)
    = (l1 ++ setEliminated true x :: l2)%list.
Proof.
  intros H Hx. induction l1 as [|p l1 IH]; simpl.
  - rewrite Hx. reflexivity.
  - rewrite (H p (or_introl eq_refl)), IH; [reflexivity|].
    intros q Hq. apply H. right. exact Hq.
Qed.

Lemma afterCorrectGuess_split (target : string) (i : Z) (t : Tile)
    (l1 l2 : list Player) (tp : Player) :
  (forall p, In p (l1 ++ l2)%list -> hasId target p = false) ->
  hasId target tp = true ->
  isEliminated tp = false ->
  at_ (hand tp) i = Some t ->
  afterCorrectGuess target i (l1 ++ tp :: l2)
    = (l1 ++ guessedTarget tp i t :: l2)%list.
Proof.
  intros Hrest Htp He Ht.
  assert (H1 : forall p, In p l1 -> hasId target p = false).
  { intros p Hp. apply Hrest. apply in_or_app. auto. }
  unfold afterCorrectGuess, targetAllRevealed.
  rewrite revealIn_split by assumption.
  rewrite findPlayer_middle by assumption.
  unfold allRevealed, revealAt. rewrite Ht. simpl hand.
  unfold guessedTarget.
  destruct (forallb isRevealed _) eqn:Hall.
  - rewrite eliminateFirst_middle by assumption. reflexivity.
  - unfold setHand. rewrite He. reflexivity.
Qed.

Lemma checkWinner_commit (ps : list Player) (s : GameState) :
  let s' := commit (checkWinner ps) s in
  players s' = players s /\
  currentTurnPlayerId s' = currentTurnPlayerId s /\
  drawnTile s' = drawnTile s /\
  pool s' = pool s /\
  moveNumber s' = moveNumber s /\
  match activePlayers ps with
  | [w] => phase s' = GAME_OVER /\ winnerId s' = Some (playerId w)
  | _ => phase s' = phase s /\ winnerId s' = winnerId s
  end.
Proof.
  unfold checkWinner.
  destruct (activePlayers ps) as [|w [|w' rest]]; simpl; tauto.
Qed.

(** [submitGuess] on a correct guess, whatever the phase. *)
Lemma submitGuess_correct (s : GameState) (target : string) (i : Z)
    (tp : Player) (t : Tile) :
  findPlayer target (players s) = Some tp ->
  at_ (hand tp) i = Some t ->
  exists s',
    exec (submitGuess (mkGuessModal target i) (value t) s) s = Ok s' /\
    players s' = afterCorrectGuess target i (players s) /\
    currentTurnPlayerId s' = currentTurnPlayerId s /\
    drawnTile s' = drawnTile s /\
    pool s' = pool s /\
    moveNumber s' = moveNumber s /\
    match activePlayers (players s') with
    | [w] => phase s' = GAME_OVER /\ winnerId s' = Some (playerId w)
    | _ => phase s' = RESOLVE /\ winnerId s' = winnerId s
    end.
Proof.
  intros Hf Ht. unfold submitGuess. simpl targetPlayerId. simpl targetTileIndex.
  rewrite Hf, Ht, Z.eqb_refl.
  set (ps' := afterCorrectGuess target i (players s)).
  eexists. split; [reflexivity|].
  rewrite !commit_app.
  match goal with
  | |- context [commit (checkWinner ps') ?s1] =>
      pose proof (checkWinner_commit ps' s1) as Hw;
      set (s2 := commit (checkWinner ps') s1) in *;
      assert (Hs1 : players s1 = ps' /\
                    currentTurnPlayerId s1 = currentTurnPlayerId s /\
                    drawnTile s1 = drawnTile s /\ pool s1 = pool s /\
                    moveNumber s1 = moveNumber s /\
                    phase s1 = RESOLVE /\ winnerId s1 = winnerId s)
  end.
  { match goal with
    | |- context [commit ?q s] =>
        destruct (commit_logsOnly q s) as (H1 & H2 & H3 & H4 & H5 & H6 & H7)
    end.
    - unfold logsOnly. destruct (targetAllRevealed target _);
        repeat constructor. eexists. reflexivity.
    - simpl. tauto. }
  destruct Hs1 as (H1 & H2 & H3 & H4 & H5 & H6 & H7).
  destruct Hw as (W1 & W2 & W3 & W4 & W5 & W6).
  rewrite W1, W2, W3, W4, W5, H1, H2, H3, H4, H5.
  repeat split.
  destruct (activePlayers ps') as [|w [|w' rest]];
    first [exact W6 | rewrite <- H6, <- H7; exact W6].
Qed.

(** ** What a command does to the state *)

Lemma GamePhase_eqb_eq (a b : GamePhase) : GamePhase_eqb a b = true <-> a = b.
Proof. destruct a, b; simpl; split; intro H; try reflexivity; discriminate. Qed.

Lemma logsOnly_one (msg : string) : logsOnly [addLog msg].
Proof. repeat constructor. exists msg. reflexivity. Qed.

Lemma logsOnly_app (q1 q2 : list Updater) :
  logsOnly q1 -> logsOnly q2 -> logsOnly (q1 ++ q2).
Proof. unfold logsOnly. intros. apply Forall_app. auto. Qed.

#[local] Hint Resolve logsOnly_one logsOnly_app sameButLog_refl : core.

Lemma drawTile_transition (c : Command) (u : Q) (s s' : GameState) :
  outcomeState (exec (drawTile u s) s) = Some s' -> Transition c s s'.
Proof.
  unfold drawTile.
  destruct (GamePhase_eqb (phase s) DRAW) eqn:Hp; simpl.
  - apply GamePhase_eqb_eq in Hp.
    destruct (pop (pool s)) as [[tile newPool]|] eqn:Hpop; simpl;
      intros [= <-].
    + apply pop_Some in Hpop.
      apply (T_draw c _ _ u tile); simpl; auto.
    + apply pop_None in Hpop.
      apply T_toGuess; simpl; auto.
  - intros [= <-]. apply T_none. auto.
Qed.

Lemma continueTurn_transition (c : Command) (s s' : GameState) :
  outcomeState (exec (continueTurn s) s) = Some s' -> Transition c s s'.
Proof.
  unfold continueTurn.
  destruct (GamePhase_eqb (phase s) RESOLVE) eqn:Hp; simpl; intros [= <-].
  - apply GamePhase_eqb_eq in Hp. apply T_toGuess; simpl; auto.
  - apply T_none. auto.
Qed.

Lemma revealLog_logsOnly (b : bool) (d : option Tile) :
  logsOnly
    match d with
    | Some drawn =>
        if b then []
        else [addLog ("Revealed drawn tile: " ++ showColor (color drawn)
                      ++ " " ++ describeTile drawn)]
    | None => []
    end.
Proof.
  destruct d as [drawn|]; [destruct b|]; try constructor; auto.
  eexists. reflexivity.
Qed.

Lemma endTurn_transition (c : Command) (b : bool) (q : list Updater)
    (s s' : GameState) :
  logsOnly q ->
  outcomeState (exec (andThen q (endTurn b s)) s) = Some s' ->
  Transition c s s'.
Proof.
  intro Hq. unfold endTurn.
  pose proof (revealLog_logsOnly b (drawnTile s)) as Hlog.
  set (revealLog := match drawnTile s with Some _ => _ | None => _ end) in *.
  destruct (mergeDrawn _ _ _) as [newPlayers|] eqn:Hm; simpl.
  2:{ intros [= <-]. apply T_none. apply commit_logsOnly. auto. }
  destruct (nextPlayerIdx newPlayers _) as [nextIdx| |] eqn:Hn; simpl.
  2:{ intros [= <-]. apply T_none. apply commit_logsOnly. auto. }
  2:{ discriminate. }
  destruct (nextPlayerIdx_Exit _ _ _ Hn) as (next & Hnext & He).
  rewrite Hnext. simpl. intros [= <-].
  rewrite !commit_app. simpl.
  apply (T_endTurn c _ _ b next); simpl; auto.
  apply nth_error_In in Hnext. exact Hnext.
Qed.

Lemma andThen_nil (r : Run) : andThen [] r = r.
Proof. destruct r; reflexivity. Qed.

Lemma endTurn_transition_plain (c : Command) (b : bool) (s s' : GameState) :
  outcomeState (exec (endTurn b s) s) = Some s' -> Transition c s s'.
Proof.
  rewrite <- (andThen_nil (endTurn b s)).
  apply endTurn_transition. constructor.
Qed.

Lemma handleTileClick_Opened (s : GameState) (target : string) (i : Z)
    (m : GuessModal) :
  handleTileClick s target i = Opened m ->
  m = mkGuessModal target i /\ phase s = GUESS /\
  exists tp t, validTarget s target i tp t.
Proof.
  unfold handleTileClick.
  destruct (GamePhase_eqb (phase s) GUESS) eqn:Hp; simpl; [|discriminate].
  apply GamePhase_eqb_eq in Hp.
  destruct (findPlayer target (players s)) as [tp|] eqn:Hf; [|discriminate].
  destruct (isEliminated tp) eqn:He; [discriminate|].
  destruct (String.eqb (playerId tp) (currentTurnPlayerId s)) eqn:Hc;
    [discriminate|].
  destruct (at_ (hand tp) i) as [t|] eqn:Ht; [|discriminate].
  destruct (isRevealed t) eqn:Hr; [discriminate|].
  intros [= <-]. repeat split; auto.
  exists tp, t. unfold validTarget. repeat split; auto.
  apply findPlayer_id in Hf. destruct Hf as [Hid _].
  apply String.eqb_neq in Hc. congruence.
Qed.

Lemma guess_transition (target : string) (i v : Z) (s s' : GameState) :
  outcomeState (exec (guess target i v s) s) = Some s' ->
  Transition (CmdGuess target i v) s s'.
Proof.
  unfold guess.
  destruct (handleTileClick s target i) as [|m|] eqn:Hclick; simpl.
  - intros [= <-]. apply T_none. auto.
  - apply handleTileClick_Opened in Hclick.
    destruct Hclick as (-> & Hp & tp & t & Hvalid).
    pose proof Hvalid as (Hf & He & Hne & Ht & Hr).
    destruct (value t =? v) eqn:Hv.
    + apply Z.eqb_eq in Hv. subst v.
      destruct (submitGuess_correct s target i tp t Hf Ht)
        as (s1 & Hexec & H1 & H2 & H3 & H4 & H5 & H6).
      rewrite Hexec. simpl. intros [= <-].
      apply (T_guess _ _ _ target i tp t); auto.
    + unfold submitGuess. simpl targetPlayerId. simpl targetTileIndex.
      rewrite Hf, Ht, Hv.
      apply endTurn_transition. auto.
  - intros [= <-]. apply T_none. auto.
Qed.

Lemma handleTimeOut_transition (c : Command) (u : Q) (s s' : GameState) :
  outcomeState (exec (handleTimeOut u s) s) = Some s' -> Transition c s s'.
Proof.
  unfold handleTimeOut. destruct (drawnTile s).
  - apply endTurn_transition. auto.
  - apply drawTile_transition.
Qed.

Lemma handleDrop_transition (dragged targetTileId : string)
    (s s' : GameState) :
  outcomeState (exec (handleDrop dragged targetTileId s) s) = Some s' ->
  Transition (CmdReposition dragged targetTileId) s s'.
Proof.
  unfold handleDrop.
  destruct (String.eqb dragged targetTileId).
  { simpl. intros [= <-]. apply T_none. auto. }
  destruct (findPlayer (currentTurnPlayerId s) (players s)) as [cp|] eqn:Hcp.
  2:{ simpl. intros [= <-]. apply T_none. auto. }
  destruct (drawnTile s) as [d|] eqn:Hd.
  - destruct (tileHasId dragged d) eqn:Hid.
    + destruct (negb (isJoker d) || isPlaced d) eqn:Hok; simpl;
        intros [= <-]; [apply T_none; auto|].
      apply orb_false_iff in Hok. destruct Hok as [Hj Hpl].
      apply negb_false_iff in Hj.
      apply (T_placeDrawn _ _ _ dragged targetTileId d cp); simpl; auto.
      rewrite Hd. reflexivity.
    + destruct (find (tileHasId dragged) (hand cp)) as [obj|] eqn:Hobj.
      2:{ simpl. intros [= <-]. apply T_none. auto. }
      destruct (negb (isJoker obj) || isPlaced obj) eqn:Hok; simpl;
        intros [= <-]; [apply T_none; auto|].
      apply orb_false_iff in Hok. destruct Hok as [Hj Hpl].
      apply negb_false_iff in Hj.
      apply (T_placeInHand _ _ _ dragged targetTileId obj cp); simpl; auto.
  - destruct (find (tileHasId dragged) (hand cp)) as [obj|] eqn:Hobj.
    2:{ simpl. intros [= <-]. apply T_none. auto. }
    destruct (negb (isJoker obj) || isPlaced obj) eqn:Hok; simpl;
      intros [= <-]; [apply T_none; auto|].
    apply orb_false_iff in Hok. destruct Hok as [Hj Hpl].
    apply negb_false_iff in Hj.
    apply (T_placeInHand _ _ _ dragged targetTileId obj cp); simpl; auto.
Qed.

(** *** The bot's choice *)

Lemma at_In {A : Type} (l : list A) (i : Z) (x : A) :
  at_ l i = Some x -> In x l.
Proof.
  unfold at_. destruct (i <? 0); [discriminate|]. apply nth_error_In.
Qed.

Lemma at_of_nat {A : Type} (l : list A) (n : nat) :
  at_ l (Z.of_nat n) = nth_error l n.
Proof.
  unfold at_. destruct (Z.of_nat n <? 0) eqn:E.
  - apply Z.ltb_lt in E. lia.
  - rewrite Nat2Z.id. reflexivity.
Qed.

Lemma indexed_from_In {A : Type} (l : list A) (k : nat) (x : A) (i : Z) :
  In (x, i) (combine l (map Z.of_nat (seq k (List.length l)))) ->
  exists n, i = Z.of_nat (k + n) /\ nth_error l n = Some x.
Proof.
  revert k. induction l as [|y ys IH]; simpl; intros k H; [contradiction|].
  destruct H as [[= -> <-]|H].
  - exists O. split; [f_equal; lia|reflexivity].
  - destruct (IH _ H) as (n & -> & Hn). exists (S n).
    split; [f_equal; lia|exact Hn].
Qed.

Lemma indexed_In {A : Type} (l : list A) (x : A) (i : Z) :
  In (x, i) (indexed l) -> at_ l i = Some x.
Proof.
  unfold indexed. intro H.
  destruct (indexed_from_In l 0 x i H) as (n & -> & Hn).
  simpl. rewrite at_of_nat. exact Hn.
Qed.

Lemma NoDup_findPlayer (ps : list Player) (p : Player) :
  NoDup (map playerId ps) -> In p ps -> findPlayer (playerId p) ps = Some p.
Proof.
  unfold findPlayer.
  induction ps as [|q ps IH]; simpl; intros Hnd Hin; [contradiction|].
  inversion Hnd as [|? ? Hnotin Hnd']; subst.
  destruct (hasId (playerId p) q) eqn:Hq.
  - destruct Hin as [->|Hin]; [reflexivity|].
    exfalso. apply Hnotin. unfold hasId in Hq. apply String.eqb_eq in Hq.
    rewrite Hq. apply in_map. exact Hin.
  - destruct Hin as [->|Hin].
    + unfold hasId in Hq. rewrite String.eqb_refl in Hq. discriminate.
    + apply IH; assumption.
Qed.

(** *** Ids stay in their seats *)

Lemma revealIn_ids (target : string) (i : Z) (ps : list Player) :
  map playerId (revealIn target i ps) = map playerId ps.
Proof.
  unfold revealIn. rewrite map_map. apply map_ext.
  intro p. destruct (hasId target p); reflexivity.
Qed.

Lemma eliminateFirst_ids (target : string) (ps : list Player) :
  map playerId (eliminateFirst target ps) = map playerId ps.
Proof.
  induction ps as [|p ps IH]; simpl; [reflexivity|].
  destruct (hasId target p); simpl; [reflexivity|]. rewrite IH. reflexivity.
Qed.

Lemma afterCorrectGuess_ids (target : string) (i : Z) (ps : list Player) :
  map playerId (afterCorrectGuess target i ps) = map playerId ps.
Proof.
  unfold afterCorrectGuess. destruct (targetAllRevealed _ _).
  - rewrite eliminateFirst_ids. apply revealIn_ids.
  - apply revealIn_ids.
Qed.

Lemma setHandOf_ids (ident : string) (h : list Tile) (ps : list Player) :
  map playerId (setHandOf ident h ps) = map playerId ps.
Proof.
  unfold setHandOf. rewrite map_map. apply map_ext.
  intro p. destruct (hasId ident p); reflexivity.
Qed.

Lemma mergeDrawn_ids (current : string) (tile : option Tile)
    (ps ps' : list Player) :
  mergeDrawn current tile ps = Some ps' ->
  map playerId ps' = map playerId ps.
Proof.
  unfold mergeDrawn. destruct tile as [t|]; [|intros [= <-]; reflexivity].
  destruct (findIndex _ ps) as [i|]; [|discriminate].
  destruct (nth_error ps i) as [cp|] eqn:Hcp; [|discriminate].
  intros [= <-]. apply (replaceNth_map playerId i _ cp); auto.
Qed.

Lemma findIndex_ids (c : string) (ps ps' : list Player) :
  map playerId ps = map playerId ps' ->
  findIndex (hasId c) ps = findIndex (hasId c) ps'.
Proof.
  revert ps'. induction ps as [|p ps IH]; intros [|p' ps']; simpl;
    intro H; try discriminate; [reflexivity|].
  injection H as Hp Hrest. unfold hasId at 1 3. rewrite Hp.
  rewrite (IH _ Hrest). reflexivity.
Qed.

Lemma findPlayer_None_ids (c : string) (ps ps' : list Player) :
  map playerId ps = map playerId ps' ->
  findPlayer c ps = None -> findPlayer c ps' = None.
Proof.
  intros Hids Hf. unfold findPlayer in *.
  apply findIndex_None. rewrite <- (findIndex_ids c ps ps' Hids).
  destruct (findIndex (hasId c) ps) as [i|] eqn:Hi; [|reflexivity].
  rewrite (findIndex_find _ _ _ Hi) in Hf.
  destruct (findIndex_Some _ _ _ Hi) as (x & Hx & _). congruence.
Qed.

Lemma mergeDrawn_None (current : string) (tile : option Tile)
    (ps : list Player) :
  mergeDrawn current tile ps = None -> findPlayer current ps = None.
Proof.
  unfold mergeDrawn. destruct tile as [t|]; [|discriminate].
  destruct (findIndex (hasId current) ps) as [i|] eqn:Hi.
  - destruct (findIndex_Some _ _ _ Hi) as (x & -> & _). discriminate.
  - intros _. apply findIndex_None. exact Hi.
Qed.

Lemma getNextPlayerId_NextIs (ps : list Player) (current ident : string) :
  getNextPlayerId ps current = NextIs ident ->
  exists next, In next ps /\ isEliminated next = false /\
               playerId next = ident.
Proof.
  unfold getNextPlayerId.
  destruct (nextPlayerIdx ps _) as [idx| |] eqn:Hn; try discriminate.
  destruct (nextPlayerIdx_Exit _ _ _ Hn) as (next & Hnext & He).
  rewrite Hnext. intros [= <-]. exists next. repeat split; auto.
  apply nth_error_In in Hnext. exact Hnext.
Qed.

Lemma executeBotMove_transition (c : Command) (j : bool) (u1 u2 u3 u4 : Q)
    (s s' : GameState) :
  NoDup (map playerId (players s)) ->
  outcomeState (exec (executeBotMove j u1 u2 u3 u4 s) s) = Some s' ->
  Transition c s s'.
Proof.
  intro Hnd. unfold executeBotMove.
  destruct (phase s) eqn:Hp;
    try (simpl; intros [= <-]; apply T_none; auto; fail).
  - apply drawTile_transition.
  - set (opponents := filter _ (players s)).
    destruct opponents as [|o os] eqn:Hopp.
    { simpl. intros [= <-]. apply T_none. auto. }
    rewrite <- Hopp.
    destruct (at_ opponents _) as [target|] eqn:Htarget.
    2:{ simpl. intros [= <-]. apply T_none. auto. }
    apply at_In in Htarget. unfold opponents in Htarget.
    apply filter_In in Htarget. destruct Htarget as [Hin Htarget].
    apply andb_true_iff in Htarget. destruct Htarget as [Hnc He].
    apply negb_true_iff in Hnc, He.
    set (hiddenTiles := filter _ (indexed (hand target))).
    destruct hiddenTiles as [|h hs] eqn:Hhid.
    { simpl. intros [= <-]. apply T_none. auto. }
    rewrite <- Hhid.
    destruct (at_ hiddenTiles _) as [[targetTile i]|] eqn:Htile.
    2:{ simpl. intros [= <-]. apply T_none. auto. }
    apply at_In in Htile. unfold hiddenTiles in Htile.
    apply filter_In in Htile. destruct Htile as [Hidx Hr].
    apply indexed_In in Hidx. simpl in Hr. apply negb_true_iff in Hr.
    assert (Hvalid : validTarget s (playerId target) i target targetTile).
    { unfold validTarget. repeat split; auto.
      - apply NoDup_findPlayer; assumption.
      - unfold hasId in Hnc. apply String.eqb_neq in Hnc. exact Hnc. }
    destruct (match at_ (possibleValues j) _ with Some _ => _ | None => _ end).
    2:{ apply endTurn_transition. auto. }
    set (newPlayers := afterCorrectGuess (playerId target) i (players s)).
    destruct (mergeDrawn (currentTurnPlayerId s) (drawnTile s) newPlayers)
      as [fp|] eqn:Hm.
    + destruct (getNextPlayerId fp _) as [nextId| |] eqn:Hnext;
        unfold exec, outcomeState.
      2:{ intros [= <-]. apply T_none.
          apply (commit_logsOnly [addLog "Bot guessed correctly!"]). auto. }
      2:{ discriminate. }
      * destruct (getNextPlayerId_NextIs _ _ _ Hnext)
          as (next & Hnin & Hne & Hnid).
        intros [= <-].
        match goal with
        | |- context [commit (checkWinner fp) ?s1] =>
            pose proof (checkWinner_commit fp s1) as Hw;
            set (s2 := commit (checkWinner fp) s1) in *
        end.
        simpl in Hw. destruct Hw as (W1 & W2 & W3 & W4 & W5 & W6).
        apply (T_botGuess c _ _ (playerId target) i target targetTile next);
          auto; try congruence.
        -- fold newPlayers. rewrite W1. exact Hm.
        -- unfold winnerCheck. rewrite W1.
           destruct (activePlayers fp) as [|w [|w' rest]]; exact W6.
    + apply mergeDrawn_None in Hm.
      assert (Hlost : findPlayer (currentTurnPlayerId s) (players s) = None).
      { apply (findPlayer_None_ids _ newPlayers); [|exact Hm].
        apply afterCorrectGuess_ids. }
      destruct (getNextPlayerId newPlayers _); simpl; try discriminate;
        intros _; apply T_lost; exact Hlost.
  - apply endTurn_transition_plain.
Qed.

(** Every command that leaves a state is one of the transitions. *)
Lemma step_transition (c : Command) (s s' : GameState) :
  NoDup (map playerId (players s)) ->
  outcomeState (step c s) = Some s' ->
  Transition c s s'.
Proof.
  intro Hnd. unfold step. destruct c; simpl dispatch.
  - apply drawTile_transition.
  - apply guess_transition.
  - apply continueTurn_transition.
  - apply endTurn_transition_plain.
  - apply handleDrop_transition.
  - apply executeBotMove_transition. exact Hnd.
  - apply handleTimeOut_transition.
Qed.

(** ** Seats: who sits where and who is out *)

Lemma seats_ids (ps ps' : list Player) :
  seats ps = seats ps' -> map playerId ps = map playerId ps'.
Proof.
  unfold seats. intro H.
  apply (f_equal (map fst)) in H. rewrite !map_map in H. exact H.
Qed.

Lemma seats_activeIds (ps ps' : list Player) :
  seats ps = seats ps' -> activeIds ps = activeIds ps'.
Proof.
  unfold seats, activeIds, activePlayers.
  revert ps'. induction ps as [|p ps IH]; intros [|p' ps']; simpl;
    intro H; try discriminate; [reflexivity|].
  injection H as Hid He Hrest. rewrite He.
  destruct (isEliminated p'); simpl; rewrite (IH _ Hrest); congruence.
Qed.

Lemma activeIds_app (l1 l2 : list Player) :
  activeIds (l1 ++ l2) = (activeIds l1 ++ activeIds l2)%list.
Proof.
  unfold activeIds, activePlayers. rewrite filter_app, map_app. reflexivity.
Qed.

Lemma activeIds_length (ps : list Player) :
  List.length (activeIds ps) = List.length (activePlayers ps).
Proof. unfold activeIds. apply length_map. Qed.

Lemma In_seats_active (ps : list Player) (c : string) :
  In (c, false) (seats ps) <-> In c (activeIds ps).
Proof.
  unfold seats, activeIds, activePlayers. rewrite !in_map_iff. split.
  - intros (p & [= Hid He] & Hin). exists p. split; [exact Hid|].
    apply filter_In. rewrite He. auto.
  - intros (p & Hid & Hin). apply filter_In in Hin. destruct Hin as [Hin He].
    apply negb_true_iff in He. exists p. rewrite Hid, He. auto.
Qed.

Lemma In_seats_findPlayer (ps : list Player) (c : string) (b : bool) :
  In (c, b) (seats ps) -> exists cp, findPlayer c ps = Some cp.
Proof.
  unfold seats. rewrite in_map_iff. intros (p & [= Hid _] & Hin).
  unfold findPlayer. destruct (find (hasId c) ps) as [cp|] eqn:Hf.
  - exists cp. reflexivity.
  - exfalso. apply (find_none _ _ Hf) in Hin.
    unfold hasId in Hin. rewrite Hid, String.eqb_refl in Hin. discriminate.
Qed.

Lemma NoDup_same_id (ps : list Player) (p q : Player) :
  NoDup (map playerId ps) -> In p ps -> In q ps ->
  playerId p = playerId q -> p = q.
Proof.
  intros Hnd Hp Hq Hid.
  pose proof (NoDup_findPlayer ps p Hnd Hp) as H1.
  pose proof (NoDup_findPlayer ps q Hnd Hq) as H2.
  rewrite Hid in H1. congruence.
Qed.

Lemma setHandOf_seats (ident : string) (h : list Tile) (ps : list Player) :
  seats (setHandOf ident h ps) = seats ps.
Proof.
  unfold seats, setHandOf. rewrite map_map. apply map_ext.
  intro p. destruct (hasId ident p); reflexivity.
Qed.

Lemma mergeDrawn_seats (current : string) (tile : option Tile)
    (ps ps' : list Player) :
  mergeDrawn current tile ps = Some ps' -> seats ps' = seats ps.
Proof.
  unfold mergeDrawn. destruct tile as [t|]; [|intros [= <-]; reflexivity].
  destruct (findIndex _ ps) as [i|]; [|discriminate].
  destruct (nth_error ps i) as [cp|] eqn:Hcp; [|discriminate].
  intros [= <-]. unfold seats.
  apply (replaceNth_map _ i _ cp); auto.
Qed.

(** A player after the merge is a player from before, or the player
    that got the tile. *)
Lemma mergeDrawn_In (current : string) (tile : option Tile)
    (ps ps' : list Player) (p' : Player) :
  mergeDrawn current tile ps = Some ps' -> In p' ps' ->
  In p' ps \/
  exists t cp, tile = Some t /\ In cp ps /\
               p' = setHand (sortHand (hand cp ++ [t])%list) cp.
Proof.
  unfold mergeDrawn. destruct tile as [t|]; [|intros [= <-]; auto].
  destruct (findIndex _ ps) as [i|]; [|discriminate].
  destruct (nth_error ps i) as [cp|] eqn:Hcp; [|discriminate].
  intros [= <-] Hin. apply replaceNth_In in Hin.
  destruct Hin as [->|Hin]; [right|left; exact Hin].
  exists t, cp. repeat split. apply nth_error_In in Hcp. exact Hcp.
Qed.

Lemma forallb_perm {A : Type} (f : A -> bool) (l l' : list A) :
  Permutation l l' -> forallb f l = forallb f l'.
Proof.
  intro H. induction H; simpl; try congruence.
  destruct (f x), (f y); reflexivity.
Qed.

Lemma allRevealed_merged (cp : Player) (t : Tile) :
  allRevealed (setHand (sortHand (hand cp ++ [t])%list) cp) = true ->
  allRevealed cp = true.
Proof.
  unfold allRevealed. simpl.
  rewrite <- (forallb_perm _ _ _ (sortHand_perm _)), forallb_app.
  intro H. apply andb_true_iff in H. tauto.
Qed.

Lemma placeInHand_revealed (dragged : string) (q : Q) (h : list Tile) :
  forallb isRevealed (placeInHand dragged q h) = forallb isRevealed h.
Proof.
  unfold placeInHand. induction h as [|t h IH]; simpl; [reflexivity|].
  rewrite IH. destruct (tileHasId dragged t); reflexivity.
Qed.

(** ** Invariants of the players *)

Lemma activeIds_cons (p : Player) (l : list Player) :
  activeIds (p :: l)
    = if isEliminated p then activeIds l else playerId p :: activeIds l.
Proof.
  unfold activeIds, activePlayers. simpl.
  destruct (isEliminated p); reflexivity.
Qed.

Lemma In_length_pos {A : Type} (x : A) (l : list A) :
  In x l -> (1 <= List.length l)%nat.
Proof. destruct l; simpl; [contradiction|lia]. Qed.

Lemma guess_split (ps : list Player) (target : string) (i : Z)
    (tp : Player) (t : Tile) :
  NoDup (map playerId ps) ->
  findPlayer target ps = Some tp ->
  isEliminated tp = false ->
  at_ (hand tp) i = Some t ->
  exists l1 l2,
    ps = (l1 ++ tp :: l2)%list /\
    afterCorrectGuess target i ps = (l1 ++ guessedTarget tp i t :: l2)%list.
Proof.
  intros Hnd Hf He Ht.
  destruct (findPlayer_split _ _ _ Hf Hnd) as (l1 & l2 & -> & Hrest).
  exists l1, l2. split; [reflexivity|].
  apply afterCorrectGuess_split; auto.
  apply findPlayer_id in Hf. destruct Hf as [Hid _].
  unfold hasId. rewrite Hid. apply String.eqb_refl.
Qed.

Lemma afterGuess_facts (ps : list Player) (current target : string) (i : Z)
    (tp : Player) (t : Tile) :
  NoDup (map playerId ps) ->
  findPlayer target ps = Some tp ->
  isEliminated tp = false ->
  at_ (hand tp) i = Some t ->
  target <> current ->
  In (current, false) (seats ps) ->
  (forall p, In p ps -> allRevealed p = true -> isEliminated p = true) ->
  let ps' := afterCorrectGuess target i ps in
  In (current, false) (seats ps') /\
  (forall p, In p ps' -> allRevealed p = true -> isEliminated p = true) /\
  (2 <= List.length (activeIds ps))%nat /\
  (1 <= List.length (activeIds ps'))%nat.
Proof.
  intros Hnd Hf He Ht Hne Hcur Hrev ps'.
  destruct (guess_split ps target i tp t Hnd Hf He Ht)
    as (l1 & l2 & Hps & Hps').
  fold ps' in Hps'. rewrite Hps'.
  apply findPlayer_id in Hf. destruct Hf as [Hid _].
  assert (Hcur' : In (current, false) (seats l1) \/
                  In (current, false) (seats l2)).
  { rewrite Hps in Hcur. unfold seats in Hcur |- *.
    rewrite map_app in Hcur. apply in_app_or in Hcur.
    destruct Hcur as [H|[H|H]]; auto.
    injection H as H _. congruence. }
  assert (Hact : In current (activeIds l1 ++ activeIds l2)%list).
  { apply in_or_app.
    destruct Hcur' as [H|H]; [left|right]; apply In_seats_active; exact H. }
  repeat split.
  - unfold seats. rewrite map_app. simpl. apply in_or_app.
    destruct Hcur' as [H|H]; [left|right; right]; exact H.
  - intros p Hp Hall. apply in_app_or in Hp.
    destruct Hp as [Hp|[<-|Hp]].
    + apply Hrev; [rewrite Hps; apply in_or_app; auto|exact Hall].
    + unfold allRevealed, guessedTarget in *. simpl in *. exact Hall.
    + apply Hrev; [rewrite Hps; apply in_or_app; simpl; auto|exact Hall].
  - rewrite Hps, activeIds_app, activeIds_cons, He, length_app. simpl.
    pose proof (In_length_pos _ _ Hact) as Hpos.
    rewrite length_app in Hpos. lia.
  - rewrite activeIds_app, activeIds_cons, length_app.
    pose proof (In_length_pos _ _ Hact) as Hpos.
    rewrite length_app in Hpos.
    destruct (isEliminated (guessedTarget tp i t)); simpl; lia.
Qed.

Lemma winnerCheck_agrees (ps : list Player) (quiet : GamePhase)
    (s s' : GameState) :
  winnerCheck ps quiet s s' ->
  seats (players s') = seats ps ->
  winnerId s = None ->
  (1 <= List.length (activeIds ps))%nat ->
  winnerAgrees s'.
Proof.
  unfold winnerCheck, winnerAgrees. intros Hw Hseats Hnone Hone.
  rewrite (seats_activeIds _ _ Hseats).
  unfold activeIds in *.
  destruct (activePlayers ps) as [|w [|w' rest]]; destruct Hw as [_ ->];
    simpl in *; try rewrite Hnone; try reflexivity; lia.
Qed.

Lemma winnerAgrees_two (s : GameState) :
  winnerAgrees s ->
  (2 <= List.length (activeIds (players s)))%nat ->
  winnerId s = None.
Proof.
  unfold winnerAgrees. destruct (winnerId s) as [w|]; [|reflexivity].
  intros -> H. simpl in H. lia.
Qed.

Lemma winnerAgrees_same (s s' : GameState) :
  players s' = players s -> winnerId s' = winnerId s ->
  winnerAgrees s -> winnerAgrees s'.
Proof. unfold winnerAgrees. intros -> ->. auto. Qed.

Lemma winnerAgrees_seats (s s' : GameState) :
  seats (players s') = seats (players s) -> winnerId s' = winnerId s ->
  winnerAgrees s -> winnerAgrees s'.
Proof.
  unfold winnerAgrees. intros Hs ->. rewrite (seats_activeIds _ _ Hs). auto.
Qed.

(** After the merge, a fully revealed hand still means an eliminated
    player. *)
Lemma mergeDrawn_revealed (current : string) (tile : option Tile)
    (ps ps' : list Player) :
  mergeDrawn current tile ps = Some ps' ->
  (forall p, In p ps -> allRevealed p = true -> isEliminated p = true) ->
  forall p, In p ps' -> allRevealed p = true -> isEliminated p = true.
Proof.
  intros Hm Hrev p Hp Hall.
  destruct (mergeDrawn_In _ _ _ _ _ Hm Hp) as [Hin|(t & cp & _ & Hcp & ->)].
  - apply Hrev; assumption.
  - simpl. apply Hrev; [exact Hcp|].
    apply (allRevealed_merged cp t Hall).
Qed.

Lemma playersInv_step (c : Command) (s s' : GameState) :
  playersInv s -> Transition c s s' -> playersInv s'.
Proof.
  intros (Hnd & Hcur & Hrev & Hwin & Hdraw) Ht.
  destruct Ht as
    [ (E1 & E2 & E3 & E4 & E5 & E6 & E7)
    | Hlost
    | Hfrom Hph E1 E2 E3 E4 E5 E6
    | u tile Hph Hpool Hdrawn Hph' E1 E2 E5 E6
    | target i tp t Hc Hph (Hf & He & Hne & Hat & Hr) Hps Hw E2 E3 E4 E6
    | target i tp t next Hph (Hf & He & Hne & Hat & Hr) Hm Hw Hnin Hnel
        Hnext E3 E4 E6
    | b next Hm Hnin Hnel Hnext E3 Hph E4 E5 E6
    | dragged tid d cp Hc Hd Hid Hj Hpl Hcp Hd' E1 E2 E4 Hph E5 E6
    | dragged tid obj cp Hc Hcp Hobj Hj Hpl Hps E3 E2 E4 Hph E5 E6 ].
  - (* nothing but the log *)
    unfold playersInv. rewrite E1, E2, E3, E5. repeat split; auto.
    apply (winnerAgrees_same s); auto.
  - (* the acting player is in the game *)
    destruct (In_seats_findPlayer _ _ _ Hcur) as (cp & Hcp). congruence.
  - unfold playersInv. rewrite E1, E2, Hph. repeat split; auto.
    + apply (winnerAgrees_same s); auto.
    + discriminate.
  - unfold playersInv. rewrite E1, E2, Hph'. repeat split; auto.
    + apply (winnerAgrees_same s); auto.
    + discriminate.
  - (* a correct guess *)
    destruct (afterGuess_facts (players s) (currentTurnPlayerId s) target i
                tp t Hnd Hf He Hat Hne Hcur Hrev) as (G1 & G2 & G3 & G4).
    unfold playersInv. rewrite Hps, E2. repeat split; auto.
    + rewrite afterCorrectGuess_ids. exact Hnd.
    + apply (winnerCheck_agrees (players s') RESOLVE s); auto.
      * apply winnerAgrees_two; assumption.
      * rewrite Hps. exact G4.
    + intro Hd. exfalso. unfold winnerCheck in Hw.
      destruct (activePlayers (players s')) as [|w [|w' rest]];
        destruct Hw as [Hw _]; congruence.
  - (* a correct guess of the bot *)
    destruct (afterGuess_facts (players s) (currentTurnPlayerId s) target i
                tp t Hnd Hf He Hat Hne Hcur Hrev) as (G1 & G2 & G3 & G4).
    pose proof (mergeDrawn_seats _ _ _ _ Hm) as Hseats.
    unfold playersInv. repeat split; auto.
    + rewrite (mergeDrawn_ids _ _ _ _ Hm), afterCorrectGuess_ids. exact Hnd.
    + rewrite Hnext. unfold seats. apply in_map_iff. exists next.
      rewrite Hnel. auto.
    + apply (mergeDrawn_revealed _ _ _ _ Hm). exact G2.
    + apply (winnerCheck_agrees (players s') DRAW s); auto.
      * apply winnerAgrees_two; assumption.
      * rewrite (seats_activeIds _ _ Hseats). exact G4.
  - (* the end of a turn *)
    pose proof (mergeDrawn_seats _ _ _ _ Hm) as Hseats.
    unfold playersInv. repeat split; auto.
    + rewrite (mergeDrawn_ids _ _ _ _ Hm). exact Hnd.
    + rewrite Hnext. unfold seats. apply in_map_iff. exists next.
      rewrite Hnel. auto.
    + apply (mergeDrawn_revealed _ _ _ _ Hm). exact Hrev.
    + apply (winnerAgrees_seats s); auto.
  - (* the drawn joker is placed *)
    unfold playersInv. rewrite E1, E2, Hph. repeat split; auto.
    + apply (winnerAgrees_same s); auto.
    + intro H. rewrite (Hdraw H) in Hd. discriminate.
  - (* a joker of the hand is placed *)
    unfold playersInv. rewrite Hps, E2, E3, Hph. repeat split; auto.
    + rewrite setHandOf_ids. exact Hnd.
    + rewrite setHandOf_seats. exact Hcur.
    + intros p Hp Hall. unfold setHandOf in Hp. apply in_map_iff in Hp.
      destruct Hp as (p0 & <- & Hp0).
      destruct (hasId (playerId cp) p0) eqn:Hid.
      * simpl. unfold allRevealed in Hall. simpl in Hall.
        rewrite <- (forallb_perm _ _ _ (sortHand_perm _)) in Hall.
        rewrite placeInHand_revealed in Hall.
        apply findPlayer_id in Hcp. destruct Hcp as [_ Hcp].
        assert (p0 = cp).
        { apply (NoDup_same_id (players s)); auto.
          unfold hasId in Hid. apply String.eqb_eq. exact Hid. }
        subst p0. apply Hrev; assumption.
      * apply Hrev; assumption.
    + apply (winnerAgrees_seats s); auto.
      rewrite Hps. apply setHandOf_seats.
Qed.

(** ** The start of a game *)

Lemma createInitialTiles_fresh (j : bool) :
  Forall freshTile (createInitialTiles j).
Proof.
  destruct j; repeat constructor; simpl; discriminate.
Qed.

Lemma createInitialTiles_ids (j : bool) :
  NoDup (map tileId (createInitialTiles j)).
Proof.
  destruct j; vm_compute;
    repeat (constructor; [simpl; intuition discriminate|]); constructor.
Qed.

Lemma createInitialTiles_length (j : bool) :
  (24 <= List.length (createInitialTiles j))%nat.
Proof. destruct j; simpl; lia. Qed.

Lemma sortHand_Forall (P : Tile -> Prop) (l : list Tile) :
  Forall P l -> Forall P (sortHand l).
Proof.
  intro H. apply (Permutation_Forall (sortHand_perm l)). exact H.
Qed.

Lemma sortHand_ids (l : list Tile) :
  Permutation (map tileId (sortHand l)) (map tileId l).
Proof. apply Permutation_map. apply Permutation_sym. apply sortHand_perm. Qed.

Lemma dealPlayers_spec (n : nat) :
  forall i details tpp pool rnd ps rest,
    dealPlayers n i details tpp pool rnd = Some (ps, rest) ->
    Forall freshTile pool ->
    seats ps = map (fun k => (playerIdOf k, false)) (seq i n) /\
    Forall (fun p => Forall freshTile (hand p)) ps /\
    Forall freshTile rest /\
    ((n * tpp <= List.length pool)%nat -> (0 < tpp)%nat ->
     Forall (fun p => hand p <> []) ps) /\
    Permutation (map tileId (List.concat (map hand ps) ++ rest))
                (map tileId pool).
Proof.
  induction n as [|n IH]; simpl; intros i details tpp pool rnd ps rest Hd Hf.
  - injection Hd as <- <-. repeat split; auto.
  - destruct (nth_error details i) as [d|]; [|discriminate].
    destruct (dealPlayers n (S i) details tpp (skipn tpp pool) rnd)
      as [[ps0 rest0]|] eqn:Hrec; [|discriminate].
    injection Hd as <- <-.
    assert (Hskip : Forall freshTile (skipn tpp pool)).
    { rewrite <- (firstn_skipn tpp pool) in Hf.
      apply Forall_app in Hf. tauto. }
    assert (Hfirst : Forall freshTile (firstn tpp pool)).
    { rewrite <- (firstn_skipn tpp pool) in Hf.
      apply Forall_app in Hf. tauto. }
    destruct (IH _ _ _ _ _ _ _ Hrec Hskip) as (S1 & S2 & S3 & S4 & S5).
    set (dealt := map (setOwner (Some (playerIdOf i))) (firstn tpp pool)).
    set (h := if cfgIsBot d
              then map (fun t => if isJoker t
                                 then setSortValue (rnd (tileId t) * 12) t
                                 else t) dealt
              else dealt).
    assert (Hids : map tileId h = map tileId (firstn tpp pool)).
    { unfold h, dealt. destruct (cfgIsBot d); rewrite !map_map;
        apply map_ext; intro t; simpl; [destruct (isJoker t)|]; reflexivity. }
    assert (Hfresh : Forall freshTile h).
    { unfold h, dealt. destruct (cfgIsBot d);
        rewrite ?Forall_map; eapply Forall_impl; try exact Hfirst;
        intros t (F1 & F2 & F3); simpl; [destruct (isJoker t) eqn:Hj|];
        unfold freshTile; simpl; repeat split; auto.
      rewrite Hj. discriminate. }
    repeat split.
    + simpl. rewrite S1. reflexivity.
    + constructor; [|exact S2]. simpl. apply sortHand_Forall. exact Hfresh.
    + exact S3.
    + intros Hlen Hpos. constructor.
      * simpl. intro Hnil.
        assert (Hl : List.length (map tileId (sortHand h)) = tpp).
        { rewrite (Permutation_length (sortHand_ids h)), Hids, length_map.
          apply firstn_length_le. lia. }
        rewrite Hnil in Hl. simpl in Hl. lia.
      * apply S4; [|exact Hpos]. rewrite length_skipn. lia.
    + simpl. rewrite <- app_assoc, map_app.
      replace (map tileId pool)
        with (map tileId (firstn tpp pool)
              ++ map tileId (skipn tpp pool))%list
        by (rewrite <- map_app, firstn_skipn; reflexivity).
      apply Permutation_app.
      * rewrite <- Hids. apply sortHand_ids.
      * exact S5.
Qed.

Lemma activeIds_all (ps : list Player) (ids : list string) :
  seats ps = map (fun ident => (ident, false)) ids -> activeIds ps = ids.
Proof.
  revert ids. induction ps as [|p ps IH]; intros [|ident ids]; simpl;
    intro H; try discriminate; [reflexivity|].
  injection H as Hid He Hrest. rewrite activeIds_cons, He, Hid.
  rewrite (IH _ Hrest). reflexivity.
Qed.

Lemma playerIdOf_NoDup (n : nat) :
  (n <= 4)%nat -> NoDup (map playerIdOf (seq 0 n)).
Proof.
  intro H.
  assert (Hn : (n = 0 \/ n = 1 \/ n = 2 \/ n = 3 \/ n = 4)%nat) by lia.
  destruct Hn as [E|[E|[E|[E|E]]]]; subst n; vm_compute;
    repeat (constructor; [simpl; intuition discriminate|]); constructor.
Qed.

Lemma fresh_hand_hidden (h : list Tile) :
  h <> [] -> Forall freshTile h -> forallb isRevealed h = false.
Proof.
  destruct h as [|t h]; [congruence|]. intros _ Hf.
  inversion Hf as [|? ? (Hr & _) _]; subst. simpl. rewrite Hr. reflexivity.
Qed.

Lemma tilesPerPlayer_enough (n : nat) (deck : list Tile) :
  (2 <= n <= 4)%nat -> (24 <= List.length deck)%nat ->
  let tpp := if (n =? 4)%nat then 3%nat else 4%nat in
  (n * tpp <= List.length deck)%nat /\ (0 < tpp)%nat.
Proof.
  intros Hn Hlen. destruct (n =? 4)%nat eqn:E; simpl.
  - apply Nat.eqb_eq in E. lia.
  - apply Nat.eqb_neq in E. lia.
Qed.

Lemma startGame_playersInv (cfg : GameConfig) (shuffled : list Tile)
    (rnd : string -> Q) (s : GameState) :
  validConfig cfg ->
  Permutation shuffled (createInitialTiles (includeJokers cfg)) ->
  startGame cfg shuffled rnd = Some s ->
  playersInv s.
Proof.
  intros [Hn Hdet] Hperm. unfold startGame.
  destruct (dealPlayers _ _ _ _ _ _) as [[[|first others] rest]|] eqn:Hdeal;
    try discriminate.
  intros [= <-].
  assert (Hfresh : Forall freshTile shuffled).
  { apply (Permutation_Forall (Permutation_sym Hperm)).
    apply createInitialTiles_fresh. }
  assert (Hlen : (24 <= List.length shuffled)%nat).
  { rewrite (Permutation_length Hperm). apply createInitialTiles_length. }
  destruct (dealPlayers_spec _ _ _ _ _ _ _ _ Hdeal Hfresh)
    as (S1 & S2 & _ & S4 & _).
  destruct (tilesPerPlayer_enough _ _ Hn Hlen) as [Henough Hpos].
  specialize (S4 Henough Hpos).
  assert (Hseats : seats (first :: others)
                   = map (fun ident => (ident, false))
                         (map playerIdOf (seq 0 (playerCount cfg)))).
  { rewrite S1, map_map. reflexivity. }
  unfold playersInv. simpl. repeat split.
  - change (playerId first :: map playerId others)
      with (map playerId (first :: others)).
    assert (Hids : map playerId (first :: others)
                   = map playerIdOf (seq 0 (playerCount cfg))).
    { apply (f_equal (map fst)) in Hseats. unfold seats in Hseats.
      rewrite !map_map in Hseats. exact Hseats. }
    rewrite Hids. apply playerIdOf_NoDup. lia.
  - left. destruct (playerCount cfg) as [|n]; [lia|].
    simpl in Hseats. injection Hseats as _ He _. rewrite He. reflexivity.
  - intros p Hp Hall. exfalso.
    rewrite Forall_forall in S2, S4.
    unfold allRevealed in Hall.
    rewrite (fresh_hand_hidden (hand p) (S4 p Hp) (S2 p Hp)) in Hall.
    discriminate.
  - unfold winnerAgrees. simpl. rewrite (activeIds_all _ _ Hseats).
    rewrite length_map, length_seq. lia.
Qed.

(** ** Reachable states *)

Lemma reachable_playersInv (s : GameState) : reachable s -> playersInv s.
Proof.
  induction 1 as [cfg shuffled rnd s Hcfg Hperm Hstart|c s s' _ IH Hstep].
  - apply (startGame_playersInv cfg shuffled rnd); assumption.
  - apply (playersInv_step c s); [exact IH|].
    apply step_transition; [|exact Hstep]. apply IH.
Qed.


(** C9: a draw in the Draw phase on an empty pool returns, without an
    error, a state in the Guess phase with the pool, the players and the
    drawn-tile slot as they were; in a reachable state the slot was empty
    and stays empty. *)
Theorem drawTile_empty_pool (u : Q) (s : GameState) :
  phase s = DRAW ->
  pool s = [] ->
  exists s',
    step (CmdDraw u) s = Ok s' /\
    phase s' = GUESS /\
    drawnTile s' = drawnTile s /\
    pool s' = pool s /\
    players s' = players s /\
    currentTurnPlayerId s' = currentTurnPlayerId s /\
    (reachable s -> drawnTile s' = None).
Proof.
  intros Hp Hpool.
  exists (addLog "Pool empty. Proceed to guess." (setPhase GUESS s)).
  split.
  - unfold step, dispatch, drawTile. rewrite Hp, Hpool. reflexivity.
  - simpl. repeat split.
    intro Hs. apply (reachable_playersInv s Hs). exact Hp.
Qed.

Lemma drawTile_empty_pool_witness :
  exists s',
    step (CmdDraw 0) poolEmptied = Ok s' /\
    phase s' = GUESS /\
    drawnTile s' = None /\
    pool s' = [] /\
    players s' = players poolEmptied.
Proof.
  destruct (drawTile_empty_pool 0 poolEmptied eq_refl eq_refl)
    as (s' & H1 & H2 & H3 & H4 & H5 & H6 & H7).
  exists s'. split; [exact H1|]. split; [exact H2|].
  split; [|split; [exact H4|exact H5]].
  apply H7. exact reachable_poolEmptied.
Defined.

(** ** Correct guesses *)

Lemma handleTileClick_valid (s : GameState) (target : string) (i : Z)
    (tp : Player) (t : Tile) :
  phase s = GUESS -> validTarget s target i tp t ->
  handleTileClick s target i = Opened (mkGuessModal target i).
Proof.
  intros Hp (Hf & He & Hne & Hat & Hr). unfold handleTileClick.
  rewrite Hp, Hf, He, Hat, Hr. simpl.
  apply findPlayer_id in Hf. destruct Hf as [Hid _]. rewrite Hid.
  apply String.eqb_neq in Hne. rewrite Hne. reflexivity.
Qed.

(** C2, as stated, fails: the human guesses the one hidden tile of
    [p-1] right and the game is over, not in Resolve; the bot guesses a
    tile of [p-0] right and the phase is Draw, the turn has passed. *)
Lemma correct_guess_not_resolve :
  (reachable lastTileHidden /\ phase lastTileHidden = GUESS /\
   (exists tp t, validTarget lastTileHidden "p-1" 3 tp t /\ value t = 3) /\
   exists s', step (CmdGuess "p-1" 3 3) lastTileHidden = Ok s' /\
              phase s' = GAME_OVER /\ phase s' <> RESOLVE) /\
  (reachable botToGuess /\ phase botToGuess = GUESS /\
   currentTurnPlayerId botToGuess = "p-1" /\
   (exists tp t, validTarget botToGuess "p-0" 0 tp t /\ value t = 0) /\
   exists s', step (CmdBot false 0 0 0 0) botToGuess = Ok s' /\
              phase s' = DRAW /\ phase s' <> RESOLVE /\
              currentTurnPlayerId s' = "p-0" /\
              isRevealed (nth 0 (hand (nth 0 (players s') nobody))
                              blankTile) = true).
Proof.
  split.
  - split; [exact reachable_lastTileHidden|]. split; [reflexivity|]. split.
    + do 2 eexists. unfold validTarget. simpl.
      repeat split; try reflexivity. discriminate.
    + eexists. split; [vm_compute; reflexivity|].
      split; [reflexivity|discriminate].
  - split; [exact reachable_botToGuess|].
    split; [reflexivity|]. split; [reflexivity|]. split.
    + do 2 eexists. unfold validTarget. simpl.
      repeat split; try reflexivity. discriminate.
    + eexists. split; [vm_compute; reflexivity|].
      repeat split; try reflexivity. discriminate.
Qed.

(** ** Tiles *)

Lemma tileIds_unfold (s : GameState) :
  tileIds s
    = (handIds (players s) ++ map tileId (slot (drawnTile s))
       ++ map tileId (pool s))%list.
Proof.
  unfold tileIds, allTiles, handIds. fold (slot (drawnTile s)).
  rewrite !map_app. reflexivity.
Qed.

Lemma handIds_app (l1 l2 : list Player) :
  handIds (l1 ++ l2) = (handIds l1 ++ handIds l2)%list.
Proof. unfold handIds. rewrite map_app, concat_app, map_app. reflexivity. Qed.

Lemma handIds_cons (p : Player) (l : list Player) :
  handIds (p :: l) = (map tileId (hand p) ++ handIds l)%list.
Proof. unfold handIds. simpl. rewrite map_app. reflexivity. Qed.

Lemma at_nth_error {A : Type} (l : list A) (i : Z) (x : A) :
  at_ l i = Some x -> nth_error l (Z.to_nat i) = Some x.
Proof. unfold at_. destruct (i <? 0); [discriminate|auto]. Qed.

Lemma revealAt_ids (i : Z) (h : list Tile) :
  map tileId (revealAt i h) = map tileId h.
Proof.
  unfold revealAt. destruct (at_ h i) as [t|] eqn:Ht; [|reflexivity].
  apply (replaceNth_map tileId _ _ t); [|reflexivity].
  apply at_nth_error. exact Ht.
Qed.

Lemma handIds_revealIn (target : string) (i : Z) (ps : list Player) :
  handIds (revealIn target i ps) = handIds ps.
Proof.
  induction ps as [|p ps IH]; [reflexivity|].
  unfold revealIn in *. simpl. rewrite !handIds_cons, IH. f_equal.
  destruct (hasId target p); [apply revealAt_ids|reflexivity].
Qed.

Lemma handIds_eliminateFirst (target : string) (ps : list Player) :
  handIds (eliminateFirst target ps) = handIds ps.
Proof.
  induction ps as [|p ps IH]; simpl; [reflexivity|].
  destruct (hasId target p); rewrite !handIds_cons; [reflexivity|].
  rewrite IH. reflexivity.
Qed.

Lemma handIds_afterCorrectGuess (target : string) (i : Z)
    (ps : list Player) :
  handIds (afterCorrectGuess target i ps) = handIds ps.
Proof.
  unfold afterCorrectGuess. destruct (targetAllRevealed _ _).
  - rewrite handIds_eliminateFirst. apply handIds_revealIn.
  - apply handIds_revealIn.
Qed.

Lemma handIds_replace (l1 l2 : list Player) (p p' : Player)
    (extra : list string) :
  Permutation (map tileId (hand p')) (extra ++ map tileId (hand p)) ->
  Permutation (handIds (l1 ++ p' :: l2)) (extra ++ handIds (l1 ++ p :: l2)).
Proof.
  intro H. rewrite !handIds_app, !handIds_cons.
  rewrite (app_assoc extra).
  eapply perm_trans;
    [|apply Permutation_app_tail; apply Permutation_app_comm].
  rewrite <- !app_assoc. apply Permutation_app_head.
  rewrite !app_assoc. apply Permutation_app_tail.
  eapply perm_trans; [exact H|]. apply Permutation_refl.
Qed.

Lemma handIds_mergeDrawn (current : string) (tile : option Tile)
    (ps ps' : list Player) :
  mergeDrawn current tile ps = Some ps' ->
  Permutation (handIds ps') (map tileId (slot tile) ++ handIds ps).
Proof.
  unfold mergeDrawn. destruct tile as [t|].
  2:{ intros [= <-]. apply Permutation_refl. }
  destruct (findIndex _ ps) as [i|]; [|discriminate].
  destruct (nth_error ps i) as [cp|] eqn:Hcp; [|discriminate].
  intros [= <-].
  destruct (replaceNth_split i
              (setHand (sortHand (hand cp ++ [t])%list) cp) cp ps Hcp)
    as (l1 & l2 & -> & -> & _).
  apply handIds_replace. simpl.
  eapply perm_trans; [apply sortHand_ids|].
  rewrite map_app. simpl. apply Permutation_sym.
  apply Permutation_cons_append.
Qed.

Lemma setHandOf_split (l1 l2 : list Player) (cp : Player) (h : list Tile) :
  (forall p, In p (l1 ++ l2)%list -> hasId (playerId cp) p = false) ->
  setHandOf (playerId cp) h (l1 ++ cp :: l2)
    = (l1 ++ setHand h cp :: l2)%list.
Proof.
  intro Hrest. unfold setHandOf. rewrite map_app. simpl.
  unfold hasId at 2. rewrite String.eqb_refl.
  rewrite !map_if_hasId; [reflexivity| |];
    intros p Hp; apply Hrest; apply in_or_app; auto.
Qed.

Lemma placeInHand_ids (dragged : string) (q : Q) (h : list Tile) :
  map tileId (placeInHand dragged q h) = map tileId h.
Proof.
  unfold placeInHand. rewrite map_map. apply map_ext.
  intro t. destruct (tileHasId dragged t); reflexivity.
Qed.

Lemma claimTile_id (current : string) (ps : list Player) (u : Q)
    (tile : Tile) :
  tileId (claimTile current ps u tile) = tileId tile.
Proof.
  unfold claimTile. destruct (findPlayer current ps) as [cp|]; [|reflexivity].
  destruct (isBot cp && isJoker _); reflexivity.
Qed.

Lemma tileToInsert_ids (b : bool) (s : GameState) :
  map tileId (slot (tileToInsert b s)) = map tileId (slot (drawnTile s)).
Proof.
  unfold tileToInsert. destruct (drawnTile s) as [d|]; [|reflexivity].
  destruct b; reflexivity.
Qed.

Lemma merged_tileIds (hs hs' sl pl : list string) :
  Permutation hs' (sl ++ hs) ->
  Permutation (hs' ++ [] ++ pl) (hs ++ sl ++ pl).
Proof.
  intro H. simpl. rewrite app_assoc. apply Permutation_app_tail.
  eapply perm_trans; [exact H|]. apply Permutation_app_comm.
Qed.

(** No command makes or loses a tile. *)
Lemma transition_tileIds (c : Command) (s s' : GameState) :
  playersInv s -> Transition c s s' ->
  Permutation (tileIds s') (tileIds s).
Proof.
  intros (Hnd & Hcur & Hrev & Hwin & Hdraw) Ht.
  rewrite !tileIds_unfold.
  destruct Ht as
    [ (E1 & E2 & E3 & E4 & E5 & E6 & E7)
    | Hlost
    | Hfrom Hph E1 E2 E3 E4 E5 E6
    | u tile Hph Hpool Hdrawn Hph' E1 E2 E5 E6
    | target i tp t Hc Hph Hvalid Hps Hw E2 E3 E4 E6
    | target i tp t next Hph Hvalid Hm Hw Hnin Hnel Hnext E3 E4 E6
    | b next Hm Hnin Hnel Hnext E3 Hph E4 E5 E6
    | dragged tid d cp Hc Hd Hid Hj Hpl Hcp Hd' E1 E2 E4 Hph E5 E6
    | dragged tid obj cp Hc Hcp Hobj Hj Hpl Hps E3 E2 E4 Hph E5 E6 ].
  - rewrite E1, E3, E4. apply Permutation_refl.
  - destruct (In_seats_findPlayer _ _ _ Hcur) as (cp & Hcp). congruence.
  - rewrite E1, E3, E4. apply Permutation_refl.
  - rewrite E1, Hdrawn, (Hdraw Hph), Hpool. simpl.
    apply Permutation_app_head. rewrite claimTile_id, map_app. simpl.
    apply Permutation_cons_append.
  - rewrite Hps, E3, E4, handIds_afterCorrectGuess. apply Permutation_refl.
  - rewrite E3, E4. simpl slot. simpl map at 2.
    apply merged_tileIds.
    rewrite <- (handIds_afterCorrectGuess target i (players s)).
    apply (handIds_mergeDrawn _ _ _ _ Hm).
  - rewrite E3, E4. simpl slot. simpl map at 2.
    apply merged_tileIds.
    rewrite <- (tileToInsert_ids b s).
    apply (handIds_mergeDrawn _ _ _ _ Hm).
  - rewrite E1, Hd, Hd', E4. apply Permutation_refl.
  - rewrite E3, E4. apply Permutation_app_tail. rewrite Hps.
    destruct (findPlayer_split _ _ _ Hcp Hnd) as (l1 & l2 & -> & Hrest).
    apply findPlayer_id in Hcp. destruct Hcp as [Hid _].
    rewrite setHandOf_split by (rewrite Hid; exact Hrest).
    apply (handIds_replace l1 l2 cp _ []). simpl.
    eapply perm_trans; [apply sortHand_ids|].
    rewrite placeInHand_ids. apply Permutation_refl.
Qed.

(** *** How a command changes a tile *)

Lemma tileStep_refl (c : Command) (s : GameState) (t : Tile) :
  tileStep c s t t.
Proof. unfold tileStep, sameTile, keyKept. tauto. Qed.

Lemma tileStep_revealed (c : Command) (s : GameState) (t : Tile) :
  tileStep c s t (setRevealed true t).
Proof. unfold tileStep, sameTile, keyKept. simpl. tauto. Qed.

Lemma In_allTiles (s : GameState) (t : Tile) :
  In t (allTiles s) <->
  (exists p, In p (players s) /\ In t (hand p)) \/
  drawnTile s = Some t \/ In t (pool s).
Proof.
  unfold allTiles. rewrite !in_app_iff, in_concat. split.
  - intros [(h & Hh & Ht)|[H|H]]; auto.
    + apply in_map_iff in Hh. destruct Hh as (p & <- & Hp).
      left. exists p. auto.
    + destruct (drawnTile s) as [d|]; simpl in H; [|contradiction].
      destruct H as [->|[]]. auto.
  - intros [(p & Hp & Ht)|[H|H]]; auto.
    + left. exists (hand p). split; [apply in_map; exact Hp|exact Ht].
    + rewrite H. simpl. auto.
Qed.

Lemma revealAt_In (i : Z) (h : list Tile) (t' : Tile) :
  In t' (revealAt i h) ->
  exists t, In t h /\ (t' = t \/ t' = setRevealed true t).
Proof.
  unfold revealAt. destruct (at_ h i) as [t|] eqn:Ht.
  - intro H. apply replaceNth_In in H. destruct H as [->|H].
    + exists t. split; [apply (at_In _ _ _ Ht)|auto].
    + exists t'. auto.
  - intro H. exists t'. auto.
Qed.

Lemma eliminateFirst_In (target : string) (ps : list Player) (p' : Player) :
  In p' (eliminateFirst target ps) ->
  exists p, In p ps /\ hand p' = hand p.
Proof.
  induction ps as [|q ps IH]; simpl; [contradiction|].
  destruct (hasId target q).
  - intros [Hq|H]; [exists q; subst p'|exists p']; auto.
  - intros [Hq|H]; [exists q; subst p'; auto|].
    destruct (IH H) as (p & Hp & Hh). exists p. auto.
Qed.

Lemma afterCorrectGuess_In (target : string) (i : Z) (ps : list Player)
    (p' : Player) (t' : Tile) :
  In p' (afterCorrectGuess target i ps) -> In t' (hand p') ->
  exists p t, In p ps /\ In t (hand p) /\
              (t' = t \/ t' = setRevealed true t).
Proof.
  assert (Hreveal : forall q, In q (revealIn target i ps) -> In t' (hand q) ->
            exists p t, In p ps /\ In t (hand p) /\
                        (t' = t \/ t' = setRevealed true t)).
  { intros q Hq Ht. unfold revealIn in Hq. apply in_map_iff in Hq.
    destruct Hq as (p & <- & Hp). destruct (hasId target p).
    - simpl in Ht. apply revealAt_In in Ht. destruct Ht as (t & Hin & Ht).
      exists p, t. auto.
    - exists p, t'. auto. }
  unfold afterCorrectGuess. destruct (targetAllRevealed _ _).
  - intros Hp Ht. apply eliminateFirst_In in Hp.
    destruct Hp as (q & Hq & Hh). rewrite Hh in Ht. apply (Hreveal q Hq Ht).
  - apply Hreveal.
Qed.

Lemma mergeDrawn_tiles (current : string) (tile : option Tile)
    (ps ps' : list Player) (p' : Player) (t' : Tile) :
  mergeDrawn current tile ps = Some ps' ->
  In p' ps' -> In t' (hand p') ->
  (exists p, In p ps /\ In t' (hand p)) \/ tile = Some t'.
Proof.
  intros Hm Hp Ht.
  destruct (mergeDrawn_In _ _ _ _ _ Hm Hp) as [Hin|(t & cp & -> & Hcp & ->)].
  - left. exists p'. auto.
  - simpl in Ht.
    apply (Permutation_in _ (Permutation_sym (sortHand_perm _))) in Ht.
    apply in_app_or in Ht. destruct Ht as [Ht|[->|[]]]; [left|right; auto].
    exists cp. auto.
Qed.

Lemma NoDup_map_eq {A B : Type} (f : A -> B) (l : list A) (x y : A) :
  NoDup (map f l) -> In x l -> In y l -> f x = f y -> x = y.
Proof.
  induction l as [|z l IH]; simpl; intros Hnd Hx Hy Hf; [contradiction|].
  inversion Hnd as [|? ? Hnotin Hnd']; subst.
  destruct Hx as [->|Hx], Hy as [->|Hy]; auto.
  - exfalso. apply Hnotin. rewrite Hf. apply in_map. exact Hy.
  - exfalso. apply Hnotin. rewrite <- Hf. apply in_map. exact Hx.
Qed.

(** Two tiles of a state with the same id are one tile. *)
Lemma tile_by_id (s : GameState) (t1 t2 : Tile) :
  NoDup (tileIds s) -> In t1 (allTiles s) -> In t2 (allTiles s) ->
  tileId t1 = tileId t2 -> t1 = t2.
Proof. unfold tileIds. apply NoDup_map_eq. Qed.

Lemma tileHasId_eq (ident : string) (t : Tile) :
  tileHasId ident t = true <-> tileId t = ident.
Proof. unfold tileHasId. apply String.eqb_eq. Qed.

Lemma claimTile_step (c : Command) (s : GameState) (u : Q) (tile : Tile) :
  In tile (pool s) ->
  tileStep c s tile
    (claimTile (currentTurnPlayerId s) (players s) u tile).
Proof.
  intro Hin. unfold claimTile, tileStep, sameTile, keyKept, autoPlaced.
  destruct (findPlayer _ _) as [cp|] eqn:Hcp; simpl; [|tauto].
  destruct (isBot cp) eqn:Hb; simpl; [|tauto].
  destruct (isJoker tile) eqn:Hj; simpl; [|tauto].
  repeat split; auto. right. left. repeat split; auto.
  exists cp. auto.
Qed.

Lemma tileToInsert_step (c : Command) (s : GameState) (b : bool)
    (t' : Tile) :
  tileToInsert b s = Some t' ->
  exists t, drawnTile s = Some t /\ tileStep c s t t'.
Proof.
  unfold tileToInsert. destruct (drawnTile s) as [d|]; simpl; [|discriminate].
  intros [= <-]. exists d. split; [reflexivity|].
  destruct b; [apply tileStep_refl|apply tileStep_revealed].
Qed.

Lemma placeInHand_In (dragged : string) (q : Q) (h : list Tile) (t' : Tile) :
  In t' (placeInHand dragged q h) ->
  exists t, In t h /\
    (t' = t \/ (tileHasId dragged t = true /\ t' = placeAt q t)).
Proof.
  unfold placeInHand. intro H. apply in_map_iff in H.
  destruct H as (t & <- & Ht). exists t. split; [exact Ht|].
  destruct (tileHasId dragged t); auto.
Qed.

(** Every tile after a command is a tile from before it: unchanged in
    key and flag, given a key by the engine on being drawn by an
    automated player, or placed by an accepted reposition command. *)
Lemma transition_tiles (c : Command) (s s' : GameState) :
  playersInv s -> NoDup (tileIds s) -> Transition c s s' ->
  forall t', In t' (allTiles s') ->
    exists t, In t (allTiles s) /\ tileStep c s t t'.
Proof.
  intros (Hnd & Hcur & Hrev & Hwin & Hdraw) Hids Ht t' Hin.
  assert (Hkeep : forall t, In t (allTiles s) ->
            exists t0, In t0 (allTiles s) /\ tileStep c s t0 t).
  { intros t H. exists t. split; [exact H|apply tileStep_refl]. }
  apply In_allTiles in Hin.
  destruct Ht as
    [ (E1 & E2 & E3 & E4 & E5 & E6 & E7)
    | Hlost
    | Hfrom Hph E1 E2 E3 E4 E5 E6
    | u tile Hph Hpool Hdrawn Hph' E1 E2 E5 E6
    | target i tp t Hc Hph Hvalid Hps Hw E2 E3 E4 E6
    | target i tp t next Hph Hvalid Hm Hw Hnin Hnel Hnext E3 E4 E6
    | b next Hm Hnin Hnel Hnext E3 Hph E4 E5 E6
    | dragged tid d cp Hc Hd Hid Hj Hpl Hcp Hd' E1 E2 E4 Hph E5 E6
    | dragged tid obj cp Hc Hcp Hobj Hj Hpl Hps E3 E2 E4 Hph E5 E6 ].
  - apply Hkeep. apply In_allTiles. rewrite <- E1, <- E3, <- E4. exact Hin.
  - destruct (In_seats_findPlayer _ _ _ Hcur) as (cp & Hcp). congruence.
  - apply Hkeep. apply In_allTiles. rewrite <- E1, <- E3, <- E4. exact Hin.
  - (* a draw *)
    rewrite E1, Hdrawn in Hin.
    assert (Hsub : forall x, In x (pool s') -> In x (pool s)).
    { intros x Hx. rewrite Hpool. apply in_or_app. auto. }
    destruct Hin as [Hh|[[= <-]|Hp]].
    + apply Hkeep. apply In_allTiles. auto.
    + exists tile.
      assert (Htile : In tile (pool s)).
      { rewrite Hpool. apply in_or_app. simpl. auto. }
      split; [apply In_allTiles; auto|apply claimTile_step; exact Htile].
    + apply Hkeep. apply In_allTiles. auto.
  - (* a correct guess *)
    rewrite E3, E4 in Hin. destruct Hin as [(p' & Hp' & Ht')|Hrest].
    + rewrite Hps in Hp'.
      destruct (afterCorrectGuess_In _ _ _ _ _ Hp' Ht')
        as (p & t0 & Hp & Ht0 & Heq).
      exists t0. split; [apply In_allTiles; left; exists p; auto|].
      destruct Heq as [->| ->];
        [apply tileStep_refl|apply tileStep_revealed].
    + apply Hkeep. apply In_allTiles. auto.
  - (* a correct guess of the bot *)
    rewrite E3, E4 in Hin. destruct Hin as [(p' & Hp' & Ht')|[Hd|Hp]].
    + destruct (mergeDrawn_tiles _ _ _ _ _ _ Hm Hp' Ht')
        as [(p1 & Hp1 & Ht1)|Hd].
      * destruct (afterCorrectGuess_In _ _ _ _ _ Hp1 Ht1)
          as (p & t0 & Hp & Ht0 & Heq).
        exists t0. split; [apply In_allTiles; left; exists p; auto|].
        destruct Heq as [->| ->];
          [apply tileStep_refl|apply tileStep_revealed].
      * apply Hkeep. apply In_allTiles. auto.
    + discriminate.
    + apply Hkeep. apply In_allTiles. auto.
  - (* the end of a turn *)
    rewrite E3, E4 in Hin. destruct Hin as [(p' & Hp' & Ht')|[Hd|Hp]].
    + destruct (mergeDrawn_tiles _ _ _ _ _ _ Hm Hp' Ht')
        as [(p1 & Hp1 & Ht1)|Hd].
      * apply Hkeep. apply In_allTiles. left. exists p1. auto.
      * destruct (tileToInsert_step c s b t' Hd) as (t0 & Ht0 & Hstep).
        exists t0. split; [apply In_allTiles; auto|exact Hstep].
    + discriminate.
    + apply Hkeep. apply In_allTiles. auto.
  - (* the drawn joker is placed *)
    rewrite E1, Hd', E4 in Hin. destruct Hin as [Hh|[[= <-]|Hp]].
    + apply Hkeep. apply In_allTiles. auto.
    + exists d. split; [apply In_allTiles; auto|].
      unfold tileStep, sameTile, explicitlyPlaced. simpl.
      repeat split; auto. right. right. repeat split; auto.
      exists tid. apply tileHasId_eq in Hid. rewrite Hid. exact Hc.
    + apply Hkeep. apply In_allTiles. auto.
  - (* a joker of the hand is placed *)
    rewrite E3, E4 in Hin. destruct Hin as [(p' & Hp' & Ht')|Hrest].
    2:{ apply Hkeep. apply In_allTiles. auto. }
    rewrite Hps in Hp'. unfold setHandOf in Hp'. apply in_map_iff in Hp'.
    destruct Hp' as (p & <- & Hp).
    destruct (hasId (playerId cp) p).
    2:{ apply Hkeep. apply In_allTiles. left. exists p. auto. }
    simpl in Ht'.
    apply (Permutation_in _ (Permutation_sym (sortHand_perm _))) in Ht'.
    apply placeInHand_In in Ht'. destruct Ht' as (t0 & Ht0 & Heq).
    apply findPlayer_id in Hcp. destruct Hcp as [_ Hcp].
    assert (Hall0 : In t0 (allTiles s)).
    { apply In_allTiles. left. exists cp. auto. }
    exists t0. split; [exact Hall0|].
    destruct Heq as [->|[Hid ->]]; [apply tileStep_refl|].
    assert (Hobj' : In obj (allTiles s) /\ tileHasId dragged obj = true).
    { apply find_some in Hobj. destruct Hobj as [Hin Hid'].
      split; [apply In_allTiles; left; exists cp; auto|exact Hid']. }
    destruct Hobj' as [Hallobj Hidobj].
    assert (t0 = obj).
    { apply (tile_by_id s); auto.
      apply tileHasId_eq in Hid, Hidobj. congruence. }
    subst t0.
    unfold tileStep, sameTile, explicitlyPlaced. simpl.
    repeat split; auto. right. right. repeat split; auto.
    exists tid. apply tileHasId_eq in Hid. rewrite Hid. exact Hc.
Qed.

Lemma transition_pool (c : Command) (s s' : GameState) :
  playersInv s -> Transition c s s' ->
  forall t, In t (pool s') -> In t (pool s).
Proof.
  intros (Hnd & Hcur & _) Ht t.
  destruct Ht as
    [ (_ & _ & _ & E4 & _)
    | Hlost
    | _ _ _ _ _ E4 _ _
    | u tile _ Hpool _ _ _ _ _ _
    | target i tp t0 _ _ _ _ _ _ _ E4 _
    | target i tp t0 next _ _ _ _ _ _ _ _ E4 _
    | b next _ _ _ _ _ _ E4 _ _
    | dragged tid d cp _ _ _ _ _ _ _ _ _ E4 _ _ _
    | dragged tid obj cp _ _ _ _ _ _ _ _ E4 _ _ _ ];
    try (rewrite E4; auto; fail).
  - destruct (In_seats_findPlayer _ _ _ Hcur) as (cp & Hcp). congruence.
  - intro H. rewrite Hpool. apply in_or_app. auto.
Qed.

(** ** Invariants of the tiles *)

Lemma tilesInv_step (c : Command) (s s' : GameState) :
  playersInv s -> tilesInv s -> Transition c s s' -> tilesInv s'.
Proof.
  intros Hp (Hkey & Hpool & Hids) Ht. repeat split.
  - intros t' Hin Hj.
    destruct (transition_tiles c s s' Hp Hids Ht t' Hin)
      as (t & Ht0 & (Hid & Hcol & Hval & Hjk) & Hstep).
    rewrite Hjk in Hj.
    destruct Hstep as [[Hsv _]|[(_ & Hj' & _)|(_ & Hj' & _)]];
      try congruence.
    rewrite Hsv, Hval. apply Hkey; assumption.
  - intros t Hin. apply Hpool. apply (transition_pool c s s' Hp Ht t Hin).
  - apply (Permutation_NoDup
             (Permutation_sym (transition_tileIds c s s' Hp Ht))).
    exact Hids.
Qed.

Lemma startGame_tilesInv (cfg : GameConfig) (shuffled : list Tile)
    (rnd : string -> Q) (s : GameState) :
  Permutation shuffled (createInitialTiles (includeJokers cfg)) ->
  startGame cfg shuffled rnd = Some s ->
  tilesInv s.
Proof.
  intros Hperm. unfold startGame.
  destruct (dealPlayers _ _ _ _ _ _) as [[[|first others] rest]|] eqn:Hdeal;
    try discriminate.
  intros [= <-].
  assert (Hfresh : Forall freshTile shuffled).
  { apply (Permutation_Forall (Permutation_sym Hperm)).
    apply createInitialTiles_fresh. }
  destruct (dealPlayers_spec _ _ _ _ _ _ _ _ Hdeal Hfresh)
    as (_ & S2 & S3 & _ & S5).
  rewrite Forall_forall in S2, S3.
  repeat split.
  - intros t Hin. apply In_allTiles in Hin. simpl in Hin.
    destruct Hin as [(p & Hp & Ht)|[Hd|Hr]]; [|discriminate|].
    + specialize (S2 p Hp). rewrite Forall_forall in S2. apply (S2 t Ht).
    + apply (S3 t Hr).
  - intros t Hin. simpl in Hin. apply (S3 t Hin).
  - unfold tileIds, allTiles. simpl.
    apply (Permutation_NoDup (Permutation_sym S5)).
    apply (Permutation_NoDup
             (Permutation_map tileId (Permutation_sym Hperm))).
    apply createInitialTiles_ids.
Qed.

Lemma reachable_tilesInv (s : GameState) : reachable s -> tilesInv s.
Proof.
  induction 1 as [cfg shuffled rnd s Hcfg Hperm Hstart|c s s' Hs IH Hstep].
  - apply (startGame_tilesInv cfg shuffled rnd); assumption.
  - pose proof (reachable_playersInv s Hs) as Hp.
    apply (tilesInv_step c s); auto.
    apply step_transition; [apply Hp|exact Hstep].
Qed.

(** A reposition command on a tile whose flag is set changes nothing. *)
Lemma placed_reposition_rejected (s : GameState) (t : Tile)
    (target : string) :
  NoDup (tileIds s) -> In t (allTiles s) -> isPlaced t = true ->
  step (CmdReposition (tileId t) target) s = Ok s.
Proof.
  intros Hids Hin Hpl. unfold step, dispatch, handleDrop.
  destruct (String.eqb (tileId t) target); [reflexivity|].
  destruct (findPlayer _ _) as [cp|] eqn:Hcp; [|reflexivity].
  apply findPlayer_id in Hcp. destruct Hcp as [_ Hcp].
  assert (Hobj : forall obj, In obj (allTiles s) ->
            tileHasId (tileId t) obj = true ->
            negb (isJoker obj) || isPlaced obj = true).
  { intros obj Hobj Hid. apply tileHasId_eq in Hid.
    rewrite (tile_by_id s obj t Hids Hobj Hin Hid), Hpl.
    apply orb_true_r. }
  assert (Hhand : match find (tileHasId (tileId t)) (hand cp) with
                  | Some obj => negb (isJoker obj) || isPlaced obj = true
                  | None => True
                  end).
  { destruct (find _ (hand cp)) as [obj|] eqn:Hf; [|exact I].
    apply find_some in Hf. destruct Hf as [Hf Hid].
    apply Hobj; [|exact Hid]. apply In_allTiles. left. exists cp. auto. }
  destruct (drawnTile s) as [d|] eqn:Hd.
  - destruct (tileHasId (tileId t) d) eqn:Hid.
    + rewrite (Hobj d); [reflexivity| |exact Hid].
      apply In_allTiles. auto.
    + destruct (find _ (hand cp)) as [obj|]; [|reflexivity].
      rewrite Hhand. reflexivity.
  - destruct (find _ (hand cp)) as [obj|]; [|reflexivity].
    rewrite Hhand. reflexivity.
Qed.

Lemma reachable_botToDraw : reachable botToDraw.
Proof.
  eapply (reachable_playedWith humanAndBotJokers
            [CmdDraw 0; CmdGuess "p-1" 0 5]).
  - unfold validConfig. simpl. lia.
  - vm_compute. reflexivity.
  - vm_compute. reflexivity.
Qed.

Lemma reachable_jokerDrawn : reachable jokerDrawn.
Proof.
  eapply (reachable_playedWith humanAndBotJokers [CmdDraw 0]).
  - unfold validConfig. simpl. lia.
  - vm_compute. reflexivity.
  - vm_compute. reflexivity.
Qed.

(** C7, as stated, fails: the bot draws the black joker and the engine
    moves its sort key from 100 to 6 with no reposition command; the
    flag stays unset. *)
Lemma bot_draw_moves_joker :
  reachable botToDraw /\
  (exists cp, findPlayer (currentTurnPlayerId botToDraw) (players botToDraw)
                = Some cp /\ isBot cp = true) /\
  exists t t' s',
    In t (pool botToDraw) /\ isJoker t = true /\
    (sortValue t == 100)%Q /\ isPlaced t = false /\
    step (CmdDraw (1 # 2)) botToDraw = Ok s' /\
    drawnTile s' = Some t' /\ tileId t' = tileId t /\
    (sortValue t' == 6)%Q /\ ~ (sortValue t' == sortValue t)%Q /\
    isPlaced t' = false /\
    forall dragged target, CmdDraw (1 # 2) <> CmdReposition dragged target.
Proof.
  split; [exact reachable_botToDraw|]. split.
  - eexists. split; reflexivity.
  - exists (jokerTile BLACK "b-joker"). do 2 eexists.
    split; [simpl; tauto|]. split; [reflexivity|]. split; [reflexivity|].
    split; [reflexivity|]. split; [vm_compute; reflexivity|].
    split; [reflexivity|]. split; [reflexivity|]. split; [reflexivity|].
    split; [intro H; vm_compute in H; discriminate|].
    split; [reflexivity|]. intros dragged target. discriminate.
Qed.

(** A human places the drawn joker before b-1 once; the second command
    on it changes nothing. *)
Lemma reposition_once_example :
  exists s' t',
    step (CmdReposition "w-joker" "b-1") jokerDrawn = Ok s' /\
    drawnTile s' = Some t' /\ tileId t' = "w-joker" /\
    (sortValue t' == 1 # 2)%Q /\ isPlaced t' = true /\
    step (CmdReposition "w-joker" "b-0") s' = Ok s'.
Proof.
  do 2 eexists. split; [vm_compute; reflexivity|].
  repeat split; reflexivity.
Qed.

(** * Further properties *)

(** ** The deck *)

Lemma value_in_range (v : Z) :
  0 <= v < 12 -> In v (map Z.of_nat (seq 0 TOTAL_NUMBERS)).
Proof.
  intro H. apply in_map_iff. exists (Z.to_nat v). split; [lia|].
  apply in_seq. unfold TOTAL_NUMBERS. lia.
Qed.

(** X1: [createInitialTiles] makes 24 tiles, or 26 with jokers, with
    distinct ids, all hidden, without owner and not placed: one number
    tile of each colour for every value 0..11, whose sort key is its
    value, and with jokers one joker of each colour, of value -1 and
    sort key 100, above the key of every number tile. *)
Theorem createInitialTiles_deck (includeJokers : bool) :
  let deck := createInitialTiles includeJokers in
  List.length deck = (if includeJokers then 26 else 24)%nat /\
  NoDup (map tileId deck) /\
  Forall (fun t => isRevealed t = false /\ ownerId t = None /\
                   isPlaced t = false) deck /\
  (forall c v, 0 <= v < 12 -> countTiles (isNumberTile c v) deck = 1%nat) /\
  (forall c, countTiles (isJokerOf c) deck
             = if includeJokers then 1%nat else 0%nat) /\
  (forall t, In t deck -> isJoker t = false ->
     0 <= value t < 12 /\ sortValue t = inject_Z (value t)) /\
  (forall t, In t deck -> isJoker t = true ->
     value t = JOKER_VALUE /\ sortValue t = inject_Z 100 /\
     forall t', In t' deck -> isJoker t' = false ->
       (sortValue t' < sortValue t)%Q).
Proof.
  intro deck.
  assert (Hnum : forall t, In t deck -> isJoker t = false ->
            0 <= value t < 12 /\ sortValue t = inject_Z (value t)).
  { assert (H : Forall (fun t => isJoker t = false ->
                 0 <= value t < 12 /\ sortValue t = inject_Z (value t)) deck).
    { unfold deck. destruct includeJokers; repeat constructor;
        simpl; try lia; discriminate. }
    rewrite Forall_forall in H. exact H. }
  assert (Hjok : forall t, In t deck -> isJoker t = true ->
            value t = JOKER_VALUE /\ sortValue t = inject_Z 100).
  { assert (H : Forall (fun t => isJoker t = true ->
                 value t = JOKER_VALUE /\ sortValue t = inject_Z 100) deck).
    { unfold deck. destruct includeJokers; repeat constructor;
        simpl; discriminate. }
    rewrite Forall_forall in H. exact H. }
  split; [unfold deck; destruct includeJokers; reflexivity|].
  split; [apply createInitialTiles_ids|].
  split.
  { unfold deck. destruct includeJokers; repeat constructor. }
  split.
  { intros c v Hv.
    assert (Hall : forallb (fun v0 =>
                      (countTiles (isNumberTile c v0) deck =? 1)%nat)
                     (map Z.of_nat (seq 0 TOTAL_NUMBERS)) = true).
    { unfold deck. destruct includeJokers, c; vm_compute; reflexivity. }
    rewrite forallb_forall in Hall.
    apply Nat.eqb_eq. apply Hall. apply value_in_range. exact Hv. }
  split.
  { intro c. unfold deck. destruct includeJokers, c; reflexivity. }
  split; [exact Hnum|].
  intros t Hin Hj. destruct (Hjok t Hin Hj) as [Hv Hs].
  split; [exact Hv|]. split; [exact Hs|].
  intros t' Hin' Hj'. destruct (Hnum t' Hin' Hj') as [Hr Hs'].
  rewrite Hs, Hs'. unfold Qlt, inject_Z. simpl. lia.
Qed.

(** ** Sorting a sorted hand *)

Lemma sortHand_fixes_sorted (l : list Tile) :
  Sorted notAfter l -> sortHand l = l.
Proof.
  induction l as [|x rest IH]; simpl; intro Hs; [reflexivity|].
  inversion Hs as [|? ? Hrest Hhd]; subst.
  rewrite (IH Hrest).
  destruct rest as [|y ys]; simpl; [reflexivity|].
  inversion Hhd as [|? ? Hxy]; subst.
  unfold notAfter in Hxy. rewrite Hxy. reflexivity.
Qed.

(** X2: [sortHand] is idempotent: sorting the sorted hand again gives
    the same hand, tile for tile. *)
Theorem sortHand_idempotent (tiles : list Tile) :
  sortHand (sortHand tiles) = sortHand tiles.
Proof.
  apply sortHand_fixes_sorted. apply sortHand_sorted.
Qed.

(** ** Hands whose keys are apart *)

Lemma notAfter_separated (a b : Tile) :
  separatedKeys a b ->
  (notAfter a b <->
   (sortValue a < sortValue b)%Q \/
   ((sortValue a == sortValue b)%Q /\
    ~ (color a = WHITE /\ color b = BLACK))).
Proof.
  intro Hsep. unfold notAfter, compareTiles, aboveTolerance.
  destruct (Qgtb (Qabs (sortValue a - sortValue b)) (EPSILON + HALF_ULP))
    eqn:Habs.
  - apply Qgtb_true in Habs. rewrite Qgtb_false.
    assert (Hne : ~ (sortValue a == sortValue b)%Q).
    { intro Heq.
      assert (Hz : (Qabs (sortValue a - sortValue b) == 0)%Q).
      { rewrite Heq. setoid_replace (sortValue b - sortValue b)%Q with 0%Q
          by ring. reflexivity. }
      rewrite Hz in Habs. unfold EPSILON, HALF_ULP in Habs. lra. }
    split.
    + intro H. left. destruct (Qlt_le_dec (sortValue a) (sortValue b)); auto.
      exfalso. apply Hne. lra.
    + intros [H|[H _]]; [lra|contradiction].
  - apply Qgtb_false in Habs.
    assert (Heq : (sortValue a == sortValue b)%Q).
    { destruct Hsep as [H|H]; [exact H|]. lra. }
    split.
    + intro H. right. split; [exact Heq|].
      intros [Ha Hb]. rewrite Ha, Hb in H. simpl in H. discriminate.
    + intros [H|[_ H]]; [lra|].
      destruct (color a), (color b); simpl; try reflexivity.
      exfalso. apply H. auto.
Qed.

Lemma notAfter_trans_separated (a b c : Tile) :
  separatedKeys a b -> separatedKeys b c -> separatedKeys a c ->
  notAfter a b -> notAfter b c -> notAfter a c.
Proof.
  intros Hab Hbc Hac H1 H2.
  apply (notAfter_separated a b Hab) in H1.
  apply (notAfter_separated b c Hbc) in H2.
  apply (notAfter_separated a c Hac).
  destruct H1 as [H1|[H1 C1]], H2 as [H2|[H2 C2]].
  - left. lra.
  - left. lra.
  - left. lra.
  - right. split; [lra|].
    intros [Ha Hc]. destruct (color b) eqn:Hb.
    + apply C1. auto.
    + apply C2. auto.
Qed.

Lemma separated_tail (a : Tile) (l : list Tile) :
  separated (a :: l) -> separated l.
Proof. intros H x y Hx Hy. apply H; right; assumption. Qed.

Lemma Sorted_separated_strong (l : list Tile) :
  Sorted notAfter l -> separated l -> StronglySorted notAfter l.
Proof.
  induction l as [|a l IH]; intros Hs Hsep; [constructor|].
  inversion Hs as [|? ? Hl Hhd]; subst.
  pose proof (IH Hl (separated_tail a l Hsep)) as Hstrong.
  constructor; [exact Hstrong|].
  destruct l as [|b l']; [constructor|].
  inversion Hhd as [|? ? Hab]; subst.
  inversion Hstrong as [|? ? _ Hball]; subst.
  constructor; [exact Hab|].
  rewrite Forall_forall in Hball |- *. intros x Hx.
  apply (notAfter_trans_separated a b x); auto.
  - apply Hsep; simpl; auto.
  - apply Hsep; simpl; auto.
  - apply Hsep; simpl; auto.
Qed.

Lemma StronglySorted_pair (l1 l2 l3 : list Tile) (a b : Tile) :
  StronglySorted notAfter (l1 ++ a :: l2 ++ b :: l3) -> notAfter a b.
Proof.
  induction l1 as [|x l1 IH]; simpl; intro H;
    inversion H as [|? ? Hrest Hall]; subst.
  - rewrite Forall_forall in Hall. apply Hall.
    apply in_or_app. right. left. reflexivity.
  - apply IH. exact Hrest.
Qed.

(** X3: when any two sort keys of the tiles are equal or more than the
    tolerance apart, the sorted hand is ordered throughout: of any two
    tiles, the one further left has the smaller or an equal key, and
    with equal keys it is not White before Black. *)
Theorem sortHand_separated (tiles : list Tile) :
  separated tiles ->
  forall l1 l2 l3 a b,
    sortHand tiles = (l1 ++ a :: l2 ++ b :: l3)%list ->
    (sortValue a <= sortValue b)%Q /\
    ((sortValue a == sortValue b)%Q ->
     ~ (color a = WHITE /\ color b = BLACK)).
Proof.
  intros Hsep l1 l2 l3 a b Heq.
  assert (Hsep' : separated (sortHand tiles)).
  { intros x y Hx Hy.
    apply Hsep; apply (Permutation_in _ (Permutation_sym (sortHand_perm _)));
      assumption. }
  pose proof (Sorted_separated_strong _ (sortHand_sorted tiles) Hsep')
    as Hstrong.
  rewrite Heq in Hstrong, Hsep'.
  pose proof (StronglySorted_pair _ _ _ _ _ Hstrong) as Hab.
  assert (Hs : separatedKeys a b).
  { apply Hsep'.
    - apply in_or_app. right. left. reflexivity.
    - apply in_or_app. right. right. apply in_or_app. right. left.
      reflexivity. }
  apply (notAfter_separated a b Hs) in Hab.
  destruct Hab as [H|[H C]]; split; try lra; auto.
Qed.

Lemma smallHand_separated : separated smallHand.
Proof.
  intros a b Ha Hb. simpl in Ha, Hb.
  destruct Ha as [<-|[<-|[<-|[]]]], Hb as [<-|[<-|[<-|[]]]];
    unfold separatedKeys; simpl;
    first [left; reflexivity | right; vm_compute; reflexivity].
Qed.

Lemma sortHand_separated_witness :
  (sortValue (numberTile BLACK "b-" 0)
     <= sortValue (numberTile WHITE "w-" 1))%Q /\
  ((sortValue (numberTile BLACK "b-" 0)
      == sortValue (numberTile WHITE "w-" 1))%Q ->
   ~ (color (numberTile BLACK "b-" 0) = WHITE /\
      color (numberTile WHITE "w-" 1) = BLACK)).
Proof.
  apply (sortHand_separated smallHand smallHand_separated
           [] [numberTile BLACK "b-" 1] []).
  reflexivity.
Defined.

(** ** shuffle *)

Lemma randomIndex_range (u : Q) (n : nat) :
  (0 <= u)%Q -> (u < 1)%Q -> (0 < n)%nat ->
  0 <= randomIndex u n < Z.of_nat n.
Proof.
  intros H0 H1 Hn. unfold randomIndex.
  assert (Hpos : (0 < inject_Z (Z.of_nat n))%Q).
  { rewrite <- (Zlt_Qlt 0). lia. }
  split.
  - rewrite <- (Qfloor_Z 0). apply Qfloor_resp_le.
    apply Qmult_le_0_compat; [exact H0|]. apply Qlt_le_weak. exact Hpos.
  - rewrite Zlt_Qlt.
    eapply Qle_lt_trans; [apply Qfloor_le|].
    setoid_replace (inject_Z (Z.of_nat n)) with (1 * inject_Z (Z.of_nat n))%Q
      at 2 by ring.
    apply Qmult_lt_compat_r; assumption.
Qed.

Lemma swap_Permutation {A : Type} (i : nat) (j : Z) (l l' : list A) :
  swap i j l = Some l' -> Permutation l l'.
Proof.
  unfold swap.
  destruct (nth_error l i) as [x|] eqn:Hi; [|discriminate].
  destruct (at_ l j) as [y|] eqn:Hj; [|discriminate].
  apply at_nth_error in Hj. set (k := Z.to_nat j) in *.
  intros [= <-].
  assert (Hil : (i < List.length l)%nat).
  { apply nth_error_Some. rewrite Hi. discriminate. }
  assert (Hkl : (k < List.length l)%nat).
  { apply nth_error_Some. rewrite Hj. discriminate. }
  apply Permutation_nth_error. split.
  - rewrite !replaceNth_length. reflexivity.
  - exists (fun n => if Nat.eqb n i then k
                     else if Nat.eqb n k then i else n).
    split.
    + intros a b. 
      destruct (Nat.eqb_spec a i), (Nat.eqb_spec b i),
        (Nat.eqb_spec a k), (Nat.eqb_spec b k); intros; subst; congruence.
    + intro n.
      destruct (Nat.eqb_spec n k) as [->|Hnk].
      * rewrite replaceNth_same by (rewrite replaceNth_length; exact Hkl).
        destruct (Nat.eqb_spec k i) as [->|_]; congruence.
      * rewrite replaceNth_other by congruence.
        destruct (Nat.eqb_spec n i) as [->|Hni].
        -- rewrite replaceNth_same by exact Hil. congruence.
        -- rewrite replaceNth_other by congruence. reflexivity.
Qed.

Lemma shuffleFrom_Permutation {A : Type} (rnd : nat -> Q) (i : nat) :
  (forall k, (0 <= rnd k)%Q /\ (rnd k < 1)%Q) ->
  forall l : list A, (i < List.length l)%nat ->
    exists l', shuffleFrom i rnd l = Some l' /\ Permutation l l'.
Proof.
  intro Hrnd. induction i as [|i IH]; intros l Hi.
  - exists l. split; [reflexivity|apply Permutation_refl].
  - change (shuffleFrom (S i) rnd l)
      with (match swap (S i) (randomIndex (rnd (S i)) (S i + 1)) l with
            | Some l' => shuffleFrom i rnd l'
            | None => None
            end).
    destruct (Hrnd (S i)) as [H0 H1].
    pose proof (randomIndex_range (rnd (S i)) (S i + 1) H0 H1 ltac:(lia))
      as Hj.
    destruct (swap (S i) (randomIndex (rnd (S i)) (S i + 1)) l)
      as [l1|] eqn:Hswap.
    + pose proof (swap_Permutation _ _ _ _ Hswap) as Hp.
      destruct (IH l1) as (l' & Hl' & Hp').
      { rewrite <- (Permutation_length Hp). lia. }
      exists l'. split; [exact Hl'|]. eapply perm_trans; eassumption.
    + exfalso. unfold swap in Hswap.
      destruct (nth_error l (S i)) as [x|] eqn:Hx.
      * destruct (at_ l _) as [y|] eqn:Hy; [discriminate|].
        unfold at_ in Hy.
        destruct (randomIndex (rnd (S i)) (S i + 1) <? 0) eqn:Hneg.
        -- apply Z.ltb_lt in Hneg. lia.
        -- apply nth_error_None in Hy. lia.
      * apply nth_error_None in Hx. lia.
Qed.

(** X4: with random numbers in [0, 1), [shuffle] returns a rearrangement
    of its input: the same elements, each as often as before. *)
Theorem shuffle_Permutation (A : Type) (rnd : nat -> Q) (array : list A) :
  (forall k, (0 <= rnd k)%Q /\ (rnd k < 1)%Q) ->
  exists shuffled,
    shuffle rnd array = Some shuffled /\
    Permutation array shuffled /\
    List.length shuffled = List.length array.
Proof.
  intro Hrnd. unfold shuffle.
  destruct array as [|x array].
  - exists []. simpl. repeat split. constructor.
  - destruct (shuffleFrom_Permutation rnd (List.length (x :: array) - 1)
                Hrnd (x :: array)) as (l' & Hl' & Hp).
    { simpl. lia. }
    exists l'. split; [exact Hl'|]. split; [exact Hp|].
    symmetry. apply Permutation_length. exact Hp.
Qed.

Lemma shuffle_Permutation_witness :
  exists shuffled,
    shuffle alwaysZero [1; 2; 3] = Some shuffled /\
    Permutation [1; 2; 3] shuffled /\
    List.length shuffled = List.length [1; 2; 3].
Proof.
  apply (shuffle_Permutation Z alwaysZero [1; 2; 3]).
  intro k. unfold alwaysZero. split; [apply Qle_refl|reflexivity].
Defined.

(** ** The deal *)

Lemma dealPlayers_deal (n : nat) :
  forall i details tpp deck pool rnd,
    (i + n <= List.length details)%nat ->
    pool = skipn (i * tpp) deck ->
    exists ps,
      dealPlayers n i details tpp pool rnd
        = Some (ps, skipn ((i + n) * tpp) deck) /\
      List.length ps = n /\
      forall k p, nth_error ps k = Some p ->
        dealtSeat details tpp deck (i + k) p.
Proof.
  induction n as [|n IH]; intros i details tpp deck pool rnd Hlen Hpool.
  - exists []. simpl. rewrite Nat.add_0_r, Hpool.
    split; [reflexivity|]. split; [reflexivity|].
    intros [|k] p H; discriminate.
  - simpl.
    destruct (nth_error details i) as [d|] eqn:Hd.
    2:{ apply nth_error_None in Hd. lia. }
    destruct (IH (S i) details tpp deck (skipn tpp pool) rnd) as
      (ps & Hdeal & Hps & Hseats).
    { lia. }
    { rewrite Hpool, skipn_skipn. f_equal; lia. }
    rewrite Hdeal.
    replace ((S i + n) * tpp)%nat with ((i + S n) * tpp)%nat by lia.
    eexists. split; [reflexivity|]. split; [simpl; lia|].
    intros [|k] q Hp; simpl in Hp.
    + injection Hp as <-. rewrite Nat.add_0_r.
      unfold dealtSeat. simpl. repeat split.
      * exists d. auto.
      * eapply perm_trans; [apply sortHand_ids|].
        rewrite Hpool.
        destruct (cfgIsBot d); rewrite !map_map;
          apply Permutation_refl' ; apply map_ext; intro t; simpl;
          [destruct (isJoker t)|]; reflexivity.
      * apply sortHand_Forall.
        destruct (cfgIsBot d); rewrite ?Forall_map; apply Forall_forall;
          intros t _; simpl; [destruct (isJoker t)|]; reflexivity.
      * apply sortHand_sorted.
    + replace (i + S k)%nat with (S i + k)%nat by lia.
      apply Hseats. exact Hp.
Qed.

(** X5: for two to four players with their details and a deck that is a
    rearrangement of the factory's, [startGame] returns a state: seat
    [i] holds the player [p-i] with the name, avatar and kind of its
    details, not eliminated, with a sorted hand of the 4 (3 for four
    players) tiles of the deck from position [i * tilesPerPlayer] on,
    each owned by that player; the pool is the rest of the deck; [p-0]
    is to draw, there is no drawn tile and no winner, the log has its
    first entry and the move counter is 1. *)
Theorem startGame_deal (cfg : GameConfig) (shuffled : list Tile)
    (rnd : string -> Q) :
  validConfig cfg ->
  Permutation shuffled (createInitialTiles (includeJokers cfg)) ->
  exists s,
    startGame cfg shuffled rnd = Some s /\
    reachable s /\
    List.length (players s) = playerCount cfg /\
    (forall i p, nth_error (players s) i = Some p ->
       dealtSeat (playerDetails cfg) (tilesPerPlayer cfg) shuffled i p /\
       List.length (hand p) = tilesPerPlayer cfg) /\
    pool s = skipn (playerCount cfg * tilesPerPlayer cfg) shuffled /\
    (List.length (pool s) + playerCount cfg * tilesPerPlayer cfg
     = List.length shuffled)%nat /\
    currentTurnPlayerId s = playerIdOf 0 /\
    drawnTile s = None /\
    phase s = DRAW /\
    winnerId s = None /\
    turnLog s = ["Game Started!"] /\
    moveNumber s = 1.
Proof.
  intros Hcfg Hperm. pose proof Hcfg as [Hn Hdet].
  destruct (dealPlayers_deal (playerCount cfg) 0 (playerDetails cfg)
              (tilesPerPlayer cfg) shuffled shuffled rnd)
    as (ps & Hdeal & Hps & Hseats).
  { lia. }
  { reflexivity. }
  simpl in Hdeal.
  assert (Hlen : (24 <= List.length shuffled)%nat).
  { rewrite (Permutation_length Hperm). apply createInitialTiles_length. }
  destruct (tilesPerPlayer_enough _ _ Hn Hlen) as [Henough Hpos].
  fold (tilesPerPlayer cfg) in Henough, Hpos.
  destruct ps as [|first others]; [simpl in Hps; lia|].
  assert (Hstart : startGame cfg shuffled rnd
                   = Some (mkGameState (first :: others) (playerId first) None
                             (skipn (playerCount cfg * tilesPerPlayer cfg)
                                    shuffled)
                             DRAW None ["Game Started!"] 1)).
  { unfold startGame. fold (tilesPerPlayer cfg). rewrite Hdeal. reflexivity. }
  eexists. split; [exact Hstart|]. simpl.
  split; [apply (reach_start cfg shuffled rnd); assumption|].
  split; [exact Hps|]. split.
  - intros i p Hp. pose proof (Hseats i p Hp) as Hseat. simpl in Hseat.
    split; [exact Hseat|].
    destruct Hseat as (_ & _ & _ & Hids & _).
    apply Permutation_length in Hids. rewrite !length_map in Hids.
    rewrite Hids. apply firstn_length_le. rewrite length_skipn.
    assert (Hi : (i < playerCount cfg)%nat).
    { rewrite <- Hps. apply nth_error_Some. rewrite Hp. discriminate. }
    nia.
  - split; [reflexivity|]. split; [rewrite length_skipn; lia|].
    split; [|repeat split].
    destruct (Hseats O first eq_refl) as (Hid & _). exact Hid.
Qed.

Lemma startGame_deal_witness :
  exists s,
    startGame twoHumans (createInitialTiles false) noRandom = Some s /\
    reachable s /\
    List.length (players s) = playerCount twoHumans /\
    (forall i p, nth_error (players s) i = Some p ->
       dealtSeat (playerDetails twoHumans) (tilesPerPlayer twoHumans)
                 (createInitialTiles false) i p /\
       List.length (hand p) = tilesPerPlayer twoHumans) /\
    pool s = skipn (playerCount twoHumans * tilesPerPlayer twoHumans)
                   (createInitialTiles false) /\
    (List.length (pool s) + playerCount twoHumans * tilesPerPlayer twoHumans
     = List.length (createInitialTiles false))%nat /\
    currentTurnPlayerId s = playerIdOf 0 /\
    drawnTile s = None /\
    phase s = DRAW /\
    winnerId s = None /\
    turnLog s = ["Game Started!"] /\
    moveNumber s = 1.
Proof.
  apply (startGame_deal twoHumans (createInitialTiles false) noRandom).
  - unfold validConfig. simpl. lia.
  - apply Permutation_refl.
Defined.

(** ** Drawing from a pool that has tiles *)

(** X6: in the Draw phase with tiles in the pool, [drawTile] takes the
    last tile of the pool into the drawn-tile slot, owned by the acting
    player and otherwise as it was, except that a joker drawn by an
    automated player gets the sort key [12 * random]; the phase is
    Guess, one entry is logged and nothing else changes. *)
Theorem drawTile_takes_last (u : Q) (s : GameState) (rest : list Tile)
    (tile : Tile) :
  phase s = DRAW ->
  pool s = (rest ++ [tile])%list ->
  exists s' t',
    step (CmdDraw u) s = Ok s' /\
    pool s' = rest /\
    drawnTile s' = Some t' /\
    sameTile tile t' /\
    isRevealed t' = isRevealed tile /\
    isPlaced t' = isPlaced tile /\
    ownerId t' = Some (currentTurnPlayerId s) /\
    sortValue t'
      = (if match findPlayer (currentTurnPlayerId s) (players s) with
            | Some cp => isBot cp
            | None => false
            end && isJoker tile
         then (u * 12)%Q else sortValue tile) /\
    phase s' = GUESS /\
    players s' = players s /\
    currentTurnPlayerId s' = currentTurnPlayerId s /\
    winnerId s' = winnerId s /\
    moveNumber s' = moveNumber s /\
    turnLog s'
      = firstn 50 (("Player drawn a " ++ showColor (color tile) ++ " tile.")
                   :: turnLog s).
Proof.
  intros Hp Hpool.
  assert (Hpop : pop (pool s) = Some (tile, rest)).
  { apply pop_Some. exact Hpool. }
  eexists. exists (claimTile (currentTurnPlayerId s) (players s) u tile).
  split.
  - unfold step, dispatch, drawTile. rewrite Hp, Hpop. reflexivity.
  - simpl. unfold claimTile, sameTile.
    destruct (findPlayer _ _) as [cp|]; simpl;
      [destruct (isBot cp), (isJoker tile) eqn:Hj|]; simpl;
      repeat split; auto.
Qed.

Lemma drawTile_takes_last_witness :
  exists s' t',
    step (CmdDraw 0) freshGame = Ok s' /\
    List.length (pool s') = 15%nat /\
    drawnTile s' = Some t' /\
    sameTile (numberTile WHITE "w-" 11) t' /\
    ownerId t' = Some "p-0" /\
    phase s' = GUESS.
Proof.
  destruct (drawTile_takes_last 0 freshGame (removelast (pool freshGame))
              (numberTile WHITE "w-" 11) eq_refl eq_refl)
    as (s' & t' & H1 & H2 & H3 & H4 & H5 & H6 & H7 & H8 & H9 & _).
  exists s', t'. rewrite H2.
  repeat split; try assumption; apply H4.
Defined.

(** ** The end of a turn, in general *)

Lemma active_after_merge (current : string) (tile : option Tile)
    (ps ps' : list Player) :
  mergeDrawn current tile ps = Some ps' ->
  (exists p, In p ps /\ isEliminated p = false) ->
  exists p', In p' ps' /\ isEliminated p' = false.
Proof.
  intros Hm (p & Hin & He).
  assert (H : In (playerId p, false) (seats ps')).
  { rewrite (mergeDrawn_seats _ _ _ _ Hm). unfold seats.
    apply in_map_iff. exists p. rewrite He. auto. }
  unfold seats in H. apply in_map_iff in H.
  destruct H as (p' & [= _ He'] & Hin'). exists p'. auto.
Qed.

(** [endTurn], called after the log entries [q], when the acting player
    is in the game and some player is not eliminated. *)
Lemma endTurn_exec (b : bool) (s : GameState) (cp : Player) :
  findPlayer (currentTurnPlayerId s) (players s) = Some cp ->
  (exists p, In p (players s) /\ isEliminated p = false) ->
  exists i ps' next,
    findIndex (hasId (currentTurnPlayerId s)) (players s) = Some i /\
    nth_error (players s) i = Some cp /\
    ps' = match tileToInsert b s with
          | Some t =>
              replaceNth i (setHand (sortHand (hand cp ++ [t])%list) cp)
                         (players s)
          | None => players s
          end /\
    In next ps' /\ isEliminated next = false /\
    forall q, logsOnly q ->
      exec (andThen q (endTurn b s)) s
        = Ok (mkGameState ps' (playerId next) None (pool s) DRAW
                          (winnerId s) (turnLog s) (moveNumber s + 1)).
Proof.
  intros Hcp Hactive.
  destruct (find_findIndex _ _ _ Hcp) as (i & Hidx & Hnth).
  set (ps' := match tileToInsert b s with
              | Some t =>
                  replaceNth i (setHand (sortHand (hand cp ++ [t])%list) cp)
                             (players s)
              | None => players s
              end).
  assert (Hm : mergeDrawn (currentTurnPlayerId s) (tileToInsert b s)
                          (players s) = Some ps').
  { unfold mergeDrawn, ps'. destruct (tileToInsert b s); [|reflexivity].
    rewrite Hidx, Hnth. reflexivity. }
  destruct (active_after_merge _ _ _ _ Hm Hactive) as (p' & Hp' & He').
  assert (Hne : ps' <> []) by (intros E; rewrite E in Hp'; contradiction).
  assert (Hlen : List.length ps' = List.length (players s)).
  { pose proof (mergeDrawn_ids _ _ _ _ Hm) as Hids.
    apply (f_equal (@List.length _)) in Hids.
    rewrite !length_map in Hids. exact Hids. }
  assert (Hi : (i < List.length ps')%nat).
  { rewrite Hlen. apply nth_error_Some. rewrite Hnth. discriminate. }
  destruct (firstActiveFrom_exists ps'
              ((i + 1) mod List.length ps')%nat) as (k & Hk & Hfirst).
  { apply Nat.mod_upper_bound. lia. }
  { exists p'. auto. }
  assert (Hexit : nextPlayerIdx ps' (Some i)
                  = Exit ((((i + 1) mod List.length ps') + k)
                            mod List.length ps')%nat).
  { rewrite nextPlayerIdx_unfold by exact Hne.
    apply skipEliminated_exit; auto.
    apply Nat.mod_upper_bound. lia. }
  destruct (nextPlayerIdx_Exit _ _ _ Hexit) as (next & Hnext & Hnel).
  exists i, ps', next. repeat split; auto.
  - apply nth_error_In in Hnext. exact Hnext.
  - intros q Hq. unfold endTurn. rewrite Hm, Hidx, Hexit, Hnext.
    unfold andThen, exec. rewrite !commit_app. reflexivity.
Qed.

(** X8: a wrong guess at a valid target, and a timeout with a drawn tile
    in the slot, leave exactly the state that [endTurn(false)] leaves:
    the entries they log before it are replaced with the rest of the
    state, so the turn log is the log from before the command. *)
Theorem wrong_guess_is_endTurn (s : GameState) (target : string) (i v : Z)
    (tp cp : Player) (t : Tile) :
  phase s = GUESS ->
  validTarget s target i tp t ->
  value t <> v ->
  findPlayer (currentTurnPlayerId s) (players s) = Some cp ->
  exists s',
    step (CmdGuess target i v) s = Ok s' /\
    step (CmdEndTurn false) s = Ok s' /\
    (drawnTile s <> None -> forall u, step (CmdTimeOut u) s = Ok s') /\
    turnLog s' = turnLog s /\
    phase s' = DRAW /\
    moveNumber s' = moveNumber s + 1.
Proof.
  intros Hp Hvalid Hv Hcp.
  pose proof Hvalid as (Hf & He & Hne & Hat & Hr).
  assert (Hactive : exists p, In p (players s) /\ isEliminated p = false).
  { exists tp. split; [apply (findPlayer_id _ _ _ Hf)|exact He]. }
  destruct (endTurn_exec false s cp Hcp Hactive)
    as (k & ps' & next & Hidx & Hnth & Hps' & Hin & Hnel & Hexec).
  eexists. split; [|split; [|split]].
  - unfold step, dispatch, guess.
    rewrite (handleTileClick_valid s target i tp t Hp Hvalid).
    unfold submitGuess. simpl targetPlayerId. simpl targetTileIndex.
    rewrite Hf, Hat. apply Z.eqb_neq in Hv. rewrite Hv.
    apply Hexec. apply logsOnly_one.
  - unfold step, dispatch. rewrite <- (andThen_nil (endTurn false s)).
    apply Hexec. constructor.
  - intros Hd u. unfold step, dispatch, handleTimeOut.
    destruct (drawnTile s); [|congruence].
    apply Hexec. apply logsOnly_one.
  - simpl. repeat split.
Qed.

Lemma wrong_guess_is_endTurn_witness :
  exists s',
    step (CmdGuess "p-1" 0 7) firstGuess = Ok s' /\
    step (CmdEndTurn false) firstGuess = Ok s' /\
    (drawnTile firstGuess <> None ->
     forall u, step (CmdTimeOut u) firstGuess = Ok s') /\
    turnLog s' = turnLog firstGuess /\
    phase s' = DRAW /\
    moveNumber s' = moveNumber firstGuess + 1.
Proof.
  apply (wrong_guess_is_endTurn firstGuess "p-1" 0 7
           (nth 1 (players firstGuess) nobody) firstPlayer
           (nth 0 (hand (nth 1 (players firstGuess) nobody)) blankTile)).
  - reflexivity.
  - unfold validTarget. simpl. repeat split; try reflexivity. discriminate.
  - simpl. discriminate.
  - reflexivity.
Defined.

(** ** Players, seat by seat *)

Lemma playerStep_refl (s : GameState) (p : Player) : playerStep s p p.
Proof.
  unfold playerStep, samePerson, flagStep. repeat split; auto.
  apply hs_same. reflexivity.
Qed.

Lemma Forall2_same {A : Type} (R : A -> A -> Prop) (l : list A) :
  (forall x, R x x) -> Forall2 R l l.
Proof. intro H. induction l; constructor; auto. Qed.

Lemma Forall2_middle {A : Type} (R : A -> A -> Prop) (l1 l2 : list A)
    (x y : A) :
  (forall z, R z z) -> R x y ->
  Forall2 R (l1 ++ x :: l2) (l1 ++ y :: l2).
Proof.
  intros Hrefl Hxy. apply Forall2_app; [apply Forall2_same; exact Hrefl|].
  constructor; [exact Hxy|apply Forall2_same; exact Hrefl].
Qed.

Lemma Forall2_In_r {A B : Type} (R : A -> B -> Prop) (l : list A)
    (l' : list B) (y : B) :
  Forall2 R l l' -> In y l' -> exists x, In x l /\ R x y.
Proof.
  induction 1 as [|a b l l' Hab _ IH]; simpl; [contradiction|].
  intros [<-|Hin].
  - exists a. auto.
  - destruct (IH Hin) as (x & Hx & Hr). exists x. auto.
Qed.

Lemma Forall2_In_l {A B : Type} (R : A -> B -> Prop) (l : list A)
    (l' : list B) (x : A) :
  Forall2 R l l' -> In x l -> exists y, In y l' /\ R x y.
Proof.
  induction 1 as [|a b l l' Hab _ IH]; simpl; [contradiction|].
  intros [<-|Hin].
  - exists b. auto.
  - destruct (IH Hin) as (y & Hy & Hr). exists y. auto.
Qed.

Lemma guessedTarget_step (s : GameState) (target : string) (i : Z)
    (tp : Player) (t : Tile) :
  validTarget s target i tp t ->
  playerStep s tp (guessedTarget tp i t).
Proof.
  intros (Hf & He & Hne & Hat & Hr).
  apply findPlayer_id in Hf. destruct Hf as [Hid _].
  unfold playerStep, samePerson, flagStep, guessedTarget. simpl.
  repeat split.
  - apply (hs_reveal s tp _ i t); auto. congruence.
  - unfold allRevealed. simpl. rewrite He.
    destruct (forallb isRevealed _); auto.
Qed.

(** The players after the merge of a tile, against the players before:
    the same, but for the acting player's hand. *)
Lemma mergeDrawn_Forall2 (current : string) (tile : option Tile)
    (ps ps' : list Player) :
  mergeDrawn current tile ps = Some ps' ->
  Forall2 (fun m p' =>
             p' = m \/
             exists t, tile = Some t /\ playerId m = current /\
                       p' = setHand (sortHand (hand m ++ [t])%list) m)
          ps ps'.
Proof.
  unfold mergeDrawn. destruct tile as [t|].
  2:{ intros [= <-]. apply Forall2_same. auto. }
  destruct (findIndex _ ps) as [i|] eqn:Hi; [|discriminate].
  destruct (nth_error ps i) as [cp|] eqn:Hcp; [|discriminate].
  intros [= <-].
  destruct (findIndex_Some _ _ _ Hi) as (x & Hx & Hid).
  assert (x = cp) by congruence. subst x.
  destruct (replaceNth_split i
              (setHand (sortHand (hand cp ++ [t])%list) cp) cp ps Hcp)
    as (l1 & l2 & -> & -> & _).
  apply Forall2_middle; [auto|]. right. exists t. repeat split.
  unfold hasId in Hid. apply String.eqb_eq. exact Hid.
Qed.

Lemma merged_step (s : GameState) (m : Player) (d t : Tile) :
  drawnTile s = Some d -> t = d \/ t = setRevealed true d ->
  playerId m = currentTurnPlayerId s ->
  playerStep s m (setHand (sortHand (hand m ++ [t])%list) m).
Proof.
  intros Hd Ht Hid. unfold playerStep, samePerson, flagStep. simpl.
  repeat split; auto. apply (hs_merge s m _ d t); auto.
Qed.

Lemma tileToInsert_cases (b : bool) (s : GameState) (t : Tile) :
  tileToInsert b s = Some t ->
  exists d, drawnTile s = Some d /\ (t = d \/ t = setRevealed true d).
Proof.
  unfold tileToInsert. destruct (drawnTile s) as [d|]; [|discriminate].
  simpl. intros [= <-]. exists d. destruct b; auto.
Qed.

(** Every player after a command is the player of the same seat before
    it, changed in one of the ways of [playerStep]. *)
Lemma transition_players (c : Command) (s s' : GameState) :
  playersInv s -> Transition c s s' ->
  Forall2 (playerStep s) (players s) (players s').
Proof.
  intros (Hnd & Hcur & Hrev & Hwin & Hdraw) Ht.
  assert (Hsame : players s' = players s ->
                  Forall2 (playerStep s) (players s) (players s')).
  { intros ->. apply Forall2_same. apply playerStep_refl. }
  destruct Ht as
    [ Hnone
    | Hlost
    | _ _ E1 _ _ _ _ _
    | u tile _ _ _ _ E1 _ _ _
    | target i tp t Hc Hph Hvalid Hps Hw E2 E3 E4 E6
    | target i tp t next Hph Hvalid Hm Hw Hnin Hnel Hnext E3 E4 E6
    | b next Hm Hnin Hnel Hnext E3 Hph E4 E5 E6
    | dragged tid d cp Hc Hd Hid Hj Hpl Hcp Hd' E1 E2 E4 Hph E5 E6
    | dragged tid obj cp Hc Hcp Hobj Hj Hpl Hps E3 E2 E4 Hph E5 E6 ];
    auto.
  - apply Hsame. apply Hnone.
  - destruct (In_seats_findPlayer _ _ _ Hcur) as (cp & Hcp). congruence.
  - (* a correct guess *)
    pose proof Hvalid as (Hf & He & Hne & Hat & Hr).
    destruct (guess_split _ _ _ _ _ Hnd Hf He Hat) as (l1 & l2 & E & E').
    rewrite Hps, E', E.
    apply Forall2_middle; [apply playerStep_refl|].
    apply (guessedTarget_step s target i tp t Hvalid).
  - (* a correct guess of the bot *)
    pose proof Hvalid as (Hf & He & Hne & Hat & Hr).
    destruct (guess_split _ _ _ _ _ Hnd Hf He Hat) as (l1 & l2 & E & E').
    pose proof (mergeDrawn_Forall2 _ _ _ _ Hm) as Hmerge.
    rewrite E' in Hmerge. rewrite E.
    apply findPlayer_id in Hf. destruct Hf as [Hid _].
    apply Forall2_app_inv_l in Hmerge.
    destruct Hmerge as (r1 & r2 & H1 & H2 & ->).
    inversion H2 as [|g y ? r3 Hg H3 Eg Er]. clear H2 Eg Er.
    assert (Hlift : forall ms rs,
              Forall2 (fun m p' =>
                         p' = m \/
                         exists t0, drawnTile s = Some t0 /\
                           playerId m = currentTurnPlayerId s /\
                           p' = setHand (sortHand (hand m ++ [t0])%list) m)
                      ms rs ->
              Forall2 (playerStep s) ms rs).
    { intros ms rs Hall.
      induction Hall as [|m p' ms rs Hmp _ IH]; constructor; auto.
      destruct Hmp as [->|(t0 & Ht0 & Hm0 & ->)];
        [apply playerStep_refl|].
      apply (merged_step s m t0 t0); auto. }
    apply Forall2_app; [apply Hlift; exact H1|].
    constructor; [|apply Hlift; exact H3].
    destruct Hg as [->|(t0 & _ & Hm0 & _)].
    + apply (guessedTarget_step s target i tp t Hvalid).
    + simpl in Hm0. congruence.
  - (* the end of a turn *)
    pose proof (mergeDrawn_Forall2 _ _ _ _ Hm) as Hmerge.
    eapply Forall2_impl; [|exact Hmerge].
    intros m p' [->|(t0 & Ht0 & Hm0 & ->)]; [apply playerStep_refl|].
    destruct (tileToInsert_cases b s t0 Ht0) as (d0 & Hd0 & Hcase).
    apply (merged_step s m d0 t0); auto.
  - (* a joker of the hand is placed *)
    destruct (findPlayer_split _ _ _ Hcp Hnd) as (l1 & l2 & E & Hrest).
    apply findPlayer_id in Hcp. destruct Hcp as [Hid _].
    rewrite Hps, E.
    rewrite setHandOf_split by (rewrite Hid; exact Hrest).
    apply Forall2_middle; [apply playerStep_refl|].
    unfold playerStep, samePerson, flagStep. simpl. repeat split; auto.
    apply (hs_place s cp _ dragged
             (dropSortValue (hand cp) dragged tid) obj); auto.
Qed.

Lemma startGame_dealt (cfg : GameConfig) (shuffled : list Tile)
    (rnd : string -> Q) (s : GameState) :
  validConfig cfg ->
  startGame cfg shuffled rnd = Some s ->
  (forall p, In p (players s) ->
     exists i, dealtSeat (playerDetails cfg) (tilesPerPlayer cfg)
                         shuffled i p) /\
  pool s = skipn (playerCount cfg * tilesPerPlayer cfg) shuffled /\
  drawnTile s = None /\ phase s = DRAW /\ winnerId s = None /\
  turnLog s = ["Game Started!"] /\ moveNumber s = 1.
Proof.
  intros [Hn Hdet] Hstart.
  destruct (dealPlayers_deal (playerCount cfg) 0 (playerDetails cfg)
              (tilesPerPlayer cfg) shuffled shuffled rnd)
    as (ps & Hdeal & Hps & Hseats).
  { lia. }
  { reflexivity. }
  simpl in Hdeal. unfold startGame in Hstart.
  fold (tilesPerPlayer cfg) in Hstart. rewrite Hdeal in Hstart.
  destruct ps as [|first others]; [discriminate|].
  injection Hstart as <-. split; [|simpl; repeat split; auto].
  intros p Hin. cbn [players] in Hin.
  apply In_nth_error in Hin. destruct Hin as [k Hk].
  exists k. apply (Hseats k p Hk).
Qed.

Lemma tileKept_refl (t : Tile) : tileKept t t.
Proof. unfold tileKept, sameTile. repeat split; auto. Qed.

Lemma tileKept_revealed (t : Tile) : tileKept t (setRevealed true t).
Proof. unfold tileKept, sameTile. simpl. repeat split; auto. Qed.

Lemma tileKept_placeAt (q : Q) (t : Tile) : tileKept t (placeAt q t).
Proof. unfold tileKept, sameTile. simpl. repeat split; auto. Qed.

(** The tiles of a hand are in the hand after the command. *)
Lemma handStep_kept (s : GameState) (p : Player) (h' : list Tile) :
  handStep s p h' ->
  forall t, In t (hand p) -> exists t', In t' h' /\ tileKept t t'.
Proof.
  intros [->|i t0 Hat Hr He Hne ->|d x Hd Hx Hid ->|dragged q obj Hid Hf Hj Hp ->]
    t Hin.
  - exists t. split; [exact Hin|apply tileKept_refl].
  - apply at_nth_error in Hat.
    apply In_nth_error in Hin. destruct Hin as [k Hk].
    destruct (Nat.eq_dec (Z.to_nat i) k) as [<-|Hneq].
    + assert (t = t0) by congruence. subst t0.
      exists (setRevealed true t). split; [|apply tileKept_revealed].
      apply (nth_error_In _ (Z.to_nat i)). apply replaceNth_same.
      apply nth_error_Some. rewrite Hat. discriminate.
    + exists t. split; [|apply tileKept_refl].
      apply (nth_error_In _ k). rewrite replaceNth_other by exact Hneq.
      exact Hk.
  - exists t. split; [|apply tileKept_refl].
    apply (Permutation_in _ (sortHand_perm _)). apply in_or_app. auto.
  - exists (if tileHasId dragged t then placeAt q t else t). split.
    + apply (Permutation_in _ (sortHand_perm _)). unfold placeInHand.
      apply (in_map (fun t1 => if tileHasId dragged t1 then placeAt q t1
                               else t1)). exact Hin.
    + destruct (tileHasId dragged t);
        [apply tileKept_placeAt|apply tileKept_refl].
Qed.

(** The tiles of the hand after the command are those of the hand
    before, and the drawn tile when the acting player takes it. *)
Lemma handStep_from (s : GameState) (p : Player) (h' : list Tile) :
  handStep s p h' ->
  forall t', In t' h' ->
    (exists t, In t (hand p) /\ tileKept t t') \/
    (playerId p = currentTurnPlayerId s /\
     exists d, drawnTile s = Some d /\ tileKept d t').
Proof.
  intros [->|i t0 Hat Hr He Hne ->|d x Hd Hx Hid ->|dragged q obj Hid Hf Hj Hp ->]
    t' Hin.
  - left. exists t'. split; [exact Hin|apply tileKept_refl].
  - left. apply replaceNth_In in Hin. destruct Hin as [->|Hin].
    + exists t0. split; [apply (at_In _ _ _ Hat)|apply tileKept_revealed].
    + exists t'. split; [exact Hin|apply tileKept_refl].
  - apply (Permutation_in _ (Permutation_sym (sortHand_perm _))) in Hin.
    apply in_app_or in Hin. destruct Hin as [Hin|[<-|[]]].
    + left. exists t'. split; [exact Hin|apply tileKept_refl].
    + right. split; [exact Hid|]. exists d. split; [exact Hd|].
      destruct Hx as [->| ->];
        [apply tileKept_refl|apply tileKept_revealed].
  - left.
    apply (Permutation_in _ (Permutation_sym (sortHand_perm _))) in Hin.
    unfold placeInHand in Hin. apply in_map_iff in Hin.
    destruct Hin as (t & <- & Hin). exists t. split; [exact Hin|].
    destruct (tileHasId dragged t);
      [apply tileKept_placeAt|apply tileKept_refl].
Qed.

Lemma handStep_length (s : GameState) (p : Player) (h' : list Tile) :
  handStep s p h' ->
  List.length h' = List.length (hand p) \/
  (playerId p = currentTurnPlayerId s /\ drawnTile s <> None /\
   List.length h' = S (List.length (hand p))).
Proof.
  intros [->|i t0 Hat Hr He Hne ->|d x Hd Hx Hid ->|dragged q obj Hid Hf Hj Hp ->].
  - auto.
  - left. apply replaceNth_length.
  - right. split; [exact Hid|]. split; [congruence|].
    rewrite <- (Permutation_length (sortHand_perm _)).
    rewrite length_app. simpl. lia.
  - left. rewrite <- (Permutation_length (sortHand_perm _)).
    unfold placeInHand. apply length_map.
Qed.

Lemma notAfter_sortKey (a b a' b' : Tile) :
  sortKey a' = sortKey a -> sortKey b' = sortKey b ->
  notAfter a b -> notAfter a' b'.
Proof.
  unfold sortKey, notAfter, compareTiles.
  intros [= -> ->] [= -> ->]. auto.
Qed.

Lemma Sorted_sortKey (l : list Tile) :
  Sorted notAfter l ->
  forall l', map sortKey l' = map sortKey l -> Sorted notAfter l'.
Proof.
  induction 1 as [|a l Hs IH Hhd]; intros [|a' l'] Hmap;
    try discriminate; constructor.
  - apply IH. simpl in Hmap. congruence.
  - simpl in Hmap.
    assert (Ha : sortKey a' = sortKey a) by congruence.
    assert (Hl : map sortKey l' = map sortKey l) by congruence.
    destruct Hhd as [|b l Hab]; destruct l' as [|b' l'];
      try discriminate; constructor.
    simpl in Hl. assert (Hb : sortKey b' = sortKey b) by congruence.
    apply (notAfter_sortKey a b); auto.
Qed.

Lemma handStep_sorted (s : GameState) (p : Player) (h' : list Tile) :
  handStep s p h' -> Sorted notAfter (hand p) -> Sorted notAfter h'.
Proof.
  intros [->|i t0 Hat Hr He Hne ->|d x Hd Hx Hid ->|dragged q obj Hid Hf Hj Hp ->]
    Hs; auto using sortHand_sorted.
  apply (Sorted_sortKey _ Hs).
  eapply replaceNth_map; [apply at_nth_error; exact Hat|reflexivity].
Qed.

Lemma createInitialTiles_unowned (j : bool) :
  Forall (fun t => ownerId t = None) (createInitialTiles j).
Proof. destruct j; repeat constructor. Qed.

Lemma claimTile_owner (current : string) (ps : list Player) (u : Q)
    (tile : Tile) :
  ownerId (claimTile current ps u tile) = Some current.
Proof.
  unfold claimTile. destruct (findPlayer current ps) as [cp|]; [|reflexivity].
  destruct (isBot cp && isJoker _); reflexivity.
Qed.

Lemma startGame_tilesOwned (cfg : GameConfig) (shuffled : list Tile)
    (rnd : string -> Q) (s : GameState) :
  validConfig cfg ->
  Permutation shuffled (createInitialTiles (includeJokers cfg)) ->
  startGame cfg shuffled rnd = Some s ->
  tilesOwned s.
Proof.
  intros Hcfg Hperm Hstart.
  destruct (startGame_dealt cfg shuffled rnd s Hcfg Hstart)
    as (Hseats & Hpool & Hd & _).
  repeat split.
  - intros p t Hp Ht. destruct (Hseats p Hp) as (i & Hid & _ & _ & _ & Hown & _).
    rewrite Forall_forall in Hown. rewrite (Hown t Ht), Hid. reflexivity.
  - intros d Hd'. congruence.
  - intros t Ht. rewrite Hpool in Ht.
    pose proof (createInitialTiles_unowned (includeJokers cfg)) as Hall.
    apply (Permutation_Forall (Permutation_sym Hperm)) in Hall.
    rewrite Forall_forall in Hall. apply Hall.
    revert Ht. generalize (playerCount cfg * tilesPerPlayer cfg)%nat as n.
    intros n Ht. rewrite <- (firstn_skipn n shuffled).
    apply in_or_app. auto.
Qed.

Lemma tilesOwned_step (c : Command) (s s' : GameState) :
  playersInv s -> Transition c s s' -> tilesOwned s -> tilesOwned s'.
Proof.
  intros Hinv Ht (Hhands & Hdrawn & Hpool).
  pose proof (transition_players c s s' Hinv Ht) as Hps.
  pose proof (transition_pool c s s' Hinv Ht) as Hsub.
  assert (Hh : forall p t, In p (players s') -> In t (hand p) ->
                 ownerId t = Some (playerId p)).
  { intros p' t' Hp' Ht'.
    destruct (Forall2_In_r _ _ _ _ Hps Hp')
      as (p & Hp & (Hid & _) & Hstep & _).
    destruct (handStep_from s p _ Hstep t' Ht')
      as [(t & Hin & _ & Hown & _)|(Hcur & d & Hd & _ & Hown & _)].
    - rewrite Hown, Hid. apply Hhands; assumption.
    - rewrite Hown, Hid, Hcur. apply Hdrawn. exact Hd. }
  assert (Hp : forall t, In t (pool s') -> ownerId t = None).
  { intros t Hin. apply Hpool. apply Hsub. exact Hin. }
  split; [exact Hh|]. split; [|exact Hp]. clear Hh Hp Hps Hsub.
  destruct Hinv as (Hnd & Hcur & _).
  destruct Ht as
    [ (_ & E2 & E3 & _)
    | Hlost
    | _ _ _ E2 E3 _ _ _
    | u tile _ _ E3 _ _ E2 _ _
    | target i tp t _ _ _ _ _ E2 E3 _ _
    | target i tp t next _ _ _ _ _ _ _ E3 _ _
    | b next _ _ _ _ E3 _ _ _ _
    | dragged tid d cp _ Hd _ _ _ _ E3 _ E2 _ _ _ _
    | dragged tid obj cp _ _ _ _ _ _ E3 E2 _ _ _ _ ];
    intros d0 Hd0;
    try (rewrite E2; apply Hdrawn; congruence);
    try congruence.
  - destruct (In_seats_findPlayer _ _ _ Hcur) as (cp & Hcp). congruence.
  - rewrite E2. rewrite E3 in Hd0. injection Hd0 as <-.
    apply claimTile_owner.
  - rewrite E2. rewrite E3 in Hd0. injection Hd0 as <-. simpl.
    apply Hdrawn. exact Hd.
Qed.

Lemma reachable_transition (c : Command) (s s' : GameState) :
  reachable s -> outcomeState (step c s) = Some s' ->
  playersInv s /\ Transition c s s'.
Proof.
  intros Hs Hstep. pose proof (reachable_playersInv s Hs) as Hp.
  split; [exact Hp|]. apply step_transition; [apply Hp|exact Hstep].
Qed.

(** X9: Across any command that returns, the players stay who and where
    they are: seat by seat the id, name, kind and avatar are unchanged;
    a player that is out stays out, and a player is put out only with a
    hand that is revealed entirely. *)
Theorem players_keep_seats (c : Command) (s s' : GameState) :
  reachable s ->
  outcomeState (step c s) = Some s' ->
  Forall2 (fun p p' =>
             samePerson p p' /\
             (isEliminated p = true -> isEliminated p' = true) /\
             (isEliminated p' = true ->
              isEliminated p = true \/ allRevealed p' = true))
          (players s) (players s').
Proof.
  intros Hs Hstep.
  destruct (reachable_transition c s s' Hs Hstep) as [Hinv Ht].
  eapply Forall2_impl; [|apply (transition_players c s s' Hinv Ht)].
  intros p p' (Hsame & _ & [Hflag|(He & He' & Hall)]).
  - split; [exact Hsame|]. rewrite Hflag. auto.
  - split; [exact Hsame|]. split; [congruence|auto].
Qed.

Lemma players_keep_seats_witness :
  Forall2 (fun p p' =>
             samePerson p p' /\
             (isEliminated p = true -> isEliminated p' = true) /\
             (isEliminated p' = true ->
              isEliminated p = true \/ allRevealed p' = true))
          (players lastTileHidden) (players wonGame).
Proof.
  apply (players_keep_seats (CmdGuess "p-1" 3 3)).
  - apply reachable_lastTileHidden.
  - reflexivity.
Defined.

(** X10: In every state of a game each hand is in an order that the
    comparator of [sortHand] accepts between neighbours, also after
    tiles of it were revealed in place. *)
Theorem hands_stay_sorted (s : GameState) :
  reachable s ->
  forall p, In p (players s) -> Sorted notAfter (hand p).
Proof.
  induction 1 as [cfg shuffled rnd s Hcfg Hperm Hstart|c s s' Hs IH Hstep].
  - intros p Hp.
    destruct (startGame_dealt cfg shuffled rnd s Hcfg Hstart) as (Hseats & _).
    destruct (Hseats p Hp) as (i & Hseat). apply Hseat.
  - intros p' Hp'.
    destruct (reachable_transition c s s' Hs Hstep) as [Hinv Ht].
    destruct (Forall2_In_r _ _ _ _ (transition_players c s s' Hinv Ht) Hp')
      as (p & Hp & _ & Hstep' & _).
    apply (handStep_sorted s p); auto.
Qed.

Lemma hands_stay_sorted_witness : Sorted notAfter (hand loser).
Proof.
  apply (hands_stay_sorted wonGame).
  - apply reachable_wonGame.
  - right. left. reflexivity.
Defined.

(** X11: Across any command that returns, seat by seat a hand keeps all
    its tiles, each the same tile of the same owner, revealed if it was
    and placed if it was; a tile that is new in a hand is the drawn tile
    and the hand is the acting player's, so a hand grows by at most one
    tile. *)
Theorem tiles_stay_in_hand (c : Command) (s s' : GameState) :
  reachable s ->
  outcomeState (step c s) = Some s' ->
  Forall2 (fun p p' =>
             (forall t, In t (hand p) ->
                exists t', In t' (hand p') /\ tileKept t t') /\
             (forall t', In t' (hand p') ->
                (exists t, In t (hand p) /\ tileKept t t') \/
                (playerId p = currentTurnPlayerId s /\
                 exists d, drawnTile s = Some d /\ tileKept d t')) /\
             (List.length (hand p') = List.length (hand p) \/
              (playerId p = currentTurnPlayerId s /\ drawnTile s <> None /\
               List.length (hand p') = S (List.length (hand p)))))
          (players s) (players s').
Proof.
  intros Hs Hstep.
  destruct (reachable_transition c s s' Hs Hstep) as [Hinv Ht].
  eapply Forall2_impl; [|apply (transition_players c s s' Hinv Ht)].
  intros p p' (_ & Hhand & _).
  split; [apply (handStep_kept s p); exact Hhand|].
  split; [apply (handStep_from s p); exact Hhand|].
  apply (handStep_length s p); exact Hhand.
Qed.

Lemma tiles_stay_in_hand_witness :
  Forall2 (fun p p' =>
             (forall t, In t (hand p) ->
                exists t', In t' (hand p') /\ tileKept t t') /\
             (forall t', In t' (hand p') ->
                (exists t, In t (hand p) /\ tileKept t t') \/
                (playerId p = currentTurnPlayerId firstGuess /\
                 exists d, drawnTile firstGuess = Some d /\ tileKept d t')) /\
             (List.length (hand p') = List.length (hand p) \/
              (playerId p = currentTurnPlayerId firstGuess /\
               drawnTile firstGuess <> None /\
               List.length (hand p') = S (List.length (hand p)))))
          (players firstGuess)
          (players turnPassed).
Proof.
  apply (tiles_stay_in_hand (CmdGuess "p-1" 0 7)).
  - apply reachable_firstGuess.
  - reflexivity.
Defined.

(** X12: In every state of a game every tile of a hand has the holder
    of the hand as owner, the drawn tile has the acting player as owner
    and the tiles of the pool have no owner. *)
Theorem tiles_have_their_owner (s : GameState) :
  reachable s -> tilesOwned s.
Proof.
  induction 1 as [cfg shuffled rnd s Hcfg Hperm Hstart|c s s' Hs IH Hstep].
  - apply (startGame_tilesOwned cfg shuffled rnd); assumption.
  - destruct (reachable_transition c s s' Hs Hstep) as [Hinv Ht].
    apply (tilesOwned_step c s); assumption.
Qed.

Lemma tiles_have_their_owner_witness : tilesOwned firstGuess.
Proof. apply (tiles_have_their_owner firstGuess). apply reachable_firstGuess. Defined.

Lemma reachable_freshGame : reachable freshGame.
Proof. reach_by validConfig_twoHumans (@nil Command). Qed.

Lemma startGame_tileIds (cfg : GameConfig) (shuffled : list Tile)
    (rnd : string -> Q) (s : GameState) :
  Permutation shuffled (createInitialTiles (includeJokers cfg)) ->
  startGame cfg shuffled rnd = Some s ->
  Permutation (tileIds s)
              (map tileId (createInitialTiles (includeJokers cfg))).
Proof.
  intros Hperm. unfold startGame.
  destruct (dealPlayers _ _ _ _ _ _) as [[[|first others] rest]|] eqn:Hdeal;
    try discriminate.
  intros [= <-].
  assert (Hfresh : Forall freshTile shuffled).
  { apply (Permutation_Forall (Permutation_sym Hperm)).
    apply createInitialTiles_fresh. }
  destruct (dealPlayers_spec _ _ _ _ _ _ _ _ Hdeal Hfresh)
    as (_ & _ & _ & _ & S5).
  apply (perm_trans (l' := map tileId shuffled));
    [|apply Permutation_map; exact Hperm].
  unfold tileIds, allTiles. cbn [players drawnTile pool app]. exact S5.
Qed.

(** X13: In every state of a game the tiles of the hands, the drawn
    tile and the pool together are the tiles of the deck, each one
    once: no command makes, loses or doubles a tile. *)
Theorem deck_is_conserved (s : GameState) :
  reachable s ->
  exists includeJokers,
    Permutation (tileIds s) (map tileId (createInitialTiles includeJokers)).
Proof.
  induction 1 as [cfg shuffled rnd s Hcfg Hperm Hstart|c s s' Hs IH Hstep].
  - exists (includeJokers cfg).
    apply (startGame_tileIds cfg shuffled rnd); assumption.
  - destruct IH as (j & IH). exists j.
    destruct (reachable_transition c s s' Hs Hstep) as [Hinv Ht].
    eapply perm_trans; [|exact IH].
    apply (transition_tileIds c s s' Hinv Ht).
Qed.

Lemma deck_is_conserved_witness :
  exists includeJokers,
    Permutation (tileIds jokerDrawn)
                (map tileId (createInitialTiles includeJokers)).
Proof. apply (deck_is_conserved jokerDrawn). apply reachable_jokerDrawn. Defined.

(** X14: A command that returns leaves the pool as it is, or takes its
    last tile in the Draw phase and makes it, owned by the acting
    player, the drawn tile; no command puts a tile back. *)
Theorem pool_only_shrinks (c : Command) (s s' : GameState) :
  reachable s ->
  outcomeState (step c s) = Some s' ->
  pool s' = pool s \/
  exists u tile,
    phase s = DRAW /\
    pool s = (pool s' ++ [tile])%list /\
    drawnTile s
      = None /\
    drawnTile s'
      = Some (claimTile (currentTurnPlayerId s) (players s) u tile).
Proof.
  intros Hs Hstep.
  destruct (reachable_transition c s s' Hs Hstep) as [Hinv Ht].
  destruct Hinv as (Hnd & Hcur & _ & _ & Hdraw).
  destruct Ht as
    [ (_ & _ & _ & E4 & _)
    | Hlost
    | _ _ _ _ _ E4 _ _
    | u tile Hph Hpool E3 _ _ _ _ _
    | target i tp t0 _ _ _ _ _ _ _ E4 _
    | target i tp t0 next _ _ _ _ _ _ _ _ E4 _
    | b next _ _ _ _ _ _ E4 _ _
    | dragged tid d cp _ _ _ _ _ _ _ _ _ E4 _ _ _
    | dragged tid obj cp _ _ _ _ _ _ _ _ E4 _ _ _ ]; auto.
  - destruct (In_seats_findPlayer _ _ _ Hcur) as (cp & Hcp). congruence.
  - right. exists u, tile. auto.
Qed.

Lemma pool_only_shrinks_witness :
  pool firstGuess = pool freshGame \/
  exists u tile,
    phase freshGame = DRAW /\
    pool freshGame = (pool firstGuess ++ [tile])%list /\
    drawnTile freshGame = None /\
    drawnTile firstGuess
      = Some (claimTile (currentTurnPlayerId freshGame) (players freshGame)
                        u tile).
Proof.
  apply (pool_only_shrinks (CmdDraw 0)).
  - apply reachable_freshGame.
  - reflexivity.
Defined.

Lemma reachable_moveNumber (s : GameState) :
  reachable s -> 1 <= moveNumber s.
Proof.
  induction 1 as [cfg shuffled rnd s Hcfg Hperm Hstart|c s s' Hs IH Hstep].
  - destruct (startGame_dealt cfg shuffled rnd s Hcfg Hstart)
      as (_ & _ & _ & _ & _ & _ & ->). lia.
  - destruct (reachable_transition c s s' Hs Hstep) as [Hinv Ht].
    destruct Hinv as (Hnd & Hcur & _).
    destruct Ht as
      [ (_ & _ & _ & _ & _ & _ & E6)
      | Hlost
      | _ _ _ _ _ _ _ E6
      | u tile _ _ _ _ _ _ _ E6
      | target i tp t0 _ _ _ _ _ _ _ _ E6
      | target i tp t0 next _ _ _ _ _ _ _ _ _ E6
      | b next _ _ _ _ _ _ _ _ E6
      | dragged tid d cp _ _ _ _ _ _ _ _ _ _ _ _ E6
      | dragged tid obj cp _ _ _ _ _ _ _ _ _ _ _ E6 ]; try lia.
    destruct (In_seats_findPlayer _ _ _ Hcur) as (cp & Hcp). congruence.
Qed.

(** X15: The move number starts at 1 and a command that returns leaves
    it or adds one to it; when it adds one, the turn has ended: the next
    state is in the Draw phase with no tile drawn, the drawn tile of the
    turn is in no slot any more and the winner is as before. *)
Theorem moveNumber_counts_turns (c : Command) (s s' : GameState) :
  reachable s ->
  outcomeState (step c s) = Some s' ->
  1 <= moveNumber s /\
  (moveNumber s' = moveNumber s \/
   moveNumber s' = moveNumber s + 1 /\
   phase s' = DRAW /\ drawnTile s' = None /\ winnerId s' = winnerId s /\
   pool s' = pool s).
Proof.
  intros Hs Hstep. split; [apply reachable_moveNumber; exact Hs|].
  destruct (reachable_transition c s s' Hs Hstep) as [Hinv Ht].
  destruct Hinv as (Hnd & Hcur & _).
  destruct Ht as
    [ (_ & _ & _ & _ & _ & _ & E6)
    | Hlost
    | _ _ _ _ _ _ _ E6
    | u tile _ _ _ _ _ _ _ E6
    | target i tp t0 _ _ _ _ _ _ _ _ E6
    | target i tp t0 next _ _ _ _ _ _ _ _ _ E6
    | b next _ _ _ _ E3 Hph E4 E5 E6
    | dragged tid d cp _ _ _ _ _ _ _ _ _ _ _ _ E6
    | dragged tid obj cp _ _ _ _ _ _ _ _ _ _ _ E6 ]; auto.
  - destruct (In_seats_findPlayer _ _ _ Hcur) as (cp & Hcp). congruence.
  - right. auto.
Qed.

Lemma moveNumber_counts_turns_witness :
  1 <= moveNumber firstGuess /\
  (moveNumber turnPassed
   = moveNumber firstGuess \/
   moveNumber turnPassed
   = moveNumber firstGuess + 1 /\
   phase turnPassed = DRAW /\
   drawnTile turnPassed = None /\
   winnerId turnPassed
   = winnerId firstGuess /\
   pool turnPassed
   = pool firstGuess).
Proof.
  apply (moveNumber_counts_turns (CmdGuess "p-1" 0 7)).
  - apply reachable_firstGuess.
  - reflexivity.
Defined.

(** ** The log *)

Lemma firstn_cons_firstn {A : Type} (n : nat) (x : A) (l : list A) :
  firstn n (x :: firstn n l) = firstn n (x :: l).
Proof.
  destruct n as [|n]; [reflexivity|].
  change (firstn (S n) (x :: firstn (S n) l))
    with (x :: firstn n (firstn (S n) l)).
  change (firstn (S n) (x :: l)) with (x :: firstn n l).
  f_equal. rewrite firstn_firstn. f_equal. lia.
Qed.

Lemma keeps_addLog (s : GameState) (msg : string) :
  keepsHistory s (addLog msg).
Proof.
  intros prev (msgs & H). exists (msg :: msgs).
  unfold addLog, setTurnLog. cbn [turnLog]. rewrite H.
  apply firstn_cons_firstn.
Qed.

Lemma keeps_setter (s : GameState) (u : Updater) :
  (forall prev, turnLog (u prev) = turnLog prev) -> keepsHistory s u.
Proof. intros Hu prev (msgs & H). exists msgs. rewrite Hu. exact H. Qed.

Lemma keeps_const (s x : GameState) :
  (List.length (turnLog s) <= 50)%nat -> turnLog x = turnLog s ->
  keepsHistory s (fun _ => x).
Proof.
  intros Hlen Hx prev _. exists []. rewrite Hx.
  change ([] ++ turnLog s)%list with (turnLog s).
  symmetry. apply firstn_all2. exact Hlen.
Qed.

Lemma commit_keepsHistory (s : GameState) (q : list Updater) :
  Forall (keepsHistory s) q ->
  forall prev, extendsLog s prev -> extendsLog s (commit q prev).
Proof.
  unfold commit. induction 1 as [|u q Hu _ IH]; intros prev Hprev; simpl.
  - exact Hprev.
  - apply IH. apply Hu. exact Hprev.
Qed.

Lemma andThen_keepsHistory (s : GameState) (q : list Updater) (r : Run) :
  Forall (keepsHistory s) q -> runKeepsHistory s r ->
  runKeepsHistory s (andThen q r).
Proof.
  intros Hq Hr. destruct r as [q'|q'|]; simpl in *; auto;
    apply Forall_app; auto.
Qed.

Ltac keeps_history :=
  repeat first
    [ apply Forall_nil
    | apply Forall_cons
    | apply Forall_app; split
    | apply keeps_addLog
    | apply keeps_setter; intro; reflexivity ].

Lemma checkWinner_keepsHistory (s : GameState) (ps : list Player) :
  Forall (keepsHistory s) (checkWinner ps).
Proof.
  unfold checkWinner. destruct (activePlayers ps) as [|w [|]]; keeps_history.
Qed.

Lemma drawTile_keepsHistory (u : Q) (s : GameState) :
  runKeepsHistory s (drawTile u s).
Proof.
  unfold drawTile. destruct (negb _); simpl; [constructor|].
  destruct (pop (pool s)) as [[tile newPool]|]; simpl; keeps_history.
Qed.

Lemma endTurn_keepsHistory (b : bool) (s : GameState) :
  (List.length (turnLog s) <= 50)%nat ->
  runKeepsHistory s (endTurn b s).
Proof.
  intro Hlen. unfold endTurn.
  assert (Hlog : Forall (keepsHistory s)
            match drawnTile s with
            | Some drawn =>
                if b then []
                else [addLog ("Revealed drawn tile: " ++ showColor (color drawn)
                              ++ " " ++ describeTile drawn)]
            | None => []
            end).
  { destruct (drawnTile s); [destruct b|]; keeps_history. }
  destruct (mergeDrawn _ _ _) as [newPlayers|]; simpl; [|exact Hlog].
  destruct (nextPlayerIdx _ _) as [nextIdx| |]; simpl; auto.
  destruct (nth_error newPlayers nextIdx) as [next|]; simpl; [|exact Hlog].
  apply Forall_app. split; [exact Hlog|]. constructor; [|constructor].
  apply keeps_const; [exact Hlen|reflexivity].
Qed.

Lemma dispatch_keepsHistory (c : Command) (s : GameState) :
  (List.length (turnLog s) <= 50)%nat ->
  runKeepsHistory s (dispatch c s).
Proof.
  intro Hlen. destruct c as [u|target i v| |b|d t|j u1 u2 u3 u4|u];
    simpl dispatch.
  - apply drawTile_keepsHistory.
  - unfold guess. destruct (handleTileClick s target i) as [|m|];
      simpl; try constructor.
    unfold submitGuess.
    destruct (findPlayer _ _) as [tp|]; simpl; [|constructor].
    destruct (at_ _ _) as [tt|]; simpl; [|constructor].
    destruct (value tt =? v).
    + simpl. destruct (targetAllRevealed _ _); keeps_history;
        apply checkWinner_keepsHistory.
    + apply andThen_keepsHistory; [keeps_history|].
      apply endTurn_keepsHistory. exact Hlen.
  - unfold continueTurn. destruct (GamePhase_eqb _ _); simpl; keeps_history.
  - apply endTurn_keepsHistory. exact Hlen.
  - unfold handleDrop. destruct (String.eqb d t); simpl; [constructor|].
    destruct (findPlayer _ _) as [cp|]; simpl; [|constructor].
    destruct (if match drawnTile s with
                 | Some d0 => tileHasId d d0
                 | None => false
                 end then drawnTile s else find (tileHasId d) (hand cp))
      as [obj|]; simpl; [|constructor].
    destruct (negb (isJoker obj) || isPlaced obj); simpl; [constructor|].
    destruct (match drawnTile s with
              | Some d0 => tileHasId d d0
              | None => false
              end); simpl; keeps_history.
  - unfold executeBotMove. destruct (phase s); simpl; try constructor.
    + apply drawTile_keepsHistory.
    + destruct (filter _ (players s)) as [|o os]; simpl; [constructor|].
      destruct (at_ _ _) as [target|]; simpl; [|constructor].
      destruct (filter _ (indexed (hand target))) as [|h hs];
        simpl; [constructor|].
      destruct (at_ _ _) as [[targetTile i]|]; simpl; [|constructor].
      destruct (match at_ _ _ with
                | Some guessVal => value targetTile =? guessVal
                | None => false
                end).
      * destruct (getNextPlayerId _ _) as [nextId| |]; simpl; auto;
          [|keeps_history].
        destruct (mergeDrawn _ _ _) as [m|]; simpl; keeps_history.
        apply checkWinner_keepsHistory.
      * apply andThen_keepsHistory; [keeps_history|].
        apply endTurn_keepsHistory. exact Hlen.
    + apply endTurn_keepsHistory. exact Hlen.
  - unfold handleTimeOut. destruct (drawnTile s) eqn:Hd.
    + apply andThen_keepsHistory; [keeps_history|].
      apply endTurn_keepsHistory. exact Hlen.
    + apply drawTile_keepsHistory.
Qed.

Lemma step_extendsLog (c : Command) (s s' : GameState) :
  (List.length (turnLog s) <= 50)%nat ->
  outcomeState (step c s) = Some s' ->
  extendsLog s s'.
Proof.
  intros Hlen Hstep. pose proof (dispatch_keepsHistory c s Hlen) as Hrun.
  assert (Hs : extendsLog s s).
  { exists []. change ([] ++ turnLog s)%list with (turnLog s).
    symmetry. apply firstn_all2. exact Hlen. }
  unfold step in Hstep. destruct (dispatch c s) as [q|q|]; simpl in *;
    try discriminate; injection Hstep as <-;
    apply commit_keepsHistory; assumption.
Qed.

Lemma reachable_log (s : GameState) :
  reachable s -> (1 <= List.length (turnLog s) <= 50)%nat.
Proof.
  induction 1 as [cfg shuffled rnd s Hcfg Hperm Hstart|c s s' Hs IH Hstep].
  - destruct (startGame_dealt cfg shuffled rnd s Hcfg Hstart)
      as (_ & _ & _ & _ & _ & -> & _). simpl. lia.
  - destruct (step_extendsLog c s s' (proj2 IH) Hstep) as (msgs & ->).
    rewrite length_firstn, length_app. lia.
Qed.

(** X16: The log of a game is never empty and never longer than 50
    entries, and a command that returns only adds entries in front of
    it: the log after it is the entries added, then the log before it,
    cut to the first 50. *)
Theorem log_keeps_history (c : Command) (s s' : GameState) :
  reachable s ->
  outcomeState (step c s) = Some s' ->
  (1 <= List.length (turnLog s) <= 50)%nat /\
  exists msgs, turnLog s' = firstn 50 (msgs ++ turnLog s)%list.
Proof.
  intros Hs Hstep. pose proof (reachable_log s Hs) as Hlen.
  split; [exact Hlen|].
  apply (step_extendsLog c s s' (proj2 Hlen) Hstep).
Qed.

Lemma log_keeps_history_witness :
  (1 <= List.length (turnLog lastTileHidden) <= 50)%nat /\
  exists msgs,
    turnLog wonGame = firstn 50 (msgs ++ turnLog lastTileHidden)%list.
Proof.
  apply (log_keeps_history (CmdGuess "p-1" 3 3)).
  - apply reachable_lastTileHidden.
  - reflexivity.
Defined.

(** ** Phases and the winner *)

(** X18: Once a winner is set, no command changes it. *)
Theorem winner_is_final (c : Command) (s s' : GameState) (w : string) :
  reachable s ->
  winnerId s = Some w ->
  outcomeState (step c s) = Some s' ->
  winnerId s' = Some w.
Proof.
  intros Hs Hwin Hstep.
  destruct (reachable_transition c s s' Hs Hstep) as [Hinv Ht].
  pose proof (transition_players c s s' Hinv Ht) as Hps.
  destruct Hinv as (Hnd & Hcur & _ & Hagree & _).
  unfold winnerAgrees in Hagree. rewrite Hwin in Hagree.
  assert (Hcheck : forall quiet, winnerCheck (players s') quiet s s' ->
                                 winnerId s' = Some w).
  { intros quiet Hw. unfold winnerCheck in Hw.
    destruct (activePlayers (players s')) as [|w0 [|]] eqn:Hact;
      try (destruct Hw as [_ ->]; exact Hwin).
    destruct Hw as [_ ->]. f_equal.
    assert (Hin : In w0 (activePlayers (players s')))
      by (rewrite Hact; left; reflexivity).
    apply filter_In in Hin. destruct Hin as [Hin He].
    apply negb_true_iff in He.
    destruct (Forall2_In_r _ _ _ _ Hps Hin)
      as (p & Hp & (Hid & _) & _ & Hflag).
    assert (Hpe : isEliminated p = false).
    { destruct Hflag as [Hf|(_ & Hf & _)]; congruence. }
    assert (Hpw : In (playerId p) (activeIds (players s))).
    { apply In_seats_active. unfold seats. apply in_map_iff.
      exists p. rewrite Hpe. auto. }
    rewrite Hagree in Hpw. destruct Hpw as [Hpw|[]]. congruence. }
  destruct Ht as
    [ (_ & _ & _ & _ & _ & E6 & _)
    | Hlost
    | _ _ _ _ _ _ E6 _
    | u tile _ _ _ _ _ _ E6 _
    | target i tp t0 _ _ _ _ Hw _ _ _ _
    | target i tp t0 next _ _ _ Hw _ _ _ _ _ _
    | b next _ _ _ _ _ _ _ E6 _
    | dragged tid d cp _ _ _ _ _ _ _ _ _ _ _ E6 _
    | dragged tid obj cp _ _ _ _ _ _ _ _ _ _ E6 _ ];
    try (rewrite E6; exact Hwin); eauto.
  destruct (In_seats_findPlayer _ _ _ Hcur) as (cp & Hcp). congruence.
Qed.

Lemma winner_is_final_witness : winnerId playedOn = Some "p-0".
Proof.
  apply (winner_is_final (CmdEndTurn true) wonGame).
  - apply reachable_wonGame.
  - reflexivity.
  - reflexivity.
Defined.

(** ** Commands return *)


Lemma nextPlayerIdx_exits (ps : list Player) (cur : option nat) :
  (exists p, In p ps /\ isEliminated p = false) ->
  exists k, nextPlayerIdx ps cur = Exit k.
Proof.
  intros Hactive.
  assert (Hne : ps <> []).
  { destruct Hactive as (p & Hp & _). intros E. rewrite E in Hp.
    contradiction. }
  assert (Hlen : (0 < List.length ps)%nat).
  { destruct ps; [congruence|simpl; lia]. }
  assert (Hstart : (nextStart cur (List.length ps) < List.length ps)%nat).
  { destruct cur as [i|]; simpl; [apply Nat.mod_upper_bound; lia|exact Hlen]. }
  destruct (firstActiveFrom_exists ps _ Hstart Hactive) as (k & Hk & Hfirst).
  eexists. rewrite nextPlayerIdx_unfold by exact Hne.
  apply skipEliminated_exit; eauto.
Qed.

Lemma getNextPlayerId_returns (ps : list Player) (current : string) :
  (exists p, In p ps /\ isEliminated p = false) ->
  exists ident, getNextPlayerId ps current = NextIs ident.
Proof.
  intro Hactive. unfold getNextPlayerId.
  destruct (nextPlayerIdx_exits ps (findIndex (hasId current) ps) Hactive)
    as (k & Hk).
  rewrite Hk. destruct (nextPlayerIdx_Exit _ _ _ Hk) as (p & -> & _).
  eexists. reflexivity.
Qed.








(** ** Where a dropped joker goes *)

Lemma Qmid (a b : Q) :
  (a <= b)%Q -> (a <= (a + b) / 2)%Q /\ ((a + b) / 2 <= b)%Q.
Proof.
  intro H.
  assert (E : ((a + b) / 2 == (a + b) * (1 # 2))%Q)
    by (unfold Qdiv; reflexivity).
  rewrite E. split; lra.
Qed.

Lemma sortValueAt_nth (h : list Tile) (i : nat) (t : Tile) :
  nth_error h i = Some t -> sortValueAt h i = sortValue t.
Proof. unfold sortValueAt. intros ->. reflexivity. Qed.

(** X20: The sort key that [handleDrop] gives a joker dropped on a tile
    of a hand whose keys do not decrease: it is at most the key of the
    target and at least the key of every other tile left of the target,
    so the joker goes directly before the target; dropped on no tile of
    the hand, it gets a key above every key of the hand. *)
Theorem dropSortValue_between (h : list Tile) (draggedId targetTileId : string) :
  keysAscend h ->
  (forall k tk,
     findIndex (tileHasId targetTileId) h = Some k ->
     nth_error h k = Some tk ->
     (dropSortValue h draggedId targetTileId <= sortValue tk)%Q /\
     forall j x, (j < k)%nat -> nth_error h j = Some x ->
                 tileId x <> draggedId ->
                 (sortValue x <= dropSortValue h draggedId targetTileId)%Q) /\
  (findIndex (tileHasId targetTileId) h = None ->
   forall x, In x h ->
             (sortValue x < dropSortValue h draggedId targetTileId)%Q).
Proof.
  intro Hasc. split.
  - intros k tk Hk Htk. unfold dropSortValue. rewrite Hk.
    rewrite (sortValueAt_nth h k tk Htk).
    destruct k as [|prev].
    { split; [lra|]. intros j x Hj. lia. }
    assert (Hprev : exists tp, nth_error h prev = Some tp).
    { destruct (nth_error h prev) as [tp|] eqn:E; [exists tp; auto|].
      apply nth_error_None in E.
      assert (S prev < List.length h)%nat
        by (apply nth_error_Some; rewrite Htk; discriminate).
      lia. }
    destruct Hprev as (tp & Htp).
    unfold idAt. rewrite Htp. simpl option_map.
    rewrite (sortValueAt_nth h prev tp Htp).
    pose proof (Hasc prev (S prev) tp tk ltac:(lia) Htp Htk) as Hle.
    destruct (String.eqb (tileId tp) draggedId) eqn:Hdrag.
    + apply String.eqb_eq in Hdrag.
      destruct (1 <? S prev)%nat eqn:Hlt; simpl andb; cbv iota.
      * apply Nat.ltb_lt in Hlt.
        destruct prev as [|pp]; [lia|].
        replace (S (S pp) - 2)%nat with pp by lia.
        assert (Hpp : exists tpp, nth_error h pp = Some tpp).
        { destruct (nth_error h pp) as [tpp|] eqn:E; [exists tpp; auto|].
          apply nth_error_None in E.
          assert (S pp < List.length h)%nat
            by (apply nth_error_Some; rewrite Htp; discriminate).
          lia. }
        destruct Hpp as (tpp & Htpp).
        rewrite (sortValueAt_nth h pp tpp Htpp).
        pose proof (Hasc pp (S (S pp)) tpp tk ltac:(lia) Htpp Htk) as Hle2.
        destruct (Qmid _ _ Hle2) as [M1 M2].
        split; [exact M2|]. intros j x Hj Hx Hne.
        assert (Hjne : j <> S pp) by (intros ->; congruence).
        pose proof (Hasc j pp x tpp ltac:(lia) Hx Htpp). lra.
      * apply Nat.ltb_ge in Hlt. assert (prev = O) by lia. subst prev.
        split; [lra|]. intros j x Hj Hx Hne.
        assert (j = O) by lia. subst j. congruence.
    + simpl andb. cbv iota.
      destruct (Qmid _ _ Hle) as [M1 M2].
      split; [exact M2|]. intros j x Hj Hx Hne.
      pose proof (Hasc j prev x tp ltac:(lia) Hx Htp). lra.
  - intros Hnone x Hin. unfold dropSortValue. rewrite Hnone.
    destruct (pop h) as [[lastTile rest]|] eqn:Hpop.
    + apply pop_Some in Hpop. subst h.
      apply In_nth_error in Hin. destruct Hin as (i & Hi).
      assert (Hlen : (i < List.length (rest ++ [lastTile]))%nat)
        by (apply nth_error_Some; rewrite Hi; discriminate).
      rewrite length_app in Hlen. simpl in Hlen.
      assert (Hlast : nth_error (rest ++ [lastTile]) (List.length rest)
                      = Some lastTile).
      { rewrite nth_error_app2 by lia. rewrite Nat.sub_diag. reflexivity. }
      pose proof (Hasc i (List.length rest) x lastTile ltac:(lia) Hi Hlast).
      lra.
    + apply pop_None in Hpop. subst h. contradiction.
Qed.

Lemma keysAscend_jokerLast : keysAscend jokerLast.
Proof.
  intros i j a b Hij Ha Hb.
  destruct i as [|[|[|i]]]; destruct j as [|[|[|j]]];
    simpl in Ha, Hb; try lia;
    try (destruct i; discriminate); try (destruct j; discriminate);
    injection Ha as <-; injection Hb as <-; simpl; try lra;
    try (unfold Qle; simpl; lia).
Qed.

Lemma dropSortValue_between_witness :
  (forall k tk,
     findIndex (tileHasId "w-5") jokerLast = Some k ->
     nth_error jokerLast k = Some tk ->
     (dropSortValue jokerLast "b-joker" "w-5" <= sortValue tk)%Q /\
     forall j x, (j < k)%nat -> nth_error jokerLast j = Some x ->
                 tileId x <> "b-joker" ->
                 (sortValue x <= dropSortValue jokerLast "b-joker" "w-5")%Q) /\
  (findIndex (tileHasId "w-5") jokerLast = None ->
   forall x, In x jokerLast ->
             (sortValue x < dropSortValue jokerLast "b-joker" "w-5")%Q).
Proof.
  apply (dropSortValue_between jokerLast "b-joker" "w-5").
  apply keysAscend_jokerLast.
Defined.

(** ** Lists, pair by pair *)

Lemma Forall2_impl_In {A B : Type} (R R' : A -> B -> Prop) (l : list A)
    (l' : list B) :
  Forall2 R l l' ->
  (forall x y, In x l -> R x y -> R' x y) ->
  Forall2 R' l l'.
Proof.
  induction 1 as [|x y l l' Hxy _ IH]; intro Himp; constructor.
  - apply Himp; [left; reflexivity|exact Hxy].
  - apply IH. intros a b Hin. apply Himp. right. exact Hin.
Qed.

(** ** The setup form *)

Lemma detailFor_isBot (prev : list PlayerSetupConfig) (humanCount : Z)
    (i : nat) :
  cfgIsBot (detailFor prev humanCount i) = (humanCount <=? Z.of_nat i).
Proof. unfold detailFor. destruct (nth_error prev i); reflexivity. Qed.

Lemma defaultName_not_empty (isBot : bool) (i humanCount : Z) :
  defaultName isBot i humanCount <> EmptyString.
Proof. unfold defaultName. destruct isBot; simpl; discriminate. Qed.

Lemma detailFor_name (prev : list PlayerSetupConfig) (humanCount : Z)
    (i : nat) :
  cfgName (detailFor prev humanCount i) <> EmptyString.
Proof.
  unfold detailFor. destruct (nth_error prev i) as [d|]; simpl.
  - destruct (String.eqb (cfgName d) EmptyString) eqn:E.
    + apply defaultName_not_empty.
    + apply String.eqb_neq. exact E.
  - apply defaultName_not_empty.
Qed.

Lemma fillDetails_nth (playerCount botCount : Z)
    (prev : list PlayerSetupConfig) (i : nat) (d : PlayerSetupConfig) :
  nth_error (fillDetails playerCount botCount prev) i = Some d ->
  (i < Z.to_nat playerCount)%nat /\
  d = detailFor prev (Z.max 1 (playerCount - botCount)) i.
Proof.
  unfold fillDetails. intro H.
  assert (Hi : (i < Z.to_nat playerCount)%nat).
  { assert (Hlt : (i < List.length
                          (map (detailFor prev
                                  (Z.max 1 (playerCount - botCount)))
                               (seq 0 (Z.to_nat playerCount))))%nat)
      by (apply nth_error_Some; rewrite H; discriminate).
    rewrite length_map, length_seq in Hlt. exact Hlt. }
  split; [exact Hi|].
  rewrite (nth_error_map (detailFor prev _)) in H.
  rewrite nth_error_seq in H.
  apply Nat.ltb_lt in Hi. rewrite Hi in H. simpl in H. congruence.
Qed.

Lemma count_bots (prev : list PlayerSetupConfig) (humanCount : Z) (n : nat) :
  1 <= humanCount <= Z.of_nat n ->
  List.length (filter cfgIsBot (map (detailFor prev humanCount) (seq 0 n)))
  = (n - Z.to_nat humanCount)%nat.
Proof.
  intros [H1 Hn].
  assert (Hgen : forall m start,
            List.length (filter cfgIsBot
                           (map (detailFor prev humanCount) (seq start m)))
            = (Nat.max (start + m) (Z.to_nat humanCount)
               - Nat.max start (Z.to_nat humanCount))%nat).
  { induction m as [|m IH]; intro start; simpl.
    - rewrite Nat.add_0_r. lia.
    - rewrite detailFor_isBot.
      destruct (humanCount <=? Z.of_nat start) eqn:E; simpl; rewrite IH.
      + apply Z.leb_le in E. lia.
      + apply Z.leb_gt in E. lia. }
  rewrite Hgen. lia.
Qed.

(** X22: The details that the setup form fills in for two to four
    players make a configuration that [startGame] accepts: one detail
    per player, each with a name; player [i] is automated exactly when
    [i] is at least [max(1, playerCount - botCount)], so the first
    player never is.  With the number of bots cut down as the form does,
    it is below the number of players and exactly that many players are
    automated. *)
Theorem setup_form_details (playerCount timerSeconds botCount : Z)
    (prev : list PlayerSetupConfig) (jokers : bool) :
  2 <= playerCount <= 4 ->
  0 <= botCount ->
  let details := fillDetails playerCount botCount prev in
  validConfig (formConfig playerCount timerSeconds botCount details jokers) /\
  (forall i d, nth_error details i = Some d ->
     cfgIsBot d = (Z.max 1 (playerCount - botCount) <=? Z.of_nat i) /\
     cfgName d <> EmptyString) /\
  (exists d, nth_error details 0 = Some d /\ cfgIsBot d = false) /\
  0 <= clampBotCount playerCount botCount < playerCount /\
  List.length
    (filter cfgIsBot
       (fillDetails playerCount (clampBotCount playerCount botCount) prev))
  = Z.to_nat (clampBotCount playerCount botCount).
Proof.
  intros Hpc Hbc details.
  assert (Hlen : List.length details = Z.to_nat playerCount).
  { unfold details, fillDetails. rewrite length_map, length_seq. reflexivity. }
  split; [|split; [|split; [|split]]].
  - unfold validConfig, formConfig. simpl. split; [lia|exact Hlen].
  - intros i d Hd. apply fillDetails_nth in Hd. destruct Hd as [_ ->].
    split; [apply detailFor_isBot|apply detailFor_name].
  - destruct (nth_error details 0) as [d|] eqn:Hd.
    + exists d. split; [reflexivity|].
      apply fillDetails_nth in Hd. destruct Hd as [_ ->].
      rewrite detailFor_isBot. apply Z.leb_gt. simpl. lia.
    + apply nth_error_None in Hd. lia.
  - unfold clampBotCount. destruct (playerCount <=? botCount) eqn:E.
    + lia.
    + apply Z.leb_gt in E. lia.
  - assert (Hc : 0 <= clampBotCount playerCount botCount < playerCount).
    { unfold clampBotCount. destruct (playerCount <=? botCount) eqn:E;
        [lia|apply Z.leb_gt in E; lia]. }
    unfold fillDetails. rewrite count_bots by lia. lia.
Qed.

Lemma setup_form_details_witness :
  validConfig (formConfig 3 60 5 (fillDetails 3 5 []) false) /\
  (forall i d, nth_error (fillDetails 3 5 []) i = Some d ->
     cfgIsBot d = (Z.max 1 (3 - 5) <=? Z.of_nat i) /\
     cfgName d <> EmptyString) /\
  (exists d, nth_error (fillDetails 3 5 []) 0 = Some d /\ cfgIsBot d = false) /\
  0 <= clampBotCount 3 5 < 3 /\
  List.length (filter cfgIsBot (fillDetails 3 (clampBotCount 3 5) []))
  = Z.to_nat (clampBotCount 3 5).
Proof. apply (setup_form_details 3 60 5 [] false); lia. Defined.

(** ** Timeouts on an empty pool *)

Lemma timeOut_empty_pool (u : Q) (s : GameState) :
  pool s = [] -> drawnTile s = None ->
  exists s',
    step (CmdTimeOut u) s = Ok s' /\
    pool s' = [] /\ drawnTile s' = None /\
    players s' = players s /\
    currentTurnPlayerId s' = currentTurnPlayerId s /\
    moveNumber s' = moveNumber s /\
    winnerId s' = winnerId s /\
    (phase s <> DRAW -> s' = s) /\
    (phase s = DRAW -> phase s' = GUESS).
Proof.
  intros Hpool Hd. unfold step, dispatch, handleTimeOut, drawTile.
  rewrite Hd, Hpool.
  destruct (phase s) eqn:Hph; simpl; eexists; (split; [reflexivity|]);
    simpl; repeat split; auto; try congruence; try discriminate.
Qed.

(** X24: When the pool is empty and no tile is drawn, the timer cannot
    end a turn: however often it runs out, the acting player, the players
    and the move number stay as they are; the first timeout in the Draw
    phase only opens the Guess phase. *)
Theorem timeouts_never_pass_turn (us : list Q) (s : GameState) :
  pool s = [] -> drawnTile s = None ->
  exists s',
    run (map CmdTimeOut us) s = Some s' /\
    players s' = players s /\
    currentTurnPlayerId s' = currentTurnPlayerId s /\
    moveNumber s' = moveNumber s /\
    winnerId s' = winnerId s /\
    (phase s <> DRAW -> s' = s) /\
    (phase s = DRAW -> us <> [] -> phase s' = GUESS).
Proof.
  revert s. induction us as [|u us IH]; intros s Hpool Hd.
  - exists s. simpl. repeat split; auto. congruence.
  - destruct (timeOut_empty_pool u s Hpool Hd)
      as (s1 & Hstep & Hpool1 & Hd1 & E1 & E2 & E3 & E4 & Hsame & Hguess).
    destruct (IH s1 Hpool1 Hd1)
      as (s' & Hrun & F1 & F2 & F3 & F4 & Hsame' & _).
    exists s'. simpl map. simpl run. rewrite Hstep. simpl outcomeState.
    split; [exact Hrun|]. repeat split; try congruence.
    + intro Hph. rewrite <- (Hsame Hph). apply Hsame'.
      rewrite (Hsame Hph). exact Hph.
    + intros Hph _. rewrite Hsame'; [apply Hguess; exact Hph|].
      rewrite (Hguess Hph). discriminate.
Qed.

Lemma timeouts_never_pass_turn_witness :
  exists s',
    run (map CmdTimeOut [0%Q; 0%Q; 0%Q]) poolEmptied = Some s' /\
    players s' = players poolEmptied /\
    currentTurnPlayerId s' = currentTurnPlayerId poolEmptied /\
    moveNumber s' = moveNumber poolEmptied /\
    winnerId s' = winnerId poolEmptied /\
    (phase poolEmptied <> DRAW -> s' = poolEmptied) /\
    (phase poolEmptied = DRAW -> [0%Q; 0%Q; 0%Q] <> [] -> phase s' = GUESS).
Proof.
  apply (timeouts_never_pass_turn [0%Q; 0%Q; 0%Q] poolEmptied); reflexivity.
Defined.

(** ** A new game *)

(** X25: For a configuration of the setup form and random numbers that
    are at least 0 and less than 1, the shuffle of the new deck returns
    and [startGame] on the shuffled deck gives a first state: every
    game that the form can start is a game in the sense of
    [reachable]. *)
Theorem new_game_starts (cfg : GameConfig) (rnd : nat -> Q)
    (jokerRnd : string -> Q) :
  validConfig cfg ->
  (forall k, (0 <= rnd k)%Q /\ (rnd k < 1)%Q) ->
  exists shuffled s,
    shuffle rnd (createInitialTiles (includeJokers cfg)) = Some shuffled /\
    startGame cfg shuffled jokerRnd = Some s /\
    reachable s.
Proof.
  intros Hcfg Hrnd. pose proof Hcfg as [Hn Hdet].
  pose proof (createInitialTiles_length (includeJokers cfg)) as Hdeck.
  destruct (shuffleFrom_Permutation rnd
              (List.length (createInitialTiles (includeJokers cfg)) - 1)
              Hrnd (createInitialTiles (includeJokers cfg)))
    as (shuffled & Hshuffle & Hperm).
  { lia. }
  apply Permutation_sym in Hperm.
  destruct (dealPlayers_deal (playerCount cfg) 0 (playerDetails cfg)
              (tilesPerPlayer cfg) shuffled shuffled jokerRnd)
    as (ps & Hdeal & Hps & _).
  { lia. }
  { reflexivity. }
  simpl in Hdeal.
  destruct ps as [|first others]; [simpl in Hps; lia|].
  exists shuffled. eexists.
  split; [exact Hshuffle|].
  assert (Hstart : startGame cfg shuffled jokerRnd
                   = Some (mkGameState (first :: others) (playerId first) None
                             (skipn (playerCount cfg * tilesPerPlayer cfg)
                                    shuffled)
                             DRAW None ["Game Started!"] 1)).
  { unfold startGame. fold (tilesPerPlayer cfg). rewrite Hdeal. reflexivity. }
  split; [exact Hstart|].
  apply (reach_start cfg shuffled jokerRnd); assumption.
Qed.

Lemma new_game_starts_witness :
  exists shuffled s,
    shuffle alwaysZero (createInitialTiles (includeJokers humanAndBotJokers))
      = Some shuffled /\
    startGame humanAndBotJokers shuffled noRandom = Some s /\
    reachable s.
Proof.
  apply (new_game_starts humanAndBotJokers alwaysZero noRandom).
  - unfold validConfig. simpl. lia.
  - intro k. unfold alwaysZero. split; [apply Qle_refl|reflexivity].
Defined.

(** * The game with the dialog *)

(** ** Events as moves *)

Lemma answer_split (ps : list Player) (target : string) (i : Z)
    (tp : Player) (t : Tile) :
  NoDup (map playerId ps) ->
  findPlayer target ps = Some tp ->
  at_ (hand tp) i = Some t ->
  exists l1 l2,
    ps = (l1 ++ tp :: l2)%list /\
    afterCorrectGuess target i ps = (l1 ++ answeredTarget tp i t :: l2)%list.
Proof.
  intros Hnd Hf Hat.
  destruct (findPlayer_split _ _ _ Hf Hnd) as (l1 & l2 & -> & Hrest).
  exists l1, l2. split; [reflexivity|].
  apply findPlayer_id in Hf. destruct Hf as [Hid _].
  assert (Htp : hasId target tp = true).
  { unfold hasId. apply String.eqb_eq. exact Hid. }
  assert (H1 : forall p, In p l1 -> hasId target p = false).
  { intros p Hp. apply Hrest. apply in_or_app. auto. }
  unfold afterCorrectGuess.
  rewrite (revealIn_split target i l1 l2 tp Hrest Htp).
  unfold targetAllRevealed.
  rewrite (findPlayer_middle target l1 l2 _ H1) by exact Htp.
  unfold revealAt. rewrite Hat. unfold allRevealed, answeredTarget. simpl.
  destruct (forallb isRevealed _) eqn:Hall.
  - rewrite (eliminateFirst_middle target l1 l2 _ H1) by exact Htp.
    unfold setEliminated. simpl. rewrite orb_true_r. reflexivity.
  - rewrite orb_false_r. unfold setHand. reflexivity.
Qed.

Lemma In_ids_findPlayer (ps : list Player) (c : string) :
  In c (map playerId ps) -> exists cp, findPlayer c ps = Some cp.
Proof.
  rewrite in_map_iff. intros (p & Hid & Hin).
  unfold findPlayer. destruct (find (hasId c) ps) as [cp|] eqn:Hf.
  - exists cp. reflexivity.
  - exfalso. apply (find_none _ _ Hf) in Hin.
    unfold hasId in Hin. rewrite Hid, String.eqb_refl in Hin. discriminate.
Qed.

(** A choice in the dialog [m]. *)
Lemma submitGuess_move (m : GuessModal) (v : Z) (s s' : GameState) :
  outcomeState (exec (submitGuess m v s) s) = Some s' -> Move s s'.
Proof.
  destruct m as [target i]. unfold submitGuess.
  simpl targetPlayerId. simpl targetTileIndex.
  destruct (findPlayer target (players s)) as [tp|] eqn:Hf.
  2:{ simpl. intros [= <-]. apply (M_command _ _ CmdContinue).
      apply T_none. apply sameButLog_refl. }
  destruct (at_ (hand tp) i) as [t|] eqn:Hat.
  2:{ simpl. intros [= <-]. apply (M_command _ _ CmdContinue).
      apply T_none. apply sameButLog_refl. }
  destruct (value t =? v) eqn:Hv.
  - apply Z.eqb_eq in Hv. subst v.
    destruct (submitGuess_correct s target i tp t Hf Hat)
      as (s1 & Hexec & H1 & H2 & H3 & H4 & H5 & H6).
    unfold submitGuess in Hexec. simpl targetPlayerId in Hexec.
    simpl targetTileIndex in Hexec.
    rewrite Hf, Hat, Z.eqb_refl in Hexec. rewrite Hexec.
    simpl. intros [= <-].
    apply (M_answer _ _ target i tp t); auto.
  - intro Hstep. apply (M_command _ _ (CmdEndTurn false)).
    apply (endTurn_transition _ false [addLog "Wrong guess!"]);
      [apply logsOnly_one|exact Hstep].
Qed.

Lemma appStep_move (e : Event) (a a' : App) :
  NoDup (map playerId (players (appGame a))) ->
  appStep e a = Some a' ->
  Move (appGame a) (appGame a') /\ appModal a' = modalAfter e a.
Proof.
  intros Hnd. unfold appStep, appOutcome.
  destruct (outcomeState (exec (appRun e a) (appGame a))) as [s'|] eqn:Hstep;
    [|discriminate].
  intros [= <-]. split; [|reflexivity]. simpl appGame.
  destruct e as [u|target i|v| | |b|d t|j u1 u2 u3 u4|u]; simpl in Hstep.
  - apply (M_command _ _ (CmdDraw u)). apply step_transition; assumption.
  - apply (M_command _ _ CmdContinue). apply T_none.
    destruct (handleTileClick _ _ _); simpl in Hstep;
      injection Hstep as <-; apply sameButLog_refl.
  - destruct (appModal a) as [m|].
    + apply (submitGuess_move m v). exact Hstep.
    + simpl in Hstep. injection Hstep as <-.
      apply (M_command _ _ CmdContinue). apply T_none. apply sameButLog_refl.
  - injection Hstep as <-.
    apply (M_command _ _ CmdContinue). apply T_none. apply sameButLog_refl.
  - apply (M_command _ _ CmdContinue). apply step_transition; assumption.
  - apply (M_command _ _ (CmdEndTurn b)). apply step_transition; assumption.
  - apply (M_command _ _ (CmdReposition d t)).
    apply step_transition; assumption.
  - apply (M_command _ _ (CmdBot j u1 u2 u3 u4)).
    apply step_transition; assumption.
  - apply (M_command _ _ (CmdTimeOut u)). apply step_transition; assumption.
Qed.

(** ** Invariants of the game with the dialog *)

Lemma answered_facts (ps : list Player) (target : string) (i : Z)
    (tp : Player) (t : Tile) :
  NoDup (map playerId ps) ->
  findPlayer target ps = Some tp ->
  at_ (hand tp) i = Some t ->
  (forall p, In p ps -> allRevealed p = true -> isEliminated p = true) ->
  let ps' := afterCorrectGuess target i ps in
  (forall p, In p ps' -> allRevealed p = true -> isEliminated p = true) /\
  (forall c, In c (activeIds ps') -> In c (activeIds ps)) /\
  (List.length (activeIds ps) <= S (List.length (activeIds ps')))%nat.
Proof.
  intros Hnd Hf Hat Hrev.
  destruct (answer_split ps target i tp t Hnd Hf Hat) as (l1 & l2 & -> & E).
  simpl. rewrite E. split; [|split].
  - intros p Hp Hall. apply in_app_or in Hp.
    destruct Hp as [Hp|[<-|Hp]].
    + apply Hrev; [apply in_or_app; auto|exact Hall].
    + unfold allRevealed, answeredTarget in *. simpl in *.
      rewrite Hall. apply orb_true_r.
    + apply Hrev; [apply in_or_app; right; right; exact Hp|exact Hall].
  - intros c. rewrite !activeIds_app, !activeIds_cons.
    unfold answeredTarget at 1 2. simpl.
    destruct (isEliminated tp); simpl.
    + auto.
    + destruct (forallb isRevealed _); simpl; rewrite !in_app_iff; simpl;
        tauto.
  - rewrite !activeIds_app, !activeIds_cons, !length_app.
    unfold answeredTarget at 1 2. simpl.
    destruct (isEliminated tp); simpl; [lia|].
    destruct (forallb isRevealed _); simpl; lia.
Qed.

Lemma winnerCheck_inv (ps : list Player) (quiet : GamePhase)
    (s s' : GameState) :
  winnerCheck ps quiet s s' ->
  activeIds (players s') = activeIds ps ->
  (forall c, In c (activeIds ps) -> In c (activeIds (players s))) ->
  (List.length (activeIds (players s)) <= S (List.length (activeIds ps)))%nat ->
  winnerInv s -> winnerInv s'.
Proof.
  unfold winnerCheck, winnerInv. intros Hw Hact Hsub Hlen Hinv.
  rewrite Hact.
  assert (Hids : activeIds ps = map playerId (activePlayers ps))
    by reflexivity.
  destruct (activePlayers ps) as [|w0 [|w1 rest]] eqn:Ha;
    destruct Hw as [_ ->]; rewrite Hids in *; simpl in *.
  - destruct (winnerId s) as [w|]; [tauto|lia].
  - intros c [<-|[]]. reflexivity.
  - destruct (winnerId s) as [w|].
    + intros c Hc. apply Hinv. apply Hsub. exact Hc.
    + lia.
Qed.

Lemma winnerInv_seats (s s' : GameState) :
  seats (players s') = seats (players s) -> winnerId s' = winnerId s ->
  winnerInv s -> winnerInv s'.
Proof.
  unfold winnerInv. intros Hs ->. rewrite (seats_activeIds _ _ Hs). auto.
Qed.

Lemma gameInv_move (s s' : GameState) :
  gameInv s -> Move s s' -> gameInv s'.
Proof.
  intros (Hnd & Hcur & Hrev & Hwin & Hph4 & Hover & Hdraw) Hm.
  assert (Hsame : players s' = players s ->
                  currentTurnPlayerId s' = currentTurnPlayerId s ->
                  winnerId s' = winnerId s ->
                  NoDup (map playerId (players s')) /\
                  In (currentTurnPlayerId s') (map playerId (players s')) /\
                  (forall p, In p (players s') ->
                     allRevealed p = true -> isEliminated p = true) /\
                  winnerInv s').
  { intros E1 E2 E5. unfold winnerInv. rewrite E1, E2, E5. auto. }
  assert (Hanswer : forall target i tp t quiet,
            findPlayer target (players s) = Some tp ->
            at_ (hand tp) i = Some t ->
            players s' = afterCorrectGuess target i (players s) ->
            winnerCheck (players s') quiet s s' ->
            currentTurnPlayerId s' = currentTurnPlayerId s ->
            drawnTile s' = drawnTile s ->
            quiet = RESOLVE ->
            gameInv s').
  { intros target i tp t quiet Hf Hat Hps Hw E2 E3 ->.
    destruct (answered_facts (players s) target i tp t Hnd Hf Hat Hrev)
      as (G1 & G2 & G3).
    unfold gameInv. rewrite E2, Hps.
    split; [rewrite afterCorrectGuess_ids; exact Hnd|].
    split; [rewrite afterCorrectGuess_ids; exact Hcur|].
    split; [exact G1|].
    split.
    { apply (winnerCheck_inv (players s') RESOLVE s); auto;
        rewrite ?Hps; auto. }
    unfold winnerCheck in Hw.
    destruct (activePlayers (players s')) as [|w0 [|w1 rest]];
      destruct Hw as [Hp Hwid]; rewrite Hp;
      repeat split; auto; try discriminate; try congruence. }
  destruct Hm as [c Ht|target i tp t Hf Hat Hps Hw E2 E3 E4 E6].
  2:{ apply (Hanswer target i tp t RESOLVE); auto. }
  destruct Ht as
    [ (E1 & E2 & E3 & E4 & E5 & E6 & E7)
    | Hlost
    | Hfrom Hph E1 E2 E3 E4 E5 E6
    | u tile Hph Hpool Hdrawn Hph' E1 E2 E5 E6
    | target i tp t Hc Hph (Hf & He & Hne & Hat & Hr) Hps Hw E2 E3 E4 E6
    | target i tp t next Hph (Hf & He & Hne & Hat & Hr) Hm Hw Hnin Hnel
        Hnext E3 E4 E6
    | b next Hm Hnin Hnel Hnext E3 Hph E4 E5 E6
    | dragged tid d cp Hc Hd Hid Hj Hpl Hcp Hd' E1 E2 E4 Hph E5 E6
    | dragged tid obj cp Hc Hcp Hobj Hj Hpl Hps E3 E2 E4 Hph E5 E6 ].
  - destruct (Hsame E1 E2 E6) as (I1 & I2 & I3 & I4).
    unfold gameInv. rewrite E3, E5, E6. repeat split; auto.
  - destruct (In_ids_findPlayer _ _ Hcur) as (cp & Hcp). congruence.
  - destruct (Hsame E1 E2 E5) as (I1 & I2 & I3 & I4).
    unfold gameInv. rewrite Hph. repeat split; auto; discriminate.
  - destruct (Hsame E1 E2 E5) as (I1 & I2 & I3 & I4).
    unfold gameInv. rewrite Hph'. repeat split; auto; discriminate.
  - apply (Hanswer target i tp t RESOLVE); auto.
  - (* a correct guess of the bot *)
    destruct (answered_facts (players s) target i tp t Hnd Hf Hat Hrev)
      as (G1 & G2 & G3).
    pose proof (mergeDrawn_seats _ _ _ _ Hm) as Hseats.
    pose proof (mergeDrawn_ids _ _ _ _ Hm) as Hids.
    unfold gameInv.
    split; [rewrite Hids, afterCorrectGuess_ids; exact Hnd|].
    split; [rewrite Hnext; apply in_map; exact Hnin|].
    split; [apply (mergeDrawn_revealed _ _ _ _ Hm); exact G1|].
    split.
    { apply (winnerCheck_inv (players s') DRAW s); auto;
        rewrite (seats_activeIds _ _ Hseats); auto. }
    unfold winnerCheck in Hw.
    destruct (activePlayers (players s')) as [|w0 [|w1 rest]];
      destruct Hw as [Hp Hwid]; rewrite Hp;
      repeat split; auto; try discriminate; try congruence.
  - (* the end of a turn *)
    pose proof (mergeDrawn_seats _ _ _ _ Hm) as Hseats.
    unfold gameInv. rewrite Hph.
    split; [rewrite (mergeDrawn_ids _ _ _ _ Hm); exact Hnd|].
    split; [rewrite Hnext; apply in_map; exact Hnin|].
    split; [apply (mergeDrawn_revealed _ _ _ _ Hm); exact Hrev|].
    split; [apply (winnerInv_seats s); auto|].
    repeat split; auto; discriminate.
  - (* the drawn joker is placed *)
    destruct (Hsame E1 E2 E5) as (I1 & I2 & I3 & I4).
    unfold gameInv. rewrite Hph, E5. repeat split; auto.
    intro H. rewrite (Hdraw H) in Hd. discriminate.
  - (* a joker of the hand is placed *)
    unfold gameInv. rewrite Hps, E2, E3, Hph, E5.
    split; [rewrite setHandOf_ids; exact Hnd|].
    split; [rewrite setHandOf_ids; exact Hcur|].
    split.
    { intros p Hp Hall. unfold setHandOf in Hp. apply in_map_iff in Hp.
      destruct Hp as (p0 & <- & Hp0).
      destruct (hasId (playerId cp) p0) eqn:Hid.
      - simpl. unfold allRevealed in Hall. simpl in Hall.
        rewrite <- (forallb_perm _ _ _ (sortHand_perm _)) in Hall.
        rewrite placeInHand_revealed in Hall.
        apply findPlayer_id in Hcp. destruct Hcp as [_ Hcp].
        assert (p0 = cp).
        { apply (NoDup_same_id (players s)); auto.
          unfold hasId in Hid. apply String.eqb_eq. exact Hid. }
        subst p0. apply Hrev; assumption.
      - apply Hrev; assumption. }
    split.
    { apply (winnerInv_seats s); auto.
      rewrite Hps. apply setHandOf_seats. }
    repeat split; auto.
Qed.

Lemma startGame_gameInv (cfg : GameConfig) (shuffled : list Tile)
    (rnd : string -> Q) (s : GameState) :
  validConfig cfg ->
  Permutation shuffled (createInitialTiles (includeJokers cfg)) ->
  startGame cfg shuffled rnd = Some s ->
  gameInv s.
Proof.
  intros Hcfg Hperm Hstart.
  pose proof (startGame_playersInv cfg shuffled rnd s Hcfg Hperm Hstart)
    as (Hnd & Hcur & Hrev & Hwin & Hdraw).
  destruct (startGame_dealt cfg shuffled rnd s Hcfg Hstart)
    as (_ & _ & Hd & Hph & Hw & _).
  unfold gameInv, winnerInv. rewrite Hph, Hw.
  split; [exact Hnd|]. split.
  { unfold seats in Hcur. apply in_map_iff in Hcur.
    destruct Hcur as (p & [= Hid _] & Hp). rewrite <- Hid.
    apply in_map. exact Hp. }
  split; [exact Hrev|]. split.
  { unfold winnerAgrees in Hwin. rewrite Hw in Hwin. exact Hwin. }
  repeat split; auto. discriminate.
Qed.

Lemma played_gameInv (a : App) : played a -> gameInv (appGame a).
Proof.
  induction 1 as [cfg shuffled rnd s Hcfg Hperm Hstart
                 |e a a' Ha IH Hstep
                 |cfg shuffled rnd a s Ha IH Hcfg Hperm Hstart].
  - apply (startGame_gameInv cfg shuffled rnd); assumption.
  - apply (gameInv_move (appGame a)); [exact IH|].
    apply (appStep_move e); [apply IH|exact Hstep].
  - apply (startGame_gameInv cfg shuffled rnd); assumption.
Qed.

(** ** Games with the dialog *)

Lemma played_run (es : list Event) (a a' : App) :
  played a -> appRunAll es a = Some a' -> played a'.
Proof.
  revert a. induction es as [|e es IH]; intros a Ha; simpl.
  - intros [= <-]. exact Ha.
  - destruct (appStep e a) as [a1|] eqn:Hstep; [|discriminate].
    apply IH. apply (played_event e a); assumption.
Qed.

Lemma played_shownWith (cfg : GameConfig) (es : list Event)
    (s0 : GameState) (a : App) :
  validConfig cfg ->
  startGame cfg (createInitialTiles (includeJokers cfg)) noRandom = Some s0 ->
  appRunAll es (mkApp s0 None) = Some a ->
  played a.
Proof.
  intros Hcfg Hstart Hrun.
  apply (played_run es (mkApp s0 None)); [|exact Hrun].
  apply (played_first cfg (createInitialTiles (includeJokers cfg)) noRandom);
    [exact Hcfg|apply Permutation_refl|exact Hstart].
Qed.

Lemma validConfig_twoHumansAndBot : validConfig twoHumansAndBot.
Proof. unfold validConfig. simpl. lia. Qed.

Lemma played_lastTileAsked : played lastTileAsked.
Proof.
  eapply (played_shownWith twoHumans
    ([DrawButton 0] ++ guessAt "p-1" 0 2 ++ [AgainButton] ++
     guessAt "p-1" 1 2 ++ [AgainButton] ++ guessAt "p-1" 2 3 ++
     [AgainButton; TileClick "p-1" 3])%list);
    [exact validConfig_twoHumans|vm_compute; reflexivity
    |vm_compute; reflexivity].
Qed.

Lemma played_ownDialog : played ownDialog.
Proof.
  eapply (played_shownWith twoHumans
    [DrawButton 0; TileClick "p-1" 0; TimeOut 0; TimeOut 0]);
    [exact validConfig_twoHumans|vm_compute; reflexivity
    |vm_compute; reflexivity].
Qed.

Lemma played_botHasWon : played botHasWon.
Proof.
  eapply (played_shownWith twoHumansAndBot botWinsWhileAsked);
    [exact validConfig_twoHumansAndBot|vm_compute; reflexivity
    |vm_compute; reflexivity].
Qed.

(** A command is an event, or for a guess two: every reachable state is
    the game of a state of the component in play. *)
Lemma reachable_played (s : GameState) :
  reachable s -> exists m, played (mkApp s m).
Proof.
  induction 1 as [cfg shuffled rnd s Hcfg Hperm Hstart|c s s' _ IH Hstep].
  - exists None. apply (played_first cfg shuffled rnd); assumption.
  - destruct IH as (m & Hm).
    assert (Hev : forall e,
              appRun e (mkApp s m) = dispatch c s ->
              modalAfter e (mkApp s m) = m ->
              played (mkApp s' m)).
    { intros e Hrun Hmodal. apply (played_event e (mkApp s m)); [exact Hm|].
      unfold appStep, appOutcome. rewrite Hrun, Hmodal.
      unfold step in Hstep. simpl appGame. rewrite Hstep. reflexivity. }
    destruct c as [u|target i v| |b|d t|j u1 u2 u3 u4|u].
    + exists m. apply (Hev (DrawButton u)); reflexivity.
    + unfold step in Hstep. simpl dispatch in Hstep. unfold guess in Hstep.
      destruct (handleTileClick s target i) as [|gm|] eqn:Hclick.
      * simpl in Hstep. injection Hstep as <-. exists m. exact Hm.
      * exists None.
        apply (played_event (ValueButton v) (mkApp s (Some gm))).
        -- apply (played_event (TileClick target i) (mkApp s m));
             [exact Hm|].
           unfold appStep, appOutcome. simpl. rewrite Hclick. reflexivity.
        -- unfold appStep, appOutcome. simpl. rewrite Hstep. reflexivity.
      * simpl in Hstep. injection Hstep as <-. exists m. exact Hm.
    + exists m. apply (Hev AgainButton); reflexivity.
    + exists m. apply (Hev (EndTurn b)); reflexivity.
    + exists m. apply (Hev (Drop d t)); reflexivity.
    + exists m. apply (Hev (BotTimer j u1 u2 u3 u4)); reflexivity.
    + exists m. apply (Hev (TimeOut u)); reflexivity.
Qed.

(** C1: in every state of the game a player whose hand is revealed
    entirely is marked eliminated; and so it is in the state that an
    event leaves, whichever tile its handler revealed: the tile of a
    correct guess, of a player or of the bot, or the drawn tile that the
    end of a turn reveals and merges into the acting player's hand.  The
    flag is set in the operation that reveals the tile. *)
Theorem revealed_hand_eliminated (a : App) :
  played a ->
  (forall p, In p (players (appGame a)) ->
     allRevealed p = true -> isEliminated p = true) /\
  (forall e a', appStep e a = Some a' ->
     forall p, In p (players (appGame a')) ->
       allRevealed p = true -> isEliminated p = true).
Proof.
  intro Ha. split.
  - apply (played_gameInv a Ha).
  - intros e a' Hstep.
    apply (played_gameInv a' (played_event e a a' Ha Hstep)).
Qed.

Lemma revealed_hand_eliminated_witness :
  exists a',
    appStep (ValueButton 3) lastTileAsked = Some a' /\
    In loser (players (appGame a')) /\
    allRevealed loser = true /\
    isEliminated loser = true.
Proof.
  destruct (appStep (ValueButton 3) lastTileAsked) as [a'|] eqn:Hstep;
    [|vm_compute in Hstep; discriminate].
  exists a'. split; [reflexivity|].
  assert (Hin : In loser (players (appGame a'))).
  { vm_compute in Hstep. injection Hstep as <-. simpl. right. left.
    reflexivity. }
  split; [exact Hin|]. split; [reflexivity|].
  apply (proj2 (revealed_hand_eliminated lastTileAsked played_lastTileAsked)
           (ValueButton 3) a' Hstep loser Hin).
  reflexivity.
Defined.

(** C4: a guess at a tile of the acting player itself is carried out.
    In [ownDialog] the player [p-1] is to guess and the dialog, opened
    by [p-0] a turn earlier, asks for the first tile of [p-1].  A click
    on that tile is rejected by [handleTileClick]; the choice of the
    value 2 in the dialog is not rejected by [submitGuess]: it reveals
    the tile of [p-1], writes the log and sets the phase Resolve. *)
Theorem stale_guess_at_own_tile :
  played ownDialog /\
  phase (appGame ownDialog) = GUESS /\
  currentTurnPlayerId (appGame ownDialog) = "p-1" /\
  appModal ownDialog = Some (mkGuessModal "p-1" 0) /\
  table (appGame ownDialog)
    = [("p-0", false, [false; false; false; false; true]);
       ("p-1", false, [false; false; false; false])] /\
  handleTileClick (appGame ownDialog) "p-1" 0 = Ignored /\
  exists s',
    appOutcome (ValueButton 2) ownDialog = Ok s' /\
    table s'
      = [("p-0", false, [false; false; false; false; true]);
         ("p-1", false, [true; false; false; false])] /\
    phase s' = RESOLVE /\
    currentTurnPlayerId s' = "p-1" /\
    turnLog s' = ("Correct! It was 2." :: turnLog (appGame ownDialog))%list.
Proof.
  split; [exact played_ownDialog|].
  repeat (split; [reflexivity|]).
  eexists. split; [vm_compute; reflexivity|].
  repeat split; reflexivity.
Qed.

(** C5: a winner is set and no player is left.  In [botHasWon] the bot
    [p-2] has won, the last player not eliminated, and the game is over;
    the dialog that [p-0] opened before is still open and asks for the
    last hidden tile of the bot.  The choice of its value 5 is carried
    out by [submitGuess]: the bot is eliminated too, the winner stays
    set, and the phase is Resolve. *)
Theorem winner_with_no_player_left :
  played botHasWon /\
  winnerId (appGame botHasWon) = Some "p-2" /\
  phase (appGame botHasWon) = GAME_OVER /\
  activeIds (players (appGame botHasWon)) = ["p-2"] /\
  appModal botHasWon = Some (mkGuessModal "p-2" 3) /\
  handleTileClick (appGame botHasWon) "p-2" 3 = Ignored /\
  exists s',
    appOutcome (ValueButton 5) botHasWon = Ok s' /\
    winnerId s' = Some "p-2" /\
    activePlayers (players s') = [] /\
    phase s' = RESOLVE.
Proof.
  split; [exact played_botHasWon|].
  repeat (split; [reflexivity|]).
  eexists. split; [vm_compute; reflexivity|].
  repeat split; reflexivity.
Qed.

(** ** Phases and the winner, with the dialog *)

(** X17: A game is only ever in the Draw, Guess, Resolve or Game-over
    phase.  In the Game-over phase a winner is set; in the Draw phase no
    tile is drawn. *)
Theorem phases_of_a_game (a : App) :
  played a ->
  (phase (appGame a) = DRAW \/ phase (appGame a) = GUESS \/
   phase (appGame a) = RESOLVE \/ phase (appGame a) = GAME_OVER) /\
  (phase (appGame a) = GAME_OVER -> winnerId (appGame a) <> None) /\
  (phase (appGame a) = DRAW -> drawnTile (appGame a) = None).
Proof.
  intro Ha.
  destruct (played_gameInv a Ha) as (_ & _ & _ & _ & H5 & H6 & H7).
  auto.
Qed.

Lemma phases_of_a_game_witness :
  (phase (appGame botHasWon) = DRAW \/ phase (appGame botHasWon) = GUESS \/
   phase (appGame botHasWon) = RESOLVE \/
   phase (appGame botHasWon) = GAME_OVER) /\
  (phase (appGame botHasWon) = GAME_OVER ->
   winnerId (appGame botHasWon) <> None) /\
  (phase (appGame botHasWon) = DRAW -> drawnTile (appGame botHasWon) = None).
Proof. apply (phases_of_a_game botHasWon). exact played_botHasWon. Defined.

Lemma move_to_one_left (s s' : GameState) :
  NoDup (map playerId (players s)) ->
  In (currentTurnPlayerId s) (map playerId (players s)) ->
  Move s s' ->
  List.length (activePlayers (players s)) <> 1%nat ->
  List.length (activePlayers (players s')) = 1%nat ->
  phase s' = GAME_OVER /\
  exists w, winnerId s' = Some w /\ activeIds (players s') = [w].
Proof.
  intros Hnd Hcur Hm Hbefore Hafter.
  assert (Hquiet : seats (players s') = seats (players s) -> False).
  { intro Hseats. apply Hbefore.
    rewrite <- activeIds_length, <- (seats_activeIds _ _ Hseats),
      activeIds_length. exact Hafter. }
  assert (Hcheck : forall quiet,
             winnerCheck (players s') quiet s s' ->
             phase s' = GAME_OVER /\
             exists w, winnerId s' = Some w /\
                       activeIds (players s') = [w]).
  { intros quiet Hw. unfold winnerCheck, activeIds in *.
    destruct (activePlayers (players s')) as [|w [|w' rest]];
      try discriminate.
    destruct Hw as [Hp Hw]. split; [exact Hp|].
    exists (playerId w). auto. }
  destruct Hm as [c Ht|target i tp t Hf Hat Hps Hw E2 E3 E4 E6].
  2:{ apply (Hcheck RESOLVE Hw). }
  destruct Ht as
    [ (E1 & _)
    | Hlost
    | _ _ E1 _ _ _ _ _
    | u tile _ _ _ _ E1 _ _ _
    | target i tp t _ _ _ _ Hw _ _ _ _
    | target i tp t next _ _ _ Hw _ _ _ _ _ _
    | b next Hmd _ _ _ _ _ _ _ _
    | dragged tid d cp _ _ _ _ _ _ _ E1 _ _ _ _ _
    | dragged tid obj cp _ _ _ _ _ Hps _ _ _ _ _ _ ];
    try (exfalso; apply Hquiet; rewrite E1; reflexivity).
  - destruct (In_ids_findPlayer _ _ Hcur) as (cp & Hcp). congruence.
  - apply (Hcheck RESOLVE Hw).
  - apply (Hcheck DRAW Hw).
  - exfalso. apply Hquiet. apply (mergeDrawn_seats _ _ _ _ Hmd).
  - exfalso. apply Hquiet. rewrite Hps. apply setHandOf_seats.
Qed.

(** X21: While no winner is set, at least two players are not
    eliminated.  Once a winner is set, no other player is left: a player
    that is not eliminated is the winner.  And an event that leaves
    exactly one player not eliminated, where there were more, leaves the
    game over with that player as the winner, in the same operation. *)
Theorem winner_or_two_left (a : App) :
  played a ->
  (winnerId (appGame a) = None ->
   (2 <= List.length (activePlayers (players (appGame a))))%nat) /\
  (forall w p, winnerId (appGame a) = Some w ->
     In p (players (appGame a)) -> isEliminated p = false ->
     playerId p = w) /\
  (forall e a', appStep e a = Some a' ->
     (1 < List.length (activePlayers (players (appGame a))))%nat ->
     List.length (activePlayers (players (appGame a'))) = 1%nat ->
     phase (appGame a') = GAME_OVER /\
     exists w, winnerId (appGame a') = Some w /\
               activeIds (players (appGame a')) = [w]).
Proof.
  intro Ha.
  destruct (played_gameInv a Ha) as (Hnd & Hcur & _ & Hwin & _).
  unfold winnerInv in Hwin. split; [|split].
  - intro Hw. rewrite Hw in Hwin. rewrite <- activeIds_length. exact Hwin.
  - intros w p Hw Hp He. rewrite Hw in Hwin. apply Hwin.
    unfold activeIds, activePlayers. apply in_map. apply filter_In.
    rewrite He. auto.
  - intros e a' Hstep Hmore.
    apply (move_to_one_left (appGame a)); [exact Hnd|exact Hcur| |lia].
    apply (appStep_move e a a' Hnd Hstep).
Qed.

Lemma winner_or_two_left_witness :
  exists a',
    appStep (ValueButton 3) lastTileAsked = Some a' /\
    phase (appGame a') = GAME_OVER /\
    exists w, winnerId (appGame a') = Some w /\
              activeIds (players (appGame a')) = [w].
Proof.
  destruct (appStep (ValueButton 3) lastTileAsked) as [a'|] eqn:Hstep;
    [|vm_compute in Hstep; discriminate].
  exists a'. split; [reflexivity|].
  apply (proj2 (proj2 (winner_or_two_left lastTileAsked played_lastTileAsked))
           (ValueButton 3) a' Hstep).
  - vm_compute. lia.
  - vm_compute in Hstep. injection Hstep as <-. reflexivity.
Defined.

(** * Moves, spelled out *)

(** ** What a move shows and takes into a hand *)

Lemma setRevealed_faceUp (t : Tile) : faceUp t (setRevealed true t).
Proof. unfold faceUp. simpl. repeat split; reflexivity. Qed.

Lemma samePerson_refl (p : Player) : samePerson p p.
Proof. unfold samePerson. repeat split; reflexivity. Qed.

Lemma samePerson_setHand (h : list Tile) (p : Player) :
  samePerson p (setHand h p).
Proof. unfold samePerson. simpl. repeat split; reflexivity. Qed.

Lemma at_split {A : Type} (h : list A) (i : Z) (t x : A) :
  at_ h i = Some t ->
  exists h1 h2,
    h = (h1 ++ t :: h2)%list /\
    replaceNth (Z.to_nat i) x h = (h1 ++ x :: h2)%list /\
    Z.of_nat (List.length h1) = i.
Proof.
  unfold at_. destruct (i <? 0) eqn:Hi; [discriminate|].
  apply Z.ltb_ge in Hi. intro Hn.
  destruct (replaceNth_split (Z.to_nat i) x t h Hn) as (h1 & h2 & E1 & E2 & E3).
  exists h1, h2. split; [exact E1|]. split; [exact E2|].
  rewrite E3. apply Z2Nat.id. exact Hi.
Qed.

Lemma answered_guessedPlayer (tp : Player) (i : Z) (t : Tile) :
  at_ (hand tp) i = Some t -> isRevealed t = false ->
  guessedPlayer i tp (answeredTarget tp i t).
Proof.
  intros Hat Hr. unfold guessedPlayer. split; [|split].
  - unfold samePerson, answeredTarget. simpl. repeat split; reflexivity.
  - destruct (at_split (hand tp) i t (setRevealed true t) Hat)
      as (h1 & h2 & E1 & E2 & E3).
    exists h1, t, (setRevealed true t), h2.
    split; [exact E1|]. split; [exact E2|]. split; [exact E3|].
    split; [exact Hr|apply setRevealed_faceUp].
  - reflexivity.
Qed.

Lemma sortHand_mergedHand (t : Tile) (h : list Tile) :
  mergedHand t h (sortHand (h ++ [t])%list).
Proof.
  split; [apply Permutation_sym; apply sortHand_perm|apply sortHand_sorted].
Qed.

Lemma tookDrawn_merge (t : Tile) (cp : Player) :
  tookDrawn (Some t) cp (setHand (sortHand (hand cp ++ [t])%list) cp).
Proof.
  split; [apply samePerson_setHand|]. split; [reflexivity|].
  apply sortHand_mergedHand.
Qed.

Lemma tookDrawn_nothing (cp : Player) : tookDrawn None cp cp.
Proof. split; [apply samePerson_refl|]. split; reflexivity. Qed.

Lemma hasId_false (c : string) (p : Player) :
  hasId c p = false <-> playerId p <> c.
Proof. unfold hasId. apply String.eqb_neq. Qed.

Lemma hasId_true (c : string) (p : Player) :
  hasId c p = true <-> playerId p = c.
Proof. unfold hasId. apply String.eqb_eq. Qed.

Lemma Forall2_same_In {A : Type} (R : A -> A -> Prop) (l : list A) :
  (forall x, In x l -> R x x) -> Forall2 R l l.
Proof.
  induction l as [|x l IH]; intro H; constructor.
  - apply H. left. reflexivity.
  - apply IH. intros y Hy. apply H. right. exact Hy.
Qed.

Lemma Forall2_compose {A B C : Type} (R1 : A -> B -> Prop)
    (R2 : B -> C -> Prop) (l1 : list A) (l2 : list B) (l3 : list C) :
  Forall2 R1 l1 l2 -> Forall2 R2 l2 l3 ->
  Forall2 (fun a c => exists b, R1 a b /\ R2 b c) l1 l3.
Proof.
  intro H. revert l3. induction H as [|a b l1 l2 Hab _ IH]; intros l3 H2;
    inversion H2 as [|? c ? l3' Hbc Hrest]; subst; constructor.
  - exists b. auto.
  - apply IH. exact Hrest.
Qed.

(** The players after a correct guess, seat by seat. *)
Lemma answer_Forall2 (ps : list Player) (target : string) (i : Z)
    (tp : Player) (t : Tile) :
  NoDup (map playerId ps) ->
  findPlayer target ps = Some tp ->
  at_ (hand tp) i = Some t ->
  Forall2 (fun p m => (p = tp /\ m = answeredTarget tp i t) \/
                      (playerId p <> target /\ m = p))
          ps (afterCorrectGuess target i ps).
Proof.
  intros Hnd Hf Hat.
  destruct (answer_split ps target i tp t Hnd Hf Hat) as (l1 & l2 & E & ->).
  destruct (findPlayer_split _ _ _ Hf Hnd) as (k1 & k2 & E' & Hrest).
  assert (Hother : forall p, In p ps -> p <> tp -> playerId p <> target).
  { intros p Hp Hne. apply hasId_false. apply Hrest.
    rewrite E' in Hp. apply in_app_or in Hp. apply in_or_app.
    destruct Hp as [Hp|[Hp|Hp]]; auto. congruence. }
  apply findPlayer_id in Hf. destruct Hf as [Hid Hin].
  assert (Hnot : forall p, In p (l1 ++ l2)%list -> p <> tp).
  { intros p Hp ->. rewrite E in Hnd. rewrite map_app in Hnd. simpl in Hnd.
    apply NoDup_remove_2 in Hnd. apply Hnd. rewrite <- map_app.
    apply in_map. exact Hp. }
  rewrite E. apply Forall2_app; [|constructor].
  - apply Forall2_same_In. intros p Hp. right. split; [|reflexivity].
    apply Hother; [rewrite E; apply in_or_app; auto|].
    apply Hnot. apply in_or_app. auto.
  - left. auto.
  - apply Forall2_same_In. intros p Hp. right. split; [|reflexivity].
    apply Hother; [rewrite E; apply in_or_app; right; right; exact Hp|].
    apply Hnot. apply in_or_app. auto.
Qed.

(** The players after the drawn tile is merged, seat by seat. *)
Lemma replace_found_Forall2 (c : string) (f : Player -> Player)
    (l : list Player) :
  NoDup (map playerId l) ->
  forall k cp,
    findIndex (hasId c) l = Some k -> nth_error l k = Some cp ->
    Forall2 (fun m p' => (playerId m = c /\ p' = f m) \/
                         (playerId m <> c /\ p' = m))
            l (replaceNth k (f cp) l).
Proof.
  induction l as [|p l IH]; intros Hnd k cp Hk Hcp; [discriminate|].
  inversion Hnd as [|? ? Hnotin Hnd']; subst. simpl in Hk.
  destruct (hasId c p) eqn:Hp.
  - injection Hk as <-. simpl in Hcp. injection Hcp as <-. simpl.
    apply hasId_true in Hp. constructor; [left; auto|].
    apply Forall2_same_In. intros m Hm. right. split; [|reflexivity].
    intro E. apply Hnotin. rewrite Hp, <- E. apply in_map. exact Hm.
  - destruct (findIndex (hasId c) l) as [k'|] eqn:Hk'; [|discriminate].
    injection Hk as <-. simpl in Hcp. simpl.
    apply hasId_false in Hp. constructor; [right; auto|].
    apply (IH Hnd' k' cp eq_refl Hcp).
Qed.

Lemma mergeDrawn_seatwise (current : string) (d : option Tile)
    (ps ps' : list Player) :
  NoDup (map playerId ps) ->
  mergeDrawn current d ps = Some ps' ->
  Forall2 (fun m p' => (playerId m = current /\ tookDrawn d m p') \/
                       (playerId m <> current /\ p' = m))
          ps ps'.
Proof.
  intros Hnd. unfold mergeDrawn. destruct d as [t|].
  - destruct (findIndex _ ps) as [k|] eqn:Hk; [|discriminate].
    destruct (nth_error ps k) as [cp|] eqn:Hcp; [|discriminate].
    intros [= <-].
    pose proof (replace_found_Forall2 current
                  (fun m => setHand (sortHand (hand m ++ [t])%list) m)
                  ps Hnd k cp Hk Hcp) as H.
    apply (Forall2_impl_In _ _ _ _ H).
    intros m p' _ [[Hid ->]|[Hid ->]]; [left|right]; split; auto.
    apply tookDrawn_merge.
  - intros [= <-]. apply Forall2_same_In. intros m _.
    destruct (String.eqb (playerId m) current) eqn:E.
    + left. apply String.eqb_eq in E. split; [exact E|].
      apply tookDrawn_nothing.
    + right. apply String.eqb_neq in E. auto.
Qed.

(** The players after a correct guess of the bot, seat by seat. *)
Lemma botGuess_players (current : string) (d : option Tile)
    (ps ps' : list Player) (target : string) (i : Z) (tp : Player)
    (t : Tile) :
  NoDup (map playerId ps) ->
  findPlayer target ps = Some tp ->
  at_ (hand tp) i = Some t ->
  isRevealed t = false ->
  target <> current ->
  mergeDrawn current d (afterCorrectGuess target i ps) = Some ps' ->
  Forall2 (afterBotGuess current d target i) ps ps'.
Proof.
  intros Hnd Hf Hat Hr Hne Hm.
  pose proof (answer_Forall2 ps target i tp t Hnd Hf Hat) as H1.
  assert (Hnd' : NoDup (map playerId (afterCorrectGuess target i ps))).
  { rewrite afterCorrectGuess_ids. exact Hnd. }
  pose proof (mergeDrawn_seatwise current d _ ps' Hnd' Hm) as H2.
  pose proof (Forall2_compose _ _ _ _ _ H1 H2) as H.
  apply findPlayer_id in Hf. destruct Hf as [Hid _].
  apply (Forall2_impl_In _ _ _ _ H).
  intros p p' _ (m & [[-> ->]|[Hp ->]] & [[Hc Ht]|[Hc ->]]).
  - exfalso. apply Hne. rewrite <- Hid, <- Hc. reflexivity.
  - left. split; [exact Hid|]. apply answered_guessedPlayer; assumption.
  - right. left. auto.
  - right. right. auto.
Qed.

(** ** The end of a turn *)

(** C6: in a state that holds a drawn tile, whose acting player is one
    of the players and in which some player is not eliminated, [endTurn]
    after a failed guess returns.  In the state it leaves, the acting
    player, the same person and eliminated or not as before, holds the
    tiles of before and the drawn tile, which is revealed and otherwise
    as drawn, in an order that the comparator of [sortHand] accepts
    between neighbours; the other players are as before.  The slot of
    the drawn tile is empty, the phase is Draw, the move counter is one
    more, the pool is as before, and the turn is with the first player
    that is not eliminated in the seats after the acting player's, taken
    cyclically. *)
Theorem endTurn_failed_guess (s : GameState) (drawn : Tile) (cp : Player) :
  drawnTile s = Some drawn ->
  findPlayer (currentTurnPlayerId s) (players s) = Some cp ->
  (exists p, In p (players s) /\ isEliminated p = false) ->
  exists s' i k next cp' shown,
    step (CmdEndTurn false) s = Ok s' /\
    findIndex (hasId (currentTurnPlayerId s)) (players s) = Some i /\
    nth_error (players s) i = Some cp /\
    players s' = replaceNth i cp' (players s) /\
    samePerson cp cp' /\
    isEliminated cp' = isEliminated cp /\
    faceUp drawn shown /\
    Permutation (hand cp') (hand cp ++ [shown])%list /\
    Sorted notAfter (hand cp') /\
    drawnTile s' = None /\
    pool s' = pool s /\
    phase s' = DRAW /\
    moveNumber s' = moveNumber s + 1 /\
    (k < List.length (players s))%nat /\
    firstActiveFrom (players s)
      ((i + 1) mod List.length (players s))%nat k /\
    nth_error (players s')
      ((((i + 1) mod List.length (players s)) + k)
         mod List.length (players s))%nat = Some next /\
    isEliminated next = false /\
    currentTurnPlayerId s' = playerId next.
Proof.
  intros Hdrawn Hcp Hactive.
  destruct (find_findIndex _ _ _ Hcp) as (i & Hidx & Hnth).
  set (shown := setRevealed true drawn).
  set (cp' := setHand (sortHand (hand cp ++ [shown])%list) cp).
  set (ps' := replaceNth i cp' (players s)).
  assert (Hlen : List.length ps' = List.length (players s))
    by apply replaceNth_length.
  assert (Hi : (i < List.length (players s))%nat).
  { apply nth_error_Some. rewrite Hnth. discriminate. }
  assert (Helim : forall j, eliminatedAt ps' j = eliminatedAt (players s) j).
  { intro j. apply eliminatedAt_replaceNth. exact Hnth. }
  destruct (firstActiveFrom_exists (players s)
              ((i + 1) mod List.length (players s))%nat) as (k & Hk & Hfirst).
  { apply Nat.mod_upper_bound. lia. }
  { exact Hactive. }
  assert (Hfirst' : firstActiveFrom ps'
                      ((i + 1) mod List.length ps')%nat k).
  { destruct Hfirst as [H1 H2]. unfold firstActiveFrom.
    rewrite Hlen. split.
    - rewrite Helim. exact H1.
    - intros j Hj. rewrite Helim. apply H2. exact Hj. }
  assert (Hexit : nextPlayerIdx ps' (Some i)
                  = Exit ((((i + 1) mod List.length ps') + k)
                            mod List.length ps')%nat).
  { rewrite nextPlayerIdx_unfold.
    - apply skipEliminated_exit.
      + apply Nat.mod_upper_bound. lia.
      + exact Hfirst'.
      + lia.
    - intro E. rewrite E in Hlen. simpl in Hlen. lia. }
  destruct (nextPlayerIdx_Exit _ _ _ Hexit) as (next & Hnext & Hne).
  exists (mkGameState ps' (playerId next) None (pool s) DRAW (winnerId s)
                      (turnLog s) (moveNumber s + 1)), i, k, next, cp', shown.
  split.
  - unfold step, dispatch, endTurn, mergeDrawn, tileToInsert.
    rewrite Hdrawn. simpl option_map. cbv iota.
    rewrite Hidx, Hnth. fold shown. fold cp'. fold ps'.
    rewrite Hexit, Hnext.
    unfold exec, commit. rewrite fold_left_app. reflexivity.
  - rewrite Hlen in Hnext.
    destruct (sortHand_mergedHand shown (hand cp)) as [Hperm Hsorted].
    pose proof (setRevealed_faceUp drawn) as Hshown. fold shown in Hshown.
    simpl. repeat split; auto; apply Hfirst.
Qed.

Lemma endTurn_failed_guess_witness :
  exists s' i k next cp' shown,
    step (CmdEndTurn false) firstGuess = Ok s' /\
    findIndex (hasId (currentTurnPlayerId firstGuess)) (players firstGuess)
      = Some i /\
    nth_error (players firstGuess) i = Some firstPlayer /\
    players s' = replaceNth i cp' (players firstGuess) /\
    samePerson firstPlayer cp' /\
    isEliminated cp' = isEliminated firstPlayer /\
    faceUp drawnW11 shown /\
    Permutation (hand cp') (hand firstPlayer ++ [shown])%list /\
    Sorted notAfter (hand cp') /\
    drawnTile s' = None /\
    pool s' = pool firstGuess /\
    phase s' = DRAW /\
    moveNumber s' = moveNumber firstGuess + 1 /\
    (k < List.length (players firstGuess))%nat /\
    firstActiveFrom (players firstGuess)
      ((i + 1) mod List.length (players firstGuess))%nat k /\
    nth_error (players s')
      ((((i + 1) mod List.length (players firstGuess)) + k)
         mod List.length (players firstGuess))%nat = Some next /\
    isEliminated next = false /\
    currentTurnPlayerId s' = playerId next.
Proof.
  apply (endTurn_failed_guess firstGuess drawnW11 firstPlayer).
  - reflexivity.
  - reflexivity.
  - exists firstPlayer. split; [simpl; auto|reflexivity].
Defined.

(** X7: [endTurn], with either flag, when the acting player is one of
    the players and some player is not eliminated, returns.  With a
    drawn tile, the acting player, the same person and eliminated or not
    as before, holds the tiles of before and the drawn tile, as it is
    after a success and revealed after a failure, in an order that the
    comparator of [sortHand] accepts between neighbours, and the other
    players are as before; with no drawn tile the players stay as they
    are.  The turn passes to a player that is not eliminated, the phase
    is Draw, the move counter is one more, and pool, winner and turn log
    are those of the state before. *)
Theorem endTurn_passes_turn (wasSuccess : bool) (s : GameState)
    (cp : Player) :
  findPlayer (currentTurnPlayerId s) (players s) = Some cp ->
  (exists p, In p (players s) /\ isEliminated p = false) ->
  exists s' i next,
    step (CmdEndTurn wasSuccess) s = Ok s' /\
    findIndex (hasId (currentTurnPlayerId s)) (players s) = Some i /\
    nth_error (players s) i = Some cp /\
    match drawnTile s with
    | Some drawn =>
        exists cp' merged,
          players s' = replaceNth i cp' (players s) /\
          samePerson cp cp' /\
          isEliminated cp' = isEliminated cp /\
          (if wasSuccess then merged = drawn else faceUp drawn merged) /\
          Permutation (hand cp') (hand cp ++ [merged])%list /\
          Sorted notAfter (hand cp')
    | None => players s' = players s
    end /\
    In next (players s') /\ isEliminated next = false /\
    currentTurnPlayerId s' = playerId next /\
    drawnTile s' = None /\
    phase s' = DRAW /\
    moveNumber s' = moveNumber s + 1 /\
    pool s' = pool s /\
    winnerId s' = winnerId s /\
    turnLog s' = turnLog s.
Proof.
  intros Hcp Hactive.
  destruct (endTurn_exec wasSuccess s cp Hcp Hactive)
    as (i & ps' & next & Hidx & Hnth & Hps' & Hin & Hne & Hexec).
  eexists. exists i, next. split.
  - unfold step, dispatch. rewrite <- (andThen_nil (endTurn wasSuccess s)).
    apply Hexec. constructor.
  - simpl. repeat split; auto.
    rewrite Hps'. unfold tileToInsert.
    destruct (drawnTile s) as [drawn|]; simpl; [|reflexivity].
    set (merged := if wasSuccess then drawn else setRevealed true drawn).
    exists (setHand (sortHand (hand cp ++ [merged])%list) cp), merged.
    destruct (sortHand_mergedHand merged (hand cp)) as [Hperm Hsorted].
    repeat split; auto.
    unfold merged. destruct wasSuccess;
      [reflexivity|apply setRevealed_faceUp].
Qed.

Lemma endTurn_passes_turn_witness :
  exists s' i next,
    step (CmdEndTurn true) lastTileHidden = Ok s' /\
    findIndex (hasId (currentTurnPlayerId lastTileHidden))
              (players lastTileHidden) = Some i /\
    nth_error (players lastTileHidden) i = Some firstPlayer /\
    match drawnTile lastTileHidden with
    | Some drawn =>
        exists cp' merged,
          players s' = replaceNth i cp' (players lastTileHidden) /\
          samePerson firstPlayer cp' /\
          isEliminated cp' = isEliminated firstPlayer /\
          (if true then merged = drawn else faceUp drawn merged) /\
          Permutation (hand cp') (hand firstPlayer ++ [merged])%list /\
          Sorted notAfter (hand cp')
    | None => players s' = players lastTileHidden
    end /\
    In next (players s') /\ isEliminated next = false /\
    currentTurnPlayerId s' = playerId next /\
    drawnTile s' = None /\
    phase s' = DRAW /\
    moveNumber s' = moveNumber lastTileHidden + 1 /\
    pool s' = pool lastTileHidden /\
    winnerId s' = winnerId lastTileHidden /\
    turnLog s' = turnLog lastTileHidden.
Proof.
  apply (endTurn_passes_turn true lastTileHidden firstPlayer).
  - reflexivity.
  - exists firstPlayer. split; [simpl; auto|reflexivity].
Defined.

(** ** Correct guesses, of a player and of the bot *)

(** In the Guess phase a move of the automated player leaves the move
    number, or is the end of a turn after a failed guess. *)
Lemma bot_guess_cases (j : bool) (u1 u2 u3 u4 : Q) (s s' : GameState) :
  In (currentTurnPlayerId s) (map playerId (players s)) ->
  phase s = GUESS ->
  outcomeState (exec (executeBotMove j u1 u2 u3 u4 s) s) = Some s' ->
  moveNumber s' = moveNumber s \/ exec (endTurn false s) s = Ok s'.
Proof.
  intros Hcur Hph. unfold executeBotMove. rewrite Hph.
  set (opponents := filter _ (players s)).
  destruct opponents as [|o os] eqn:Hopp.
  { simpl. intros [= <-]. auto. }
  rewrite <- Hopp.
  destruct (at_ opponents _) as [target|] eqn:Htarget.
  2:{ simpl. intros [= <-]. auto. }
  set (hiddenTiles := filter _ (indexed (hand target))).
  destruct hiddenTiles as [|h hs] eqn:Hhid.
  { simpl. intros [= <-]. auto. }
  rewrite <- Hhid.
  destruct (at_ hiddenTiles _) as [[targetTile i]|] eqn:Htile.
  2:{ simpl. intros [= <-]. auto. }
  destruct (match at_ (possibleValues j) _ with Some _ => _ | None => _ end).
  - set (newPlayers := afterCorrectGuess (playerId target) i (players s)).
    destruct (mergeDrawn (currentTurnPlayerId s) (drawnTile s) newPlayers)
      as [fp|] eqn:Hm.
    + destruct (getNextPlayerId fp _) as [nextId| |];
        unfold exec, outcomeState; try discriminate.
      * intros [= <-]. left.
        match goal with
        | |- context [commit (checkWinner fp) ?s1] =>
            destruct (checkWinner_commit fp s1) as (_ & _ & _ & _ & W5 & _)
        end.
        rewrite W5. reflexivity.
      * intros [= <-]. left. reflexivity.
    + destruct (getNextPlayerId newPlayers _);
        unfold exec, outcomeState; try discriminate;
        intros [= <-]; left; reflexivity.
  - intro Hstep. right.
    destruct (In_ids_findPlayer _ _ Hcur) as (cp & Hcp).
    apply at_In in Htarget. unfold opponents in Htarget.
    apply filter_In in Htarget. destruct Htarget as [Hin Htarget].
    apply andb_true_iff in Htarget. destruct Htarget as [_ He].
    apply negb_true_iff in He.
    destruct (endTurn_exec false s cp Hcp)
      as (k & ps' & next & _ & _ & _ & _ & _ & Hexec).
    { exists target. auto. }
    rewrite (Hexec [addLog "Bot guessed wrong."] (logsOnly_one _)) in Hstep.
    injection Hstep as <-.
    rewrite <- (andThen_nil (endTurn false s)).
    apply Hexec. constructor.
Qed.

(** The bot picks a tile and its value. *)
Lemma bot_correct_guess (j : bool) (u1 u2 u3 u4 : Q) (s : GameState)
    (cp tp : Player) (i : Z) (t : Tile) :
  phase s = GUESS ->
  NoDup (map playerId (players s)) ->
  findPlayer (currentTurnPlayerId s) (players s) = Some cp ->
  isEliminated cp = false ->
  botChoice j u2 u3 u4 s = Some (tp, i, t, Some (value t)) ->
  validTarget s (playerId tp) i tp t /\
  exists s' next,
    step (CmdBot j u1 u2 u3 u4) s = Ok s' /\
    Forall2 (afterBotGuess (currentTurnPlayerId s) (drawnTile s)
                           (playerId tp) i)
            (players s) (players s') /\
    winnerCheck (players s') DRAW s s' /\
    In next (players s') /\ isEliminated next = false /\
    currentTurnPlayerId s' = playerId next /\
    drawnTile s' = None /\
    pool s' = pool s /\
    moveNumber s' = moveNumber s.
Proof.
  intros Hph Hnd Hcp Hce Hchoice.
  unfold botChoice in Hchoice.
  unfold step, dispatch, executeBotMove. rewrite Hph.
  cbv zeta in Hchoice |- *.
  set (guessVal := at_ (possibleValues j) _) in *. clearbody guessVal.
  set (opponents := filter _ (players s)) in *.
  destruct (at_ opponents _) as [target|] eqn:Htarget; [|discriminate].
  set (hiddenTiles := filter _ (indexed (hand target))) in *.
  destruct (at_ hiddenTiles _) as [[targetTile i0]|] eqn:Htile;
    [|discriminate].
  injection Hchoice as -> -> -> ->.
  assert (Hopp : opponents <> []).
  { intro E. rewrite E in Htarget. unfold at_ in Htarget.
    destruct (_ <? 0); [discriminate|].
    destruct (Z.to_nat _); discriminate. }
  assert (Hhid : hiddenTiles <> []).
  { intro E. rewrite E in Htile. unfold at_ in Htile.
    destruct (_ <? 0); [discriminate|].
    destruct (Z.to_nat _); discriminate. }
  pose proof Htarget as Htarget'. pose proof Htile as Htile'.
  apply at_In in Htarget'. unfold opponents in Htarget'.
  apply filter_In in Htarget'. destruct Htarget' as [Hin Hflags].
  apply andb_true_iff in Hflags. destruct Hflags as [Hnc He].
  apply negb_true_iff in Hnc, He.
  apply at_In in Htile'. unfold hiddenTiles in Htile'.
  apply filter_In in Htile'. destruct Htile' as [Hidx Hr].
  apply indexed_In in Hidx. simpl in Hr. apply negb_true_iff in Hr.
  assert (Hvalid : validTarget s (playerId tp) i tp t).
  { unfold validTarget. repeat split; auto.
    - apply NoDup_findPlayer; assumption.
    - apply hasId_false. exact Hnc. }
  split; [exact Hvalid|].
  destruct opponents as [|o os] eqn:Eopp; [congruence|].
  destruct hiddenTiles as [|h hs] eqn:Ehid; [congruence|].
  rewrite Z.eqb_refl.
  set (newPlayers := afterCorrectGuess (playerId tp) i (players s)).
  assert (Hids : map playerId newPlayers = map playerId (players s))
    by apply afterCorrectGuess_ids.
  destruct (mergeDrawn (currentTurnPlayerId s) (drawnTile s) newPlayers)
    as [fp|] eqn:Hm.
  2:{ apply mergeDrawn_None in Hm.
      rewrite (findPlayer_None_ids _ newPlayers (players s) Hids Hm) in Hcp.
      discriminate. }
  pose proof (botGuess_players _ _ _ _ _ _ _ _ Hnd
                (proj1 Hvalid) Hidx Hr
                (proj1 (proj2 (proj2 Hvalid))) Hm) as Hseat.
  assert (Hactive : exists p, In p fp /\ isEliminated p = false).
  { apply findPlayer_id in Hcp. destruct Hcp as [Hcid Hcin].
    destruct (Forall2_In_l _ _ _ _ Hseat Hcin)
      as (p' & Hp' & [[Hid _]|[(_ & _ & _ & Hflag & _)|(_ & _ & ->)]]).
    - exfalso. apply (proj1 (proj2 (proj2 Hvalid))). congruence.
    - exists p'. split; [exact Hp'|]. congruence.
    - exists cp. auto. }
  destruct (getNextPlayerId_returns fp (currentTurnPlayerId s) Hactive)
    as (nextId & Hnext).
  rewrite Hnext.
  destruct (getNextPlayerId_NextIs _ _ _ Hnext) as (next & Hnin & Hne & Hnid).
  eexists. exists next. split; [reflexivity|].
  unfold exec. rewrite commit_app.
  match goal with
  | |- context [commit (checkWinner fp) ?s1] =>
      pose proof (checkWinner_commit fp s1) as Hw;
      set (s2 := commit (checkWinner fp) s1) in *
  end.
  simpl in Hw. destruct Hw as (W1 & W2 & W3 & W4 & W5 & W6).
  rewrite W1, W2, W3, W4, W5.
  split; [exact Hseat|]. split.
  { unfold winnerCheck.
    destruct (activePlayers fp) as [|w [|w' rest]]; exact W6. }
  repeat split; auto.
Qed.

(** C2, amended.  In the Guess phase of a state whose players have
    distinct ids and whose acting player is one of them, take a hidden
    tile of an opponent that is in the game.  The guess of a player with
    the value of that tile returns a state in which that tile is face
    up, and otherwise the same tile, in the same place of the target's
    hand; the other tiles of the hand and the other players are as
    before; the target is eliminated exactly when no tile of its hand is
    hidden any more; the acting player, the drawn tile, the pool and the
    move counter are unchanged; and the phase is Resolve, or GameOver
    with the winner set when one player is left.  The automated player
    does not go through the dialog: when the tile and the value it picks
    are that tile and its value, and the bot is not eliminated, its move
    returns a state in which the tile is face up in the same way, the
    bot holds the tile it had drawn, not revealed, in a hand in the
    order of the comparator, every other player is as before, the slot
    of the drawn tile is empty, the turn is with a player that is not
    eliminated, the pool and the move counter are unchanged, and the
    phase is Draw, or GameOver with the winner set when one player is
    left; it is never Resolve. *)
Theorem correct_guess_resolves (s : GameState) (target : string) (i : Z)
    (tp cp : Player) (t : Tile) :
  phase s = GUESS ->
  NoDup (map playerId (players s)) ->
  findPlayer (currentTurnPlayerId s) (players s) = Some cp ->
  validTarget s target i tp t ->
  (exists s' l1 l2 tp',
     step (CmdGuess target i (value t)) s = Ok s' /\
     players s = (l1 ++ tp :: l2)%list /\
     players s' = (l1 ++ tp' :: l2)%list /\
     samePerson tp tp' /\
     revealedAt i (hand tp) (hand tp') /\
     isEliminated tp' = allRevealed tp' /\
     currentTurnPlayerId s' = currentTurnPlayerId s /\
     moveNumber s' = moveNumber s /\
     drawnTile s' = drawnTile s /\
     pool s' = pool s /\
     winnerCheck (players s') RESOLVE s s') /\
  (forall j u1 u2 u3 u4,
     isEliminated cp = false ->
     botChoice j u2 u3 u4 s = Some (tp, i, t, Some (value t)) ->
     exists s'' next,
       step (CmdBot j u1 u2 u3 u4) s = Ok s'' /\
       Forall2 (afterBotGuess (currentTurnPlayerId s) (drawnTile s) target i)
               (players s) (players s'') /\
       In next (players s'') /\ isEliminated next = false /\
       currentTurnPlayerId s'' = playerId next /\
       drawnTile s'' = None /\
       pool s'' = pool s /\
       moveNumber s'' = moveNumber s /\
       winnerCheck (players s'') DRAW s s'' /\
       phase s'' <> RESOLVE).
Proof.
  intros Hp Hnd Hcp Hvalid.
  pose proof Hvalid as (Hf & He & Hne & Hat & Hr). split.
  - destruct (submitGuess_correct s target i tp t Hf Hat)
      as (s' & Hexec & H1 & H2 & H3 & H4 & H5 & H6).
    destruct (answer_split (players s) target i tp t Hnd Hf Hat)
      as (l1 & l2 & Hps & Hps').
    destruct (answered_guessedPlayer tp i t Hat Hr) as (G1 & G2 & G3).
    exists s', l1, l2, (answeredTarget tp i t).
    split.
    { unfold step, dispatch, guess.
      rewrite (handleTileClick_valid s target i tp t Hp Hvalid).
      exact Hexec. }
    split; [exact Hps|]. split; [congruence|].
    split; [exact G1|]. split; [exact G2|].
    split; [rewrite G3, He; reflexivity|].
    repeat split; auto.
  - intros j u1 u2 u3 u4 Hce Hchoice.
    destruct (bot_correct_guess j u1 u2 u3 u4 s cp tp i t Hp Hnd Hcp Hce
                Hchoice)
      as (_ & s'' & next & Hstep & Hseat & Hw & Hnin & Hnel & Hnext & E3
          & E4 & E6).
    apply findPlayer_id in Hf. destruct Hf as [Hid _]. rewrite Hid in Hseat.
    exists s'', next. repeat split; auto.
    unfold winnerCheck in Hw.
    destruct (activePlayers (players s'')) as [|w [|w' rest]];
      destruct Hw as [Hw _]; rewrite Hw; discriminate.
Qed.

Lemma correct_guess_resolves_witness :
  (exists tp cp t,
     validTarget firstGuess "p-1" 0 tp t /\
     findPlayer (currentTurnPlayerId firstGuess) (players firstGuess)
       = Some cp /\
     exists s' l1 l2 tp',
       step (CmdGuess "p-1" 0 (value t)) firstGuess = Ok s' /\
       players firstGuess = (l1 ++ tp :: l2)%list /\
       players s' = (l1 ++ tp' :: l2)%list /\
       samePerson tp tp' /\
       revealedAt 0 (hand tp) (hand tp') /\
       isEliminated tp' = allRevealed tp' /\
       currentTurnPlayerId s' = currentTurnPlayerId firstGuess /\
       moveNumber s' = moveNumber firstGuess /\
       drawnTile s' = drawnTile firstGuess /\
       pool s' = pool firstGuess /\
       winnerCheck (players s') RESOLVE firstGuess s') /\
  (exists tp cp t,
     validTarget botToGuess "p-0" 0 tp t /\
     findPlayer (currentTurnPlayerId botToGuess) (players botToGuess)
       = Some cp /\
     isEliminated cp = false /\
     botChoice false 0 0 0 botToGuess = Some (tp, 0, t, Some (value t)) /\
     exists s'' next,
       step (CmdBot false 0 0 0 0) botToGuess = Ok s'' /\
       Forall2 (afterBotGuess (currentTurnPlayerId botToGuess)
                              (drawnTile botToGuess) "p-0" 0)
               (players botToGuess) (players s'') /\
       In next (players s'') /\ isEliminated next = false /\
       currentTurnPlayerId s'' = playerId next /\
       drawnTile s'' = None /\
       pool s'' = pool botToGuess /\
       moveNumber s'' = moveNumber botToGuess /\
       winnerCheck (players s'') DRAW botToGuess s'' /\
       phase s'' <> RESOLVE).
Proof.
  split.
  - assert (Hvalid : validTarget firstGuess "p-1" 0
                       (nth 1 (players firstGuess) nobody)
                       (nth 0 (hand (nth 1 (players firstGuess) nobody))
                            blankTile)).
    { unfold validTarget. simpl. repeat split; try reflexivity.
      discriminate. }
    assert (Hnd : NoDup (map playerId (players firstGuess))).
    { simpl. repeat constructor; simpl; intuition discriminate. }
    assert (Hcp : findPlayer (currentTurnPlayerId firstGuess)
                             (players firstGuess)
                  = Some (nth 0 (players firstGuess) nobody)).
    { reflexivity. }
    do 3 eexists. split; [exact Hvalid|]. split; [exact Hcp|].
    exact (proj1 (correct_guess_resolves firstGuess "p-1" 0 _ _ _
                    eq_refl Hnd Hcp Hvalid)).
  - assert (Hvalid : validTarget botToGuess "p-0" 0
                       (nth 0 (players botToGuess) nobody)
                       (nth 0 (hand (nth 0 (players botToGuess) nobody))
                            blankTile)).
    { unfold validTarget. simpl. repeat split; try reflexivity.
      discriminate. }
    assert (Hnd : NoDup (map playerId (players botToGuess))).
    { simpl. repeat constructor; simpl; intuition discriminate. }
    assert (Hcp : findPlayer (currentTurnPlayerId botToGuess)
                             (players botToGuess)
                  = Some (nth 1 (players botToGuess) nobody)).
    { reflexivity. }
    do 3 eexists. split; [exact Hvalid|]. split; [exact Hcp|].
    split; [reflexivity|].
    assert (Hchoice : botChoice false 0 0 0 botToGuess
              = Some (nth 0 (players botToGuess) nobody, 0,
                      nth 0 (hand (nth 0 (players botToGuess) nobody))
                          blankTile,
                      Some (value (nth 0 (hand (nth 0 (players botToGuess)
                                                    nobody)) blankTile)))).
    { vm_compute. reflexivity. }
    split; [exact Hchoice|].
    exact (proj2 (correct_guess_resolves botToGuess "p-0" 0 _ _ _
                    eq_refl Hnd Hcp Hvalid)
             false 0%Q 0%Q 0%Q 0%Q eq_refl Hchoice).
Defined.

(** X23: In the Guess phase a move of the automated player that returns
    does one of three things.  It changes nothing but the log; or it
    leaves the state that [endTurn] leaves after a failed guess; or it
    has guessed right: a hidden tile of an opponent that is in the game
    is face up, and otherwise the same tile in the same place of the
    hand, and that opponent is eliminated if no tile of its hand is
    hidden any more; the bot holds the tile it had drawn, as it was, in
    a hand in the order of the comparator; every other player is as
    before; the turn is with a player that is not eliminated, no tile is
    drawn, and the pool and the move number are as before. *)
Theorem bot_guess_move (j : bool) (u1 u2 u3 u4 : Q) (a : App)
    (s' : GameState) :
  played a ->
  phase (appGame a) = GUESS ->
  outcomeState (appOutcome (BotTimer j u1 u2 u3 u4) a) = Some s' ->
  sameButLog (appGame a) s' \/
  appOutcome (EndTurn false) a = Ok s' \/
  exists target i tp t next,
    validTarget (appGame a) target i tp t /\
    Forall2 (afterBotGuess (currentTurnPlayerId (appGame a))
                           (drawnTile (appGame a)) target i)
            (players (appGame a)) (players s') /\
    winnerCheck (players s') DRAW (appGame a) s' /\
    In next (players s') /\ isEliminated next = false /\
    currentTurnPlayerId s' = playerId next /\
    drawnTile s' = None /\
    pool s' = pool (appGame a) /\
    moveNumber s' = moveNumber (appGame a).
Proof.
  intros Ha Hph Hstep.
  destruct (played_gameInv a Ha) as (Hnd & Hcur & _).
  unfold appOutcome in *. simpl appRun in *.
  set (s := appGame a) in *.
  pose proof (bot_guess_cases j u1 u2 u3 u4 s s' Hcur Hph Hstep) as Hcases.
  pose proof (executeBotMove_transition (CmdBot j u1 u2 u3 u4)
                j u1 u2 u3 u4 s s' Hnd Hstep) as Ht.
  destruct Ht as
    [ Hnone
    | Hlost
    | Hpre _ _ _ _ _ _ _
    | u tile Hd _ _ _ _ _ _ _
    | target i tp t Hc _ _ _ _ _ _ _ _
    | target i tp t next _ Hvalid Hm Hw Hnin Hnel Hnext E3 E4 E6
    | b next _ _ _ _ _ _ _ _ E6
    | dragged tid d cp Hc _ _ _ _ _ _ _ _ _ _ _ _
    | dragged tid obj cp Hc _ _ _ _ _ _ _ _ _ _ _ ];
    try discriminate; try congruence.
  - left. exact Hnone.
  - destruct (In_ids_findPlayer _ _ Hcur) as (cp & Hcp). congruence.
  - destruct Hpre as [[H _]|H]; congruence.
  - right. right. exists target, i, tp, t, next.
    pose proof Hvalid as (Hf & He & Hne & Hat & Hr).
    split; [exact Hvalid|]. split.
    { apply (botGuess_players _ _ _ _ _ _ tp t); assumption. }
    repeat split; auto.
  - destruct Hcases as [Hsame|Hend]; [lia|]. right. left. exact Hend.
Qed.

Lemma played_botAsked : played botAsked.
Proof.
  eapply (played_shownWith humanAndBot
    [DrawButton 0; TileClick "p-1" 0; ValueButton 5; BotTimer false 0 0 0 0]);
    [exact validConfig_humanAndBot|vm_compute; reflexivity
    |vm_compute; reflexivity].
Qed.

Lemma bot_guess_move_witness :
  appGame botAsked = botToGuess /\
  (sameButLog botToGuess botMoved \/
   appOutcome (EndTurn false) botAsked = Ok botMoved \/
   exists target i tp t next,
     validTarget botToGuess target i tp t /\
     Forall2 (afterBotGuess (currentTurnPlayerId botToGuess)
                            (drawnTile botToGuess) target i)
             (players botToGuess) (players botMoved) /\
     winnerCheck (players botMoved) DRAW botToGuess botMoved /\
     In next (players botMoved) /\ isEliminated next = false /\
     currentTurnPlayerId botMoved = playerId next /\
     drawnTile botMoved = None /\
     pool botMoved = pool botToGuess /\
     moveNumber botMoved = moveNumber botToGuess).
Proof.
  split; [reflexivity|].
  apply (bot_guess_move false 0 0 0 0 botAsked botMoved).
  - exact played_botAsked.
  - reflexivity.
  - reflexivity.
Defined.

(** ** Draws and sort keys *)

Lemma keepsPool_setter (s : GameState) (u : Updater) :
  (forall prev, pool (u prev) = pool prev) -> keepsPool s u.
Proof. intros Hu prev H. rewrite Hu. exact H. Qed.

Lemma keepsPool_const (s x : GameState) :
  pool x = pool s -> keepsPool s (fun _ => x).
Proof. intros Hx prev _. exact Hx. Qed.

Lemma commit_keepsPool (s : GameState) (q : list Updater) :
  Forall (keepsPool s) q ->
  forall prev, pool prev = pool s -> pool (commit q prev) = pool s.
Proof.
  unfold commit. induction 1 as [|u q Hu _ IH]; intros prev Hprev; simpl.
  - exact Hprev.
  - apply IH. apply Hu. exact Hprev.
Qed.

Lemma andThen_keepsPool (s : GameState) (q : list Updater) (r : Run) :
  Forall (keepsPool s) q -> runKeepsPool s r ->
  runKeepsPool s (andThen q r).
Proof.
  intros Hq Hr. destruct r as [q'|q'|]; simpl in *; auto;
    apply Forall_app; auto.
Qed.

Ltac keeps_pool :=
  repeat first
    [ apply Forall_nil
    | apply Forall_cons
    | apply Forall_app; split
    | apply keepsPool_setter; intro; reflexivity
    | apply keepsPool_const; reflexivity ].

Lemma checkWinner_keepsPool (s : GameState) (ps : list Player) :
  Forall (keepsPool s) (checkWinner ps).
Proof.
  unfold checkWinner. destruct (activePlayers ps) as [|w [|]]; keeps_pool.
Qed.

Lemma endTurn_keepsPool (b : bool) (s : GameState) :
  runKeepsPool s (endTurn b s).
Proof.
  unfold endTurn.
  assert (Hlog : Forall (keepsPool s)
            match drawnTile s with
            | Some drawn =>
                if b then []
                else [addLog ("Revealed drawn tile: " ++ showColor (color drawn)
                              ++ " " ++ describeTile drawn)]
            | None => []
            end).
  { destruct (drawnTile s); [destruct b|]; keeps_pool. }
  destruct (mergeDrawn _ _ _) as [newPlayers|]; simpl; [|exact Hlog].
  destruct (nextPlayerIdx _ _) as [nextIdx| |]; simpl; auto.
  destruct (nth_error newPlayers nextIdx) as [next|]; simpl; [|exact Hlog].
  apply Forall_app. split; [exact Hlog|]. keeps_pool.
Qed.

Lemma submitGuess_keepsPool (m : GuessModal) (v : Z) (s : GameState) :
  runKeepsPool s (submitGuess m v s).
Proof.
  unfold submitGuess.
  destruct (findPlayer _ _) as [tp|]; simpl; [|constructor].
  destruct (at_ _ _) as [tt|]; simpl; [|constructor].
  destruct (value tt =? v).
  - simpl. destruct (targetAllRevealed _ _); keeps_pool;
      apply checkWinner_keepsPool.
  - apply andThen_keepsPool; [keeps_pool|]. apply endTurn_keepsPool.
Qed.

Lemma handleDrop_keepsPool (d t : string) (s : GameState) :
  runKeepsPool s (handleDrop d t s).
Proof.
  unfold handleDrop. destruct (String.eqb d t); simpl; [constructor|].
  destruct (findPlayer _ _) as [cp|]; simpl; [|constructor].
  destruct (if match drawnTile s with
               | Some d0 => tileHasId d d0
               | None => false
               end then drawnTile s else find (tileHasId d) (hand cp))
    as [obj|]; simpl; [|constructor].
  destruct (negb (isJoker obj) || isPlaced obj); simpl; [constructor|].
  destruct (match drawnTile s with
            | Some d0 => tileHasId d d0
            | None => false
            end); simpl; keeps_pool.
Qed.

Lemma botGuess_keepsPool (j : bool) (u1 u2 u3 u4 : Q) (s : GameState) :
  phase s <> DRAW -> runKeepsPool s (executeBotMove j u1 u2 u3 u4 s).
Proof.
  intro Hph. unfold executeBotMove.
  destruct (phase s); simpl; try constructor; try congruence.
  - destruct (filter _ (players s)) as [|o os]; simpl; [constructor|].
    destruct (at_ _ _) as [target|]; simpl; [|constructor].
    destruct (filter _ (indexed (hand target))) as [|h hs];
      simpl; [constructor|].
    destruct (at_ _ _) as [[targetTile i]|]; simpl; [|constructor].
    destruct (match at_ _ _ with
              | Some guessVal => value targetTile =? guessVal
              | None => false
              end).
    + destruct (getNextPlayerId _ _) as [nextId| |]; simpl; auto;
        [|keeps_pool].
      destruct (mergeDrawn _ _ _) as [m|]; simpl; keeps_pool.
      apply checkWinner_keepsPool.
    + apply andThen_keepsPool; [keeps_pool|]. apply endTurn_keepsPool.
  - apply endTurn_keepsPool.
Qed.

Lemma run_keepsPool (r : Run) (s s' : GameState) :
  runKeepsPool s r -> outcomeState (exec r s) = Some s' -> pool s' = pool s.
Proof.
  destruct r as [q|q|]; simpl; intros Hq H; try discriminate;
    injection H as <-; apply commit_keepsPool; auto.
Qed.

Lemma drawTile_pool (u : Q) (s s' : GameState) :
  outcomeState (exec (drawTile u s) s) = Some s' ->
  pool s' = pool s \/
  exists tile,
    phase s = DRAW /\ pool s = (pool s' ++ [tile])%list /\
    drawnTile s'
      = Some (claimTile (currentTurnPlayerId s) (players s) u tile).
Proof.
  unfold drawTile.
  destruct (GamePhase_eqb (phase s) DRAW) eqn:Hp; simpl.
  - apply GamePhase_eqb_eq in Hp.
    destruct (pop (pool s)) as [[tile newPool]|] eqn:Hpop; simpl;
      intros [= <-].
    + apply pop_Some in Hpop. right. exists tile. simpl. auto.
    + left. reflexivity.
  - intros [= <-]. left. reflexivity.
Qed.

(** A command leaves the pool as it is, unless it calls [drawTile] in
    the Draw phase on a pool that has a tile. *)
Lemma step_pool (c : Command) (s s' : GameState) :
  outcomeState (step c s) = Some s' ->
  pool s' = pool s \/
  exists u tile,
    drawsWith c = Some u /\
    phase s = DRAW /\ pool s = (pool s' ++ [tile])%list /\
    drawnTile s'
      = Some (claimTile (currentTurnPlayerId s) (players s) u tile).
Proof.
  unfold step.
  destruct c as [u|target i v| |b|d t|j u1 u2 u3 u4|u]; simpl dispatch;
    intro Hstep.
  - destruct (drawTile_pool u s s' Hstep) as [H|(tile & H)]; auto.
    right. exists u, tile. auto.
  - left. revert Hstep. apply run_keepsPool. unfold guess.
    destruct (handleTileClick s target i) as [|m|]; simpl; try constructor.
    apply submitGuess_keepsPool.
  - left. revert Hstep. apply run_keepsPool. unfold continueTurn.
    destruct (GamePhase_eqb _ _); simpl; keeps_pool.
  - left. revert Hstep. apply run_keepsPool. apply endTurn_keepsPool.
  - left. revert Hstep. apply run_keepsPool. apply handleDrop_keepsPool.
  - destruct (GamePhase_eqb (phase s) DRAW) eqn:Hp.
    + apply GamePhase_eqb_eq in Hp. unfold executeBotMove in Hstep.
      rewrite Hp in Hstep.
      destruct (drawTile_pool u1 s s' Hstep) as [H|(tile & H)]; auto.
      right. exists u1, tile. auto.
    + left. revert Hstep. apply run_keepsPool. apply botGuess_keepsPool.
      intro E. rewrite E in Hp. discriminate.
  - unfold handleTimeOut in Hstep. destruct (drawnTile s) as [d|].
    + left. revert Hstep. apply run_keepsPool.
      apply andThen_keepsPool; [keeps_pool|]. apply endTurn_keepsPool.
    + destruct (drawTile_pool u s s' Hstep) as [H|(tile & H)]; auto.
      right. exists u, tile. auto.
Qed.

(** The tiles of the hands after the deal. *)
Lemma dealPlayers_tiles (n : nat) :
  forall i details tpp pool rnd ps rest,
    dealPlayers n i details tpp pool rnd = Some (ps, rest) ->
    (forall p t', In p ps -> In t' (hand p) ->
       exists t, In t pool /\ sameTile t t' /\ isPlaced t' = isPlaced t /\
         (sortValue t' = sortValue t \/
          (isJoker t = true /\ isBot p = true))) /\
    (forall t, In t rest -> In t pool).
Proof.
  induction n as [|n IH]; simpl; intros i details tpp pool rnd ps rest Hd.
  - injection Hd as <- <-. split; [intros p t' []|auto].
  - destruct (nth_error details i) as [d|]; [|discriminate].
    destruct (dealPlayers n (S i) details tpp (skipn tpp pool) rnd)
      as [[ps0 rest0]|] eqn:Hrec; [|discriminate].
    injection Hd as <- <-.
    destruct (IH _ _ _ _ _ _ _ Hrec) as [IH1 IH2].
    assert (Hskip : forall t, In t (skipn tpp pool) -> In t pool).
    { intros t Ht. rewrite <- (firstn_skipn tpp pool). apply in_or_app. auto. }
    assert (Hfirst : forall t, In t (firstn tpp pool) -> In t pool).
    { intros t Ht. rewrite <- (firstn_skipn tpp pool). apply in_or_app. auto. }
    split; [|intros t Ht; apply Hskip; apply IH2; exact Ht].
    intros p t' [<-|Hp] Ht'.
    + simpl in Ht'.
      apply (Permutation_in _ (Permutation_sym (sortHand_perm _))) in Ht'.
      destruct (cfgIsBot d) eqn:Hbot.
      * apply in_map_iff in Ht'. destruct Ht' as (t1 & <- & Ht1).
        apply in_map_iff in Ht1. destruct Ht1 as (t & <- & Ht).
        exists t. split; [apply Hfirst; exact Ht|].
        unfold sameTile. simpl.
        destruct (isJoker t) eqn:Hj; simpl; repeat split; auto.
      * apply in_map_iff in Ht'. destruct Ht' as (t & <- & Ht).
        exists t. split; [apply Hfirst; exact Ht|].
        unfold sameTile. simpl. repeat split; auto.
    + destruct (IH1 p t' Hp Ht') as (t & Ht & H).
      exists t. split; [apply Hskip; exact Ht|exact H].
Qed.

Lemma startGame_keys (cfg : GameConfig) (shuffled : list Tile)
    (rnd : string -> Q) (s0 : GameState) :
  startGame cfg shuffled rnd = Some s0 ->
  forall t', In t' (allTiles s0) ->
    exists t, In t shuffled /\ sameTile t t' /\ isPlaced t' = isPlaced t /\
      (sortValue t' = sortValue t \/ dealtToBot s0 t t').
Proof.
  unfold startGame.
  destruct (dealPlayers _ _ _ _ _ _) as [[[|first others] rest]|] eqn:Hdeal;
    try discriminate.
  intros [= <-] t' Hin.
  destruct (dealPlayers_tiles _ _ _ _ _ _ _ _ Hdeal) as [H1 H2].
  apply In_allTiles in Hin. cbn [players drawnTile pool] in Hin.
  destruct Hin as [(p & Hp & Ht)|[Hd|Hr]]; [|discriminate|].
  - destruct (H1 p t' Hp Ht) as (t & Hin & Hsame & Hpl & Hkey).
    exists t. split; [exact Hin|]. split; [exact Hsame|].
    split; [exact Hpl|].
    destruct Hkey as [Hkey|(Hj & Hbot)]; [left; exact Hkey|].
    right. split; [exact Hj|].
    exists p. cbn [players]. auto.
  - exists t'. split; [apply H2; exact Hr|].
    unfold sameTile. repeat split; auto.
Qed.

(** C7, amended.  The deal takes every tile from the deck, the same
    tile with its flag as it was, and leaves it the sort key of the
    deck, unless it is a joker in the hand of an automated player.  In
    every reachable state tiles have distinct ids and a tile that is not
    a joker has its value as sort key.  Every tile after a command is a
    tile from before it, with the same id, colour, value and kind, and
    one of three things holds: its sort key and flag are unchanged; or
    it is a joker that the command, a call of [drawTile] in the Draw
    phase, took from the end of the pool for an automated player: it is
    now the drawn tile, and its flag was unset and is unset; or it is a
    joker with the
    flag unset named by the reposition command that ran, and the flag
    is now set.  A tile whose flag is set keeps flag and key, and a
    reposition command that names it changes nothing. *)
Theorem sort_key_placement (s : GameState) :
  reachable s ->
  (forall cfg shuffled rnd s0,
     startGame cfg shuffled rnd = Some s0 ->
     forall t', In t' (allTiles s0) ->
       exists t, In t shuffled /\ sameTile t t' /\
         isPlaced t' = isPlaced t /\
         (sortValue t' = sortValue t \/ dealtToBot s0 t t')) /\
  (forall t, In t (allTiles s) ->
     isJoker t = false -> sortValue t = inject_Z (value t)) /\
  NoDup (tileIds s) /\
  (forall c s', outcomeState (step c s) = Some s' ->
     forall t', In t' (allTiles s') ->
       exists t, In t (allTiles s) /\ sameTile t t' /\
         (keyKept t t' \/
          drawnByBot c s s' t t' \/
          explicitlyPlaced c t t') /\
         (isPlaced t = true ->
          isPlaced t' = true /\ sortValue t' = sortValue t)) /\
  (forall t target, In t (allTiles s) -> isPlaced t = true ->
     step (CmdReposition (tileId t) target) s = Ok s).
Proof.
  intro Hs.
  pose proof (reachable_playersInv s Hs) as Hp.
  pose proof (reachable_tilesInv s Hs) as (Hkey & Hpool & Hids).
  split; [apply startGame_keys|].
  split; [exact Hkey|]. split; [exact Hids|]. split.
  - intros c s' Hstep t' Hin.
    assert (Ht : Transition c s s').
    { apply step_transition; [apply Hp|exact Hstep]. }
    pose proof (reachable_tilesInv s' (reach_step c s s' Hs Hstep))
      as (_ & _ & Hids').
    destruct (transition_tiles c s s' Hp Hids Ht t' Hin)
      as (t & Ht0 & Hsame & Hchange).
    exists t. split; [exact Ht0|]. split; [exact Hsame|].
    assert (Hstay : In t (allTiles s') -> keyKept t t').
    { intro Hin'. 
      rewrite (tile_by_id s' t' t Hids' Hin Hin' (proj1 Hsame)).
      split; reflexivity. }
    assert (Hcase : keyKept t t' \/ drawnByBot c s s' t t' \/
                    explicitlyPlaced c t t').
    { destruct Hchange as [H|[(Hpl & Hj & Hflag & cp & Hcp & Hbot)|H]]; auto.
      destruct (step_pool c s s' Hstep)
        as [Hsamepool|(u & tile & Hdraw & Hph & Hpop & Hdrawn)].
      - left. apply Hstay. apply In_allTiles. right. right.
        rewrite Hsamepool. exact Hpl.
      - rewrite Hpop in Hpl. apply in_app_or in Hpl.
        destruct Hpl as [Hpl|[<-|[]]].
        + left. apply Hstay. apply In_allTiles. auto.
        + right. left.
          assert (Hd : In (claimTile (currentTurnPlayerId s) (players s)
                                     u tile) (allTiles s')).
          { apply In_allTiles. auto. }
          assert (Hid : tileId t'
                        = tileId (claimTile (currentTurnPlayerId s)
                                            (players s) u tile)).
          { rewrite (proj1 Hsame). unfold claimTile. rewrite Hcp, Hbot.
            simpl. rewrite Hj. reflexivity. }
          assert (E : t' = claimTile (currentTurnPlayerId s) (players s)
                                     u tile).
          { apply (tile_by_id s'); assumption. }
          assert (Hunset : isPlaced tile = false).
          { apply Hpool. rewrite Hpop. apply in_or_app. simpl. auto. }
          unfold drawnByBot. split; [exists u; exact Hdraw|].
          split; [exact Hph|]. split; [exact Hpop|].
          split; [rewrite E; exact Hdrawn|]. split; [exact Hj|].
          split; [exact Hunset|]. split; [congruence|].
          exists cp. auto. }
    split; [exact Hcase|].
    intro Hpl.
    destruct Hcase as [[Hsv Hfl]|[(_ & _ & _ & _ & _ & Hun & _)
                                 |(_ & _ & Hfl & _)]].
    + split; congruence.
    + congruence.
    + congruence.
  - intros t target Hin Hpl.
    apply placed_reposition_rejected; assumption.
Qed.

Lemma sort_key_placement_witness :
  (forall t, In t (allTiles botToDraw) ->
     isJoker t = false -> sortValue t = inject_Z (value t)) /\
  NoDup (tileIds botToDraw) /\
  (forall c s', outcomeState (step c botToDraw) = Some s' ->
     forall t', In t' (allTiles s') ->
       exists t, In t (allTiles botToDraw) /\ sameTile t t' /\
         (keyKept t t' \/
          drawnByBot c botToDraw s' t t' \/
          explicitlyPlaced c t t') /\
         (isPlaced t = true ->
          isPlaced t' = true /\ sortValue t' = sortValue t)) /\
  (forall t target, In t (allTiles botToDraw) -> isPlaced t = true ->
     step (CmdReposition (tileId t) target) botToDraw = Ok botToDraw).
Proof.
  apply (sort_key_placement botToDraw).
  apply (reachable_playedWith humanAndBotJokers
           [CmdDraw 0; CmdGuess "p-1" 0 5]
           (playedWith humanAndBotJokers []) botToDraw).
  - unfold validConfig. simpl. lia.
  - vm_compute. reflexivity.
  - vm_compute. reflexivity.
Defined.
